(** * C-DataStructures-Library: QueueArray and RedBlackTree

    A shallow embedding of [src/QueueArray.c] (the circular, growable queue)
    and of the red-black tree operations exercised by
    [tests/RedBlackTreeTests.c], together with the properties stated about
    them in the design document.

    Conventions of the embedding.
    - [void *] elements are addresses, modelled as [Z]; [NULL] is [0].
    - [integer_t] (declared in [Core.h]) is a signed 64-bit integer,
      [unsigned_t] and [size_t] are unsigned 64-bit integers, a pointer takes
      8 bytes.  Values are carried in [Z].  The places where the code can
      leave 64 bits are modelled at that width: the conversion of a [double]
      to [integer_t] (undefined outside the range), the byte count handed to
      [malloc] and [realloc] (computed in [size_t], so it wraps) and the
      unsigned sum of [qua_fits] (it wraps too).  Sums and differences of
      indices and sizes are exact: on a queue that satisfies the
      representation invariant they are below [2^62]; the version counter
      would take [2^63] calls to overflow.
    - A C function that may run into undefined behaviour (an access outside
      an allocated block, a remainder by zero, a conversion out of range)
      returns in the [option] monad; [None] is "no defined result".
    - [malloc] and [realloc] are oracles: the caller of a modelled function
      supplies the outcome of each allocation it performs.  The block
      obtained has as many cells as the byte count asked for, which is not
      always the number of cells the caller had in mind.
    - [double] arithmetic is IEEE 754 binary64, round to nearest even, as
      specified by [SpecFloat]. *)

From Stdlib Require Import ZArith Lia.
From Stdlib Require Import Floats.SpecFloat.
From Stdlib Require Import String.
From stdpp Require Import base numbers option list.

Local Open Scope Z_scope.

(** ** Core: pointers, allocation, loops, doubles *)

Module Core.

Abbreviation ptr := Z (only parsing).
Abbreviation integer_t := Z (only parsing).
Definition NULL : ptr := 0.

(** The capability bundle handed to a container.  [compare] and [copy] are
    pure on addresses; calls of [free] are recorded in a trace instead. *)
Record Interface_s : Type := interface_new {
  interface_compare : ptr → ptr → Z;
  interface_copy : ptr → ptr
}.

(** Outcome of [malloc]/[realloc]: failure, or success with the (arbitrary)
    contents [fresh i] of every cell [i] that was not there before. *)
Inductive alloc_result : Type :=
  | AllocFails
  | AllocOk (fresh : nat → ptr).

(** The value of an [integer_t] expression whose exact result is [z]:
    signed overflow is undefined. *)
Definition integer (z : Z) : option integer_t :=
  if decide (- 2 ^ 63 ≤ z < 2 ^ 63) then Some z else None.

(** [(size_t) z], and the conversion to [unsigned_t]: reduction modulo
    [2^64]. *)
Definition to_size_t (z : Z) : Z := z `mod` 2 ^ 64.

(** [sizeof(void* )] *)
Definition sizeof_pointer : Z := 8.

(** [sizeof(void* ) * (size_t) n], a product in [size_t]. *)
Definition byte_count (n : integer_t) : Z :=
  to_size_t (sizeof_pointer * to_size_t n).

(** The number of pointer cells in a block of [byte_count n] bytes.  It is
    [n] only for [0 ≤ n < max_cells]. *)
Definition allocated_cells (n : integer_t) : Z := byte_count n / sizeof_pointer.

(** The least number of cells whose byte count does not fit [size_t]. *)
Definition max_cells : Z := 2 ^ 61.

(** [malloc(sizeof(void* ) * (size_t) n)] on success: a block of the cells
    that fit the byte count. *)
Definition malloc_cells (fresh : nat → ptr) (n : integer_t) : list ptr :=
  fresh <$> seq 0 (Z.to_nat (allocated_cells n)).

(** [realloc(block, sizeof(void* ) * (size_t) n)] on success: the common
    prefix is kept, cells beyond the old block are arbitrary, cells beyond
    the byte count are gone. *)
Definition realloc_cells (fresh : nat → ptr) (block : list ptr) (n : integer_t)
    : list ptr :=
  take (Z.to_nat (allocated_cells n)) block
    ++ (fresh <$> seq (length block)
                    (Z.to_nat (allocated_cells n) - length block)).

(** What [realloc(block, sizeof(void* ) * (size_t) n)] returns: a null
    pointer, with what is left of the old block, or the new block. *)
Inductive realloc_result : Type :=
  | ReallocNull (remains : list ptr)
  | ReallocBlock (new_block : list ptr).

(** A request of zero bytes is not a resize: glibc frees the block and
    returns a null pointer, whatever the state of the heap (the C standard
    leaves the case to the implementation).  No cell of the old block may
    be accessed afterwards: what remains is a block without cells.  A
    failed request of at least one byte leaves the old block as it is. *)
Definition realloc_block (answer : alloc_result) (block : list ptr)
    (n : integer_t) : realloc_result :=
  if decide (byte_count n = 0) then ReallocNull []
  else match answer with
       | AllocFails => ReallocNull block
       | AllocOk fresh => ReallocBlock (realloc_cells fresh block n)
       end.

(** [block[i]] as an rvalue. *)
Definition load (block : list ptr) (i : Z) : option ptr :=
  if decide (0 ≤ i) then block !! Z.to_nat i else None.

(** [block[i] = v]. *)
Definition store (block : list ptr) (i : Z) (v : ptr) : option (list ptr) :=
  if decide (0 ≤ i < Z.of_nat (length block))
  then Some (<[Z.to_nat i := v]> block)
  else None.

(** [a % b] on [integer_t]: truncated remainder, undefined for [b = 0]. *)
Definition c_rem (a b : Z) : option Z :=
  if decide (b = 0) then None else Some (Z.rem a b).

(** [for (; cond; ) body]: the condition is tested before every iteration;
    [fuel] bounds the number of iterations. *)
Fixpoint for_loop {St : Type} (fuel : nat) (cond : St → bool)
    (body : St → option St) (s : St) : option St :=
  if cond s then
    match fuel with
    | O => None
    | S fuel' => s' ← body s; for_loop fuel' cond body s'
    end
  else Some s.

(** *** binary64 *)

Definition prec : Z := 53.
Definition emax : Z := 1024.

(** [(double) z] *)
Definition double_of_integer (z : Z) : spec_float :=
  binary_normalize prec emax z 0 false.

Definition double_mul : spec_float → spec_float → spec_float := SFmul prec emax.
Definition double_div : spec_float → spec_float → spec_float := SFdiv prec emax.

(** [(integer_t) x]: truncation toward zero.  The conversion is undefined
    when the truncated value is not an [integer_t], which includes the
    infinities and NaN. *)
Definition integer_of_double (x : spec_float) : option integer_t :=
  match x with
  | S754_zero _ => Some 0
  | S754_finite s m e =>
      let mag := if decide (0 ≤ e) then Z.pos m * 2 ^ e else Z.pos m / 2 ^ (- e) in
      integer (if s then - mag else mag)
  | _ => None
  end.

End Core.

(** ** QueueArray.c *)

Module QueueArray.
Import Core.

Record QueueArray_s : Type := mkQueueArray {
  buffer : list ptr;
  front : integer_t;
  rear : integer_t;
  size : integer_t;
  capacity : integer_t;
  growth_rate : integer_t;
  locked : bool;
  interface : Interface_s;
  version_id : integer_t
}.

Definition set_buffer (b : list ptr) (q : QueueArray_s) : QueueArray_s :=
  mkQueueArray b (front q) (rear q) (size q) (capacity q) (growth_rate q)
    (locked q) (interface q) (version_id q).
Definition set_front (v : Z) (q : QueueArray_s) : QueueArray_s :=
  mkQueueArray (buffer q) v (rear q) (size q) (capacity q) (growth_rate q)
    (locked q) (interface q) (version_id q).
Definition set_rear (v : Z) (q : QueueArray_s) : QueueArray_s :=
  mkQueueArray (buffer q) (front q) v (size q) (capacity q) (growth_rate q)
    (locked q) (interface q) (version_id q).
Definition set_size (v : Z) (q : QueueArray_s) : QueueArray_s :=
  mkQueueArray (buffer q) (front q) (rear q) v (capacity q) (growth_rate q)
    (locked q) (interface q) (version_id q).
Definition set_capacity (v : Z) (q : QueueArray_s) : QueueArray_s :=
  mkQueueArray (buffer q) (front q) (rear q) (size q) v (growth_rate q)
    (locked q) (interface q) (version_id q).
Definition set_growth_rate (v : Z) (q : QueueArray_s) : QueueArray_s :=
  mkQueueArray (buffer q) (front q) (rear q) (size q) (capacity q) v
    (locked q) (interface q) (version_id q).
Definition set_locked (v : bool) (q : QueueArray_s) : QueueArray_s :=
  mkQueueArray (buffer q) (front q) (rear q) (size q) (capacity q)
    (growth_rate q) v (interface q) (version_id q).
Definition set_interface (v : Interface_s) (q : QueueArray_s) : QueueArray_s :=
  mkQueueArray (buffer q) (front q) (rear q) (size q) (capacity q)
    (growth_rate q) (locked q) v (version_id q).
Definition set_version_id (v : Z) (q : QueueArray_s) : QueueArray_s :=
  mkQueueArray (buffer q) (front q) (rear q) (size q) (capacity q)
    (growth_rate q) (locked q) (interface q) v.

(** [for (integer_t i = 0; i < n; i++) block[i] = NULL;] *)
Definition null_fill (n : Z) (block : list ptr) : option (list ptr) :=
  snd <$> for_loop (St := Z * list ptr) (Z.to_nat n)
    (λ '(i, _), bool_decide (i < n))
    (λ '(i, b), b' ← store b i NULL; Some (i + 1, b'))
    (0, block).

(** [qua_create].  [malloc_queue] tells whether the struct could be
    allocated, [malloc_buffer] is the outcome of the buffer allocation.  The
    inner [None] is the [NULL] return. *)
Definition qua_create (initial_capacity growth_rate : integer_t)
    (interface : Interface_s) (malloc_queue : bool)
    (malloc_buffer : alloc_result) : option (option QueueArray_s) :=
  if bool_decide (growth_rate ≤ 100 ∨ initial_capacity ≤ 0) then Some None
  else if negb malloc_queue then Some None
  else match malloc_buffer with
  | AllocFails => Some None
  | AllocOk fresh =>
      b ← null_fill initial_capacity (malloc_cells fresh initial_capacity);
      Some (Some (mkQueueArray b 0 0 0 initial_capacity growth_rate false
                    interface 0))
  end.

(** [qua_new]: capacity 32, growth rate 200. *)
Definition qua_new (interface : Interface_s) (malloc_queue : bool)
    (malloc_buffer : alloc_result) : option (option QueueArray_s) :=
  if negb malloc_queue then Some None
  else match malloc_buffer with
  | AllocFails => Some None
  | AllocOk fresh =>
      b ← null_fill 32 (malloc_cells fresh 32);
      Some (Some (mkQueueArray b 0 0 0 32 200 false interface 0))
  end.

Definition qua_size (q : QueueArray_s) : integer_t := size q.
Definition qua_capacity (q : QueueArray_s) : integer_t := capacity q.
Definition qua_growth (q : QueueArray_s) : integer_t := growth_rate q.
Definition qua_locked (q : QueueArray_s) : bool := locked q.
Definition qua_empty (q : QueueArray_s) : bool := bool_decide (size q = 0).
Definition qua_full (q : QueueArray_s) : bool := bool_decide (size q = capacity q).

Definition qua_config (q : QueueArray_s) (new_interface : Interface_s) : QueueArray_s :=
  set_interface new_interface q.

(** [qua_set_growth]: the flag returned and the queue afterwards. *)
Definition qua_set_growth (q : QueueArray_s) (growth_rate : integer_t)
    : bool * QueueArray_s :=
  if bool_decide (growth_rate ≤ 100) then (false, q)
  else (true, set_growth_rate growth_rate q).

Definition qua_capacity_lock (q : QueueArray_s) : QueueArray_s := set_locked true q.
Definition qua_capacity_unlock (q : QueueArray_s) : QueueArray_s := set_locked false q.

(** The loop of [qua_erase] and [qua_free]:
    [for (i = front, j = 0; j < size; i = (i + 1) % capacity, j++)
       { interface->free(buffer[i]); buffer[i] = NULL; }]
    It yields the buffer and the addresses freed, in call order. *)
Definition erase_loop (q : QueueArray_s) : option (list ptr * list ptr) :=
  '(_, _, b, freed) ← for_loop (St := Z * Z * list ptr * list ptr)
    (Z.to_nat (size q))
    (λ '(i, j, b, freed), bool_decide (j < size q))
    (λ '(i, j, b, freed),
       v ← load b i;
       b' ← store b i NULL;
       i' ← c_rem (i + 1) (capacity q);
       Some (i', j + 1, b', freed ++ [v]))
    (front q, 0, buffer q, []);
  Some (b, freed).

(** [qua_erase]: the flag returned, the queue afterwards and the addresses
    handed to the interface's [free], in call order. *)
Definition qua_erase (q : QueueArray_s) : option (bool * QueueArray_s * list ptr) :=
  '(b, freed) ← erase_loop q;
  Some (true, set_buffer b q, freed).

(** The new capacity computed by [qua_grow]:
    [capacity = (integer_t) ((double) capacity * ((double) growth_rate / 100.0));]
    [if (capacity - old_capacity < 4) capacity = old_capacity + 4;] *)
Definition scaled_capacity (capacity growth_rate : integer_t)
    : option integer_t :=
  integer_of_double
    (double_mul (double_of_integer capacity)
       (double_div (double_of_integer growth_rate) (double_of_integer 100))).

Definition grown_capacity (old_capacity growth_rate : integer_t)
    : option integer_t :=
  capacity ← scaled_capacity old_capacity growth_rate;
  increase ← integer (capacity - old_capacity);
  if bool_decide (increase < 4) then integer (old_capacity + 4)
  else Some capacity.

(** First shifting loop of [qua_grow]:
    [for (i = old_capacity - 1, j = capacity - 1; i >= front; i--, j--)
       buffer[j] = buffer[i];] *)
Definition shift_right_portion (front old_capacity capacity : integer_t)
    (buffer : list ptr) : option (list ptr) :=
  '(_, _, b) ← for_loop (St := Z * Z * list ptr) (Z.to_nat old_capacity)
    (λ '(i, j, b), bool_decide (front ≤ i))
    (λ '(i, j, b),
       v ← load b i;
       b' ← store b j v;
       Some (i - 1, j - 1, b'))
    (old_capacity - 1, capacity - 1, buffer);
  Some b.

(** Second shifting loop of [qua_grow]:
    [for (i = 0, j = old_capacity; i < rear; i++, j = (j + 1) % capacity)
       buffer[j] = buffer[i];] *)
Definition append_left_portion (rear old_capacity capacity : integer_t)
    (buffer : list ptr) : option (list ptr) :=
  '(_, _, b) ← for_loop (St := Z * Z * list ptr) (Z.to_nat old_capacity)
    (λ '(i, j, b), bool_decide (i < rear))
    (λ '(i, j, b),
       v ← load b i;
       b' ← store b j v;
       j' ← c_rem (j + 1) capacity;
       Some (i + 1, j', b'))
    (0, old_capacity, buffer);
  Some b.

(** [qua_grow] (static).  [realloc] is the answer of the allocator to the
    reallocation.  When [realloc] returns a null pointer the capacity is
    rolled back and [buffer] keeps pointing to the old block, or to what is
    left of it. *)
Definition qua_grow (q : QueueArray_s) (realloc : alloc_result)
    : option (bool * QueueArray_s) :=
  if locked q then Some (false, q)
  else
    let old_capacity := capacity q in
    grown ← grown_capacity (capacity q) (growth_rate q);
    let q := set_capacity grown q in
    match realloc_block realloc (buffer q) (capacity q) with
    | ReallocNull remains =>
        Some (false, set_capacity old_capacity (set_buffer remains q))
    | ReallocBlock new_buffer =>
        let q := set_buffer new_buffer q in
        let real_rear :=
          if bool_decide (rear q = 0) then old_capacity - 1 else rear q - 1 in
        if bool_decide (real_rear < front q) then
          if bool_decide (old_capacity - front q < rear q) then
            let distance := old_capacity - front q in
            b ← shift_right_portion (front q) old_capacity (capacity q)
                  (buffer q);
            Some (true, set_front (capacity q - distance) (set_buffer b q))
          else
            b ← append_left_portion (rear q) old_capacity (capacity q)
                  (buffer q);
            r ← c_rem (old_capacity + rear q) (capacity q);
            Some (true, set_rear r (set_buffer b q))
        else if bool_decide (rear q = 0) then
          Some (true, set_rear old_capacity q)
        else Some (false, q)
    end.

(** [qua_enqueue].  [realloc] is consulted only if the queue has to grow. *)
Definition qua_enqueue (q : QueueArray_s) (element : ptr) (realloc : alloc_result)
    : option (bool * QueueArray_s) :=
  '(grown, q) ← (if qua_full q then qua_grow q realloc else Some (true, q));
  if negb grown then Some (false, q)
  else
    b ← store (buffer q) (rear q) element;
    let q := set_buffer b q in
    let q := set_rear (if bool_decide (rear q = capacity q - 1) then 0
                       else rear q + 1) q in
    let q := set_size (size q + 1) q in
    let q := set_version_id (version_id q + 1) q in
    Some (true, q).

(** [qua_dequeue]: the flag, [*result] and the queue afterwards. *)
Definition qua_dequeue (q : QueueArray_s) : option (bool * ptr * QueueArray_s) :=
  if qua_empty q then Some (false, NULL, q)
  else
    result ← load (buffer q) (front q);
    b ← store (buffer q) (front q) NULL;
    let q := set_buffer b q in
    let q := set_front (if bool_decide (front q = capacity q - 1) then 0
                        else front q + 1) q in
    let q := set_size (size q - 1) q in
    let q := set_version_id (version_id q + 1) q in
    Some (true, result, q).

Definition qua_peek_front (q : QueueArray_s) : option ptr :=
  if qua_empty q then Some NULL else load (buffer q) (front q).

Definition qua_peek_rear (q : QueueArray_s) : option ptr :=
  if qua_empty q then Some NULL
  else load (buffer q) (if bool_decide (rear q = 0) then capacity q - 1
                        else rear q - 1).

(** [qua_copy]; the inner [None] is the [NULL] return. *)
Definition qua_copy (q : QueueArray_s) (malloc_queue : bool)
    (malloc_buffer : alloc_result) : option (option QueueArray_s) :=
  created ← qua_create (capacity q) (growth_rate q) (interface q)
              malloc_queue malloc_buffer;
  match created with
  | None => Some None
  | Some new_queue =>
      '(_, _, nb) ← for_loop (St := Z * Z * list ptr) (Z.to_nat (size q))
        (λ '(i, j, nb), bool_decide (j < size q - 1))
        (λ '(i, j, nb),
           v ← load (buffer q) i;
           nb' ← store nb i (interface_copy (interface q) v);
           i' ← c_rem (i + 1) (capacity q);
           Some (i', j + 1, nb'))
        (front q, 0, buffer new_queue);
      let new_queue := set_buffer nb new_queue in
      let new_queue := set_front (front q) new_queue in
      let new_queue := set_rear (rear q) new_queue in
      let new_queue := set_size (size q) new_queue in
      let new_queue := set_locked (locked q) new_queue in
      Some (Some new_queue)
  end.

(** [qua_to_array]: the inner [None] is the [NULL] return, otherwise the
    array and the value stored in [*length]. *)
Definition qua_to_array (q : QueueArray_s) (malloc_array : alloc_result)
    : option (option (list ptr * integer_t)) :=
  if qua_empty q then Some None
  else match malloc_array with
  | AllocFails => Some None
  | AllocOk fresh =>
      let array := malloc_cells fresh (size q) in
      '(_, _, array) ← for_loop (St := Z * Z * list ptr) (Z.to_nat (size q))
        (λ '(i, j, array), bool_decide (j < size q))
        (λ '(i, j, array),
           v ← load (buffer q) i;
           array' ← store array i (interface_copy (interface q) v);
           i' ← c_rem (i + 1) (capacity q);
           Some (i', j + 1, array'))
        (front q, 0, array);
      Some (Some (array, size q))
  end.

(** *** Auxiliary definitions used in the proofs *)

(** Where the second loop puts the cell it copies in its [k]-th round. *)
Definition appended (old_capacity capacity k : Z) : Z :=
  if decide (old_capacity + k < capacity) then old_capacity + k
  else old_capacity + k - capacity.

(** The second half of [qua_enqueue], behind the growth check. *)
Definition enqueue_at_rear (q : QueueArray_s) (element : ptr)
    : option (bool * QueueArray_s) :=
  b ← store (buffer q) (rear q) element;
  Some (true,
        set_version_id (version_id q + 1)
          (set_size (size q + 1)
             (set_rear (if bool_decide (rear q = capacity q - 1) then 0
                        else rear q + 1)
                (set_buffer b q)))).

(** An interface used in the examples: addresses compare by difference, a
    copy lives 1000 cells further. *)
Definition sample_interface : Interface_s :=
  interface_new (λ a b, a - b) (λ a, a + 1000).

(** Exhaustive check behind the minimum growth: whenever the exact quotient
    is less than 4 above the capacity, the rounded product is too and the
    new capacity is the old one plus 4. *)
Definition minimum_growth_ok (c r : Z) : bool :=
  if bool_decide (c * r / 100 - c < 4)
  then bool_decide (grown_capacity c r = Some (c + 4))
  else true.

(** A growth that the address space can hold: the conversion is defined and
    the byte count of the new capacity fits [size_t]. *)
Definition fits (capacity growth_rate : integer_t) : bool :=
  match grown_capacity capacity growth_rate with
  | Some grown => bool_decide (grown < max_cells)
  | None => false
  end.

Definition growth_fits (q : QueueArray_s) : bool :=
  fits (capacity q) (growth_rate q).

(** Every capacity from [first] to [last] grows, at every rate of [rates],
    to a capacity that fits. *)
Definition growths_fit (first last : Z) (rates : list integer_t) : bool :=
  forallb (λ c, forallb (fits c) rates) (seqZ first (last - first + 1)).

(** The buffer index of the logical position [k] of a queue. *)
Definition position (q : QueueArray_s) (k : Z) : Z :=
  if decide (front q + k < capacity q) then front q + k
  else front q + k - capacity q.

(** *** The logical view of a queue *)

(** The element at logical position [j], counted from the front. *)
Definition slot (q : QueueArray_s) (j : Z) : ptr :=
  default NULL (load (buffer q) ((front q + j) `mod` capacity q)).

(** The logical sequence, front to rear. *)
Definition to_sequence (q : QueueArray_s) : list ptr :=
  slot q <$> seqZ 0 (size q).

(** The representation invariant of the circular buffer.  The buffer is a
    block of [capacity] cells, so its byte count fits [size_t]. *)
Record well_formed (q : QueueArray_s) : Prop := {
  wf_capacity : 0 < capacity q;
  wf_buffer : Z.of_nat (length (buffer q)) = capacity q;
  wf_front : 0 ≤ front q < capacity q;
  wf_size : 0 ≤ size q ≤ capacity q;
  wf_rear : rear q = (front q + size q) `mod` capacity q;
  wf_block : capacity q < max_cells
}.

(** A queue as returned by a successful constructor call. *)
Definition constructed (q : QueueArray_s) : Prop :=
  (∃ initial_capacity growth_rate interface malloc_queue malloc_buffer,
     qua_create initial_capacity growth_rate interface malloc_queue
       malloc_buffer = Some (Some q))
  ∨ (∃ interface malloc_queue malloc_buffer,
     qua_new interface malloc_queue malloc_buffer = Some (Some q)).

(** *** Sequences of calls *)

Inductive call : Type :=
  | Enqueue (element : ptr) (realloc : alloc_result)
  | Dequeue.

Inductive outcome : Type :=
  | Enqueued (element : ptr)
  | EnqueueFailed
  | Dequeued (result : ptr)
  | DequeueFailed.

Fixpoint run (q : QueueArray_s) (calls : list call)
    : option (QueueArray_s * list outcome) :=
  match calls with
  | [] => Some (q, [])
  | Enqueue element realloc :: calls' =>
      '(ok, q') ← qua_enqueue q element realloc;
      '(q'', outs) ← run q' calls';
      Some (q'', (if ok : bool then Enqueued element else EnqueueFailed) :: outs)
  | Dequeue :: calls' =>
      '(ok, result, q') ← qua_dequeue q;
      '(q'', outs) ← run q' calls';
      Some (q'', (if ok : bool then Dequeued result else DequeueFailed) :: outs)
  end.

(** Replaying the outcomes on a plain list: [fifo pending outs] is the list
    of pending elements after [outs] if every dequeue delivered the oldest
    pending element (and failed only on an empty list), [None] otherwise. *)
Fixpoint fifo (pending : list ptr) (outs : list outcome) : option (list ptr) :=
  match outs with
  | [] => Some pending
  | Enqueued element :: outs' => fifo (pending ++ [element]) outs'
  | EnqueueFailed :: outs' => fifo pending outs'
  | Dequeued result :: outs' =>
      match pending with
      | oldest :: pending' =>
          if decide (oldest = result) then fifo pending' outs' else None
      | [] => None
      end
  | DequeueFailed :: outs' =>
      match pending with
      | [] => fifo [] outs'
      | _ :: _ => None
      end
  end.

(** The numbers of successful enqueues and of successful dequeues. *)
Fixpoint enqueues (outs : list outcome) : Z :=
  match outs with
  | [] => 0
  | Enqueued _ :: outs' => 1 + enqueues outs'
  | _ :: outs' => enqueues outs'
  end.

Fixpoint dequeues (outs : list outcome) : Z :=
  match outs with
  | [] => 0
  | Dequeued _ :: outs' => 1 + dequeues outs'
  | _ :: outs' => dequeues outs'
  end.

(** *** Mutating operations, for the version counter *)

Inductive mutation : Type :=
  | DoEnqueue (element : ptr) (realloc : alloc_result)
  | DoDequeue
  | DoSetGrowth (growth_rate : integer_t)
  | DoErase
  | DoLock
  | DoUnlock
  | DoConfig (new_interface : Interface_s).

Definition mutate (q : QueueArray_s) (m : mutation) : option QueueArray_s :=
  match m with
  | DoEnqueue element realloc => snd <$> qua_enqueue q element realloc
  | DoDequeue => snd <$> qua_dequeue q
  | DoSetGrowth growth_rate => Some (snd (qua_set_growth q growth_rate))
  | DoErase => '(_, q', _) ← qua_erase q; Some q'
  | DoLock => Some (qua_capacity_lock q)
  | DoUnlock => Some (qua_capacity_unlock q)
  | DoConfig new_interface => Some (qua_config q new_interface)
  end.

Fixpoint mutate_all (q : QueueArray_s) (ms : list mutation) : option QueueArray_s :=
  match ms with
  | [] => Some q
  | m :: ms' => q' ← mutate q m; mutate_all q' ms'
  end.

(** The growth rates that a sequence of mutations asks for. *)
Definition rates (ms : list mutation) : list integer_t :=
  omap (λ m, match m with DoSetGrowth r => Some r | _ => None end) ms.

(** *** The remaining functions of [QueueArray.c] *)

(** What [qua_free] and [qua_free_shallow] release, in call order: an
    element through the interface's [free], the buffer, the struct. *)
Inductive released : Type :=
  | FreeElement (element : ptr)
  | FreeBuffer
  | FreeQueue.

(** [qua_free]:
    [for (i = front, j = 0; j < size; i = (i + 1) % capacity, j++)
       interface->free(buffer[i]);
     free(buffer); free(queue);] *)
Definition qua_free (q : QueueArray_s) : option (list released) :=
  '(_, _, freed) ← for_loop (St := Z * Z * list released) (Z.to_nat (size q))
    (λ '(i, j, freed), bool_decide (j < size q))
    (λ '(i, j, freed),
       v ← load (buffer q) i;
       i' ← c_rem (i + 1) (capacity q);
       Some (i', j + 1, freed ++ [FreeElement v]))
    (front q, 0, []);
  Some (freed ++ [FreeBuffer; FreeQueue]).

(** [qua_free_shallow]: the buffer and the struct only. *)
Definition qua_free_shallow (q : QueueArray_s) : list released :=
  [FreeBuffer; FreeQueue].

(** [qua_fits]: [(queue->size + size) <= queue->capacity].  The argument is
    an [unsigned_t] (declared in [Core.h]), so both fields are converted to
    [unsigned_t] and the sum wraps. *)
Definition qua_fits (q : QueueArray_s) (n : Z) : bool :=
  bool_decide (to_size_t (to_size_t (size q) + to_size_t n)
               ≤ to_size_t (capacity q)).

(** [qua_copy_shallow]; the inner [None] is the [NULL] return. *)
Definition qua_copy_shallow (q : QueueArray_s) (malloc_queue : bool)
    (malloc_buffer : alloc_result) : option (option QueueArray_s) :=
  created ← qua_create (capacity q) (growth_rate q) (interface q)
              malloc_queue malloc_buffer;
  match created with
  | None => Some None
  | Some new_queue =>
      '(_, _, nb) ← for_loop (St := Z * Z * list ptr) (Z.to_nat (size q))
        (λ '(i, j, nb), bool_decide (j < size q - 1))
        (λ '(i, j, nb),
           v ← load (buffer q) i;
           nb' ← store nb i v;
           i' ← c_rem (i + 1) (capacity q);
           Some (i', j + 1, nb'))
        (front q, 0, buffer new_queue);
      let new_queue := set_buffer nb new_queue in
      let new_queue := set_front (front q) new_queue in
      let new_queue := set_rear (rear q) new_queue in
      let new_queue := set_size (size q) new_queue in
      let new_queue := set_locked (locked q) new_queue in
      Some (Some new_queue)
  end.

(** [qua_compare].  The loop state is the index [i] and the value returned
    from inside the loop, if any; the comparator is the one of [queue1]. *)
Definition qua_compare (queue1 queue2 : QueueArray_s) : option Z :=
  let max_size := if bool_decide (size queue1 < size queue2)
                  then size queue1 else size queue2 in
  '(_, returned) ← for_loop (St := Z * option Z) (Z.to_nat max_size)
    (λ '(i, returned),
       match returned with
       | None => bool_decide (i < max_size)
       | Some _ => false
       end)
    (λ '(i, _),
       i1 ← c_rem (i + front queue1) (capacity queue1);
       a ← load (buffer queue1) i1;
       i2 ← c_rem (i + front queue2) (capacity queue2);
       b ← load (buffer queue2) i2;
       let comparison := interface_compare (interface queue1) a b in
       if bool_decide (0 < comparison) then Some (i, Some 1)
       else if bool_decide (comparison < 0) then Some (i, Some (-1))
       else Some (i + 1, None))
    (0, None);
  match returned with
  | Some result => Some result
  | None =>
      if bool_decide (size queue2 < size queue1) then Some 1
      else if bool_decide (size queue1 < size queue2) then Some (-1)
      else Some 0
  end.

(** What [qua_display] writes to the console: a [printf] of a literal (kept
    as it is spelled in the C source) or a call of the interface's
    [display] on an element. *)
Inductive console : Type :=
  | Printf (literal : string)
  | Display (element : ptr).

(** The loop shared by the four modes of [qua_display]:
    [for (i = front, j = 0; j < size - 1; i = (i + 1) % capacity, j++)
       { interface->display(buffer[i]); printf(separator); }] *)
Definition display_loop (q : QueueArray_s) (separator : string)
    : option (list console) :=
  '(_, _, out) ← for_loop (St := Z * Z * list console) (Z.to_nat (size q))
    (λ '(i, j, out), bool_decide (j < size q - 1))
    (λ '(i, j, out),
       v ← load (buffer q) i;
       i' ← c_rem (i + 1) (capacity q);
       Some (i', j + 1, out ++ [Display v; Printf separator]))
    (front q, 0, []);
  Some out.

(** [qua_display]. *)
Definition qua_display (q : QueueArray_s) (display_mode : Z)
    : option (list console) :=
  if qua_empty q then Some [Printf "\nQueueArray\n[ empty ]\n"]
  else
    let rear_index := if bool_decide (rear q = 0) then capacity q - 1
                      else rear q - 1 in
    if decide (display_mode = -1) then
      out ← display_loop q "\n";
      Some (Printf "\nQueueArray\n" :: out)
    else if decide (display_mode = 0) then
      out ← display_loop q " -> ";
      last ← load (buffer q) rear_index;
      Some (Printf "\nQueueArray\nFront -> " :: out
            ++ [Display last; Printf " -> Rear\n"])
    else if decide (display_mode = 1) then
      out ← display_loop q " ";
      Some (Printf "\nQueueArray\n" :: out ++ [Printf "\n"])
    else
      out ← display_loop q ", ";
      last ← load (buffer q) rear_index;
      Some (Printf "\nQueueArray\n[ " :: out ++ [Display last; Printf " ]\n"]).

(** The elements handed to [display], in order. *)
Definition displayed (out : list console) : list ptr :=
  omap (λ o, match o with Display e => Some e | Printf _ => None end) out.

(** Lexicographic comparison of two sequences, the longer one being the
    greater when one is a prefix of the other. *)
Fixpoint lexicographic (compare : ptr → ptr → Z) (l1 l2 : list ptr) : Z :=
  match l1, l2 with
  | a :: l1', b :: l2' =>
      if decide (0 < compare a b) then 1
      else if decide (compare a b < 0) then -1
      else lexicographic compare l1' l2'
  | [], [] => 0
  | _ :: _, [] => 1
  | [], _ :: _ => -1
  end.

(** A batch of enqueues, each with the answer the allocator would give. *)
Definition enqueue_all (elements : list ptr) (reallocs : list alloc_result)
    : list call :=
  zip_with Enqueue elements reallocs.

(** A bounded first-in-first-out list, the reference for a locked queue:
    an enqueue is taken while fewer than [bound] elements are pending and
    refused otherwise, whatever the allocator would answer; a dequeue
    delivers the oldest pending element.  Returns the outcomes and the
    elements left pending. *)
Fixpoint bounded_fifo (bound : Z) (pending : list ptr) (calls : list call)
    : list outcome * list ptr :=
  match calls with
  | [] => ([], pending)
  | Enqueue element _ :: calls' =>
      if decide (Z.of_nat (length pending) < bound)
      then let '(outs, rest) := bounded_fifo bound (pending ++ [element]) calls'
           in (Enqueued element :: outs, rest)
      else let '(outs, rest) := bounded_fifo bound pending calls'
           in (EnqueueFailed :: outs, rest)
  | Dequeue :: calls' =>
      match pending with
      | oldest :: pending' =>
          let '(outs, rest) := bounded_fifo bound pending' calls'
          in (Dequeued oldest :: outs, rest)
      | [] =>
          let '(outs, rest) := bounded_fifo bound [] calls'
          in (DequeueFailed :: outs, rest)
      end
  end.

End QueueArray.

(** ** RedBlackTree

    [RedBlackTree.c] is not among the sources at hand; only its tests are.
    The definitions of this module follow the design document. *)

Module RedBlackTree.
Import Core.

Inductive color : Type := Red | Black.

(** Modelled from the spec: the node of [RedBlackTree.c], which is missing.
    A node has a key, a color and two children; [Leaf] is the null child.
    The parent back-reference is not stored: wherever the algorithms follow
    parent links, the model carries the path from the root to the cursor. *)
Inductive node : Type :=
  | Leaf
  | Node (c : color) (left : node) (key : ptr) (right : node).

(** Modelled from the spec: the tree of [RedBlackTree.c] (missing): root,
    element count and capability bundle. *)
Record RedBlackTree_s : Type := mkRedBlackTree {
  root : node;
  size : integer_t;
  interface : Interface_s
}.

(** Modelled from the spec: the "parent: non-owning back-reference" of a
    node (missing), as one step of the way down from the root: the parent of
    the cursor with its color and key, and the sibling of the cursor.
    [LeftOf c k r] says the cursor is the left child of a [c] node with key
    [k] and right child [r]; [RightOf c l k] is the mirror image. *)
Inductive frame : Type :=
  | LeftOf (c : color) (key : ptr) (right : node)
  | RightOf (c : color) (left : node) (key : ptr).

(** The tree obtained by hanging [t] below [path], whose head is the parent
    of [t] and whose last frame is the root. *)
Fixpoint plug (t : node) (path : list frame) : node :=
  match path with
  | [] => t
  | LeftOf c k r :: above => plug (Node c t k r) above
  | RightOf c l k :: above => plug (Node c l k t) above
  end.

(** A null child counts as Black. *)
Definition is_red (t : node) : bool :=
  match t with Node Red _ _ _ => true | _ => false end.
Definition is_black (t : node) : bool := negb (is_red t).

Definition blacken (t : node) : node :=
  match t with
  | Leaf => Leaf
  | Node _ l k r => Node Black l k r
  end.

(** *** The red-black invariants *)

(** No Red node has a Red child. *)
Fixpoint no_red_red (t : node) : bool :=
  match t with
  | Leaf => true
  | Node c l _ r =>
      (match c with Red => is_black l && is_black r | Black => true end)
      && no_red_red l && no_red_red r
  end.

(** [Some h] if every path from [t] down to a null child passes through
    exactly [h] Black nodes, [None] if two paths differ. *)
Fixpoint black_height (t : node) : option nat :=
  match t with
  | Leaf => Some O
  | Node c l _ r =>
      hl ← black_height l;
      hr ← black_height r;
      if decide (hl = hr)
      then Some (match c with Red => hl | Black => S hl end)
      else None
  end.

(** Invariants (1) to (3) of the design document: the root is Black or the
    tree is empty, no Red node has a Red child, the black-height is
    uniform. *)
Definition red_black (t : node) : bool :=
  is_black t && no_red_red t && bool_decide (is_Some (black_height t)).

(** *** Modelled from the spec: [rbt_new] (missing) *)

(** Modelled from the spec: [rbt_new], missing from the sources; an empty
    tree with the given capabilities. *)
Definition rbt_new (interface : Interface_s) : RedBlackTree_s :=
  mkRedBlackTree Leaf 0 interface.

(** Modelled from the spec: [rbt_size] and [rbt_empty] (missing), "O(1)
    reads". *)
Definition rbt_size (tree : RedBlackTree_s) : integer_t := size tree.
Definition rbt_empty (tree : RedBlackTree_s) : bool := bool_decide (size tree = 0).

(** *** Insertion *)

(** Modelled from the spec: the descent of Insert (missing): "standard
    binary-search-tree descent (go left if compare(new,cur)<0, else right)",
    failing "if an equal key already exists (per comparator, ordering==0)".
    The result is the path to the null position found, [None] on an equal
    key. *)
Fixpoint insert_descent (compare : ptr → ptr → Z) (new : ptr) (cur : node)
    (path : list frame) : option (list frame) :=
  match cur with
  | Leaf => Some path
  | Node c l k r =>
      let ordering := compare new k in
      if decide (ordering = 0) then None
      else if decide (ordering < 0)
           then insert_descent compare new l (LeftOf c k r :: path)
           else insert_descent compare new r (RightOf c l k :: path)
  end.

(** Modelled from the spec: the insert-fixup of [RedBlackTree.c] (missing).
    [z] is the cursor, a Red node, and [path] leads to it.  "While the new
    node's parent is Red": with the parent the left child of the
    grandparent and the uncle Red, "recolor parent and uncle Black,
    grandparent Red, move cursor to grandparent, continue"; with the uncle
    Black or null and the node a right child, "left-rotate at parent, swap
    node/parent roles", then "recolor parent Black, grandparent Red,
    right-rotate at grandparent"; and the mirror image.  The loop ends when
    the parent is Black or the cursor is the root.  The document gives no
    behaviour for a Red parent without a grandparent: [None]. *)
Fixpoint insert_fixup (z : node) (path : list frame) : option node :=
  match path with
  | [] => Some z
  | LeftOf Black _ _ :: _ | RightOf Black _ _ :: _ => Some (plug z path)
  | LeftOf Red pk pr :: above =>
      (* parent = Node Red z pk pr *)
      match above with
      | [] => None
      | LeftOf _ gk (Node Red ul uk ur) :: rest =>
          insert_fixup
            (Node Red (Node Black z pk pr) gk (Node Black ul uk ur)) rest
      | LeftOf _ gk uncle :: rest =>
          (* right-rotate at the grandparent *)
          Some (plug (Node Black z pk (Node Red pr gk uncle)) rest)
      | RightOf _ (Node Red ul uk ur) gk :: rest =>
          insert_fixup
            (Node Red (Node Black ul uk ur) gk (Node Black z pk pr)) rest
      | RightOf _ uncle gk :: rest =>
          (* right-rotate at the parent, then left-rotate at the grandparent *)
          match z with
          | Leaf => None
          | Node _ zl zk zr =>
              Some (plug (Node Black (Node Red uncle gk zl) zk
                            (Node Red zr pk pr)) rest)
          end
      end
  | RightOf Red pl pk :: above =>
      (* parent = Node Red pl pk z *)
      match above with
      | [] => None
      | LeftOf _ gk (Node Red ul uk ur) :: rest =>
          insert_fixup
            (Node Red (Node Black pl pk z) gk (Node Black ul uk ur)) rest
      | LeftOf _ gk uncle :: rest =>
          (* left-rotate at the parent, then right-rotate at the grandparent *)
          match z with
          | Leaf => None
          | Node _ zl zk zr =>
              Some (plug (Node Black (Node Red pl pk zl) zk
                            (Node Red zr gk uncle)) rest)
          end
      | RightOf _ (Node Red ul uk ur) gk :: rest =>
          insert_fixup
            (Node Red (Node Black ul uk ur) gk (Node Black pl pk z)) rest
      | RightOf _ uncle gk :: rest =>
          (* left-rotate at the grandparent *)
          Some (plug (Node Black (Node Red uncle gk pl) pk z) rest)
      end
  end.

(** Modelled from the spec: [rbt_insert] (missing).  "Inserting into an
    empty tree creates a Black root directly, skipping fixup"; otherwise the
    new Red node is linked where the descent ended, the fixup runs and the
    root is forced Black "unconditionally at the end".  A duplicate key is
    rejected and the tree is left as it is. *)
Definition rbt_insert (tree : RedBlackTree_s) (element : ptr)
    : option (bool * RedBlackTree_s) :=
  match root tree with
  | Leaf =>
      Some (true, mkRedBlackTree (Node Black Leaf element Leaf)
                    (size tree + 1) (interface tree))
  | Node _ _ _ _ =>
      match insert_descent (interface_compare (interface tree)) element
              (root tree) [] with
      | None => Some (false, tree)
      | Some path =>
          t ← insert_fixup (Node Red Leaf element Leaf) path;
          Some (true, mkRedBlackTree (blacken t) (size tree + 1)
                        (interface tree))
      end
  end.

(** *** Deletion *)

(** Modelled from the spec: the search of Delete (missing), which locates
    the node holding [key]; the result is that node and the path to it,
    [None] if the key is absent. *)
Fixpoint find (compare : ptr → ptr → Z) (key : ptr) (cur : node)
    (path : list frame) : option (node * list frame) :=
  match cur with
  | Leaf => None
  | Node c l k r =>
      let ordering := compare key k in
      if decide (ordering = 0) then Some (cur, path)
      else if decide (ordering < 0)
           then find compare key l (LeftOf c k r :: path)
           else find compare key r (RightOf c l k :: path)
  end.

(** Modelled from the spec: "in-order successor y (leftmost of right
    subtree)".  The leftmost node of [t] and the path to it, relative to
    [t]. *)
Fixpoint leftmost (t : node) (path : list frame) : option (node * list frame) :=
  match t with
  | Leaf => None
  | Node c l k r =>
      match l with
      | Leaf => Some (t, path)
      | Node _ _ _ _ => leftmost l (LeftOf c k r :: path)
      end
  end.

(** What one round of the delete-fixup loop yields once the sibling is
    Black: the rebalanced subtree that takes the place of the parent (the
    loop is over), or the parent as the new cursor. *)
Inductive fixup_step : Type :=
  | Finished (subtree : node)
  | MovedUp (x : node).

(** Modelled from the spec: the rounds of delete-fixup (missing) for a
    Black sibling [w], the cursor [x] being the left child of a parent with
    color [pc] and key [pk].  "Sibling Black with both children Black →
    recolor sibling Red, move x up to parent"; "far nephew Black, near
    nephew Red → recolor near nephew Black, sibling Red, rotate at sibling
    away from x's side, recompute sibling", which leads to the last case;
    "far nephew Red → recolor sibling to parent's color, parent Black, far
    nephew Black, rotate at parent toward x's side".  The document gives no
    behaviour for a null sibling: [None]. *)
Definition sibling_cases_left (x : node) (pc : color) (pk : ptr) (w : node)
    : option fixup_step :=
  match w with
  | Leaf => None
  | Node _ wl wk wr =>
      if is_black wl && is_black wr then
        Some (MovedUp (Node pc x pk (Node Red wl wk wr)))
      else if is_black wr then
        match wl with
        | Leaf => None
        | Node _ wll wlk wlr =>
            Some (Finished (Node pc (Node Black x pk wll) wlk
                              (Node Black wlr wk wr)))
        end
      else
        Some (Finished (Node pc (Node Black x pk wl) wk (blacken wr)))
  end.

(** Modelled from the spec: the mirror image of the rounds above (missing);
    [x] is the right child, [w] the left one. *)
Definition sibling_cases_right (x : node) (pc : color) (pk : ptr) (w : node)
    : option fixup_step :=
  match w with
  | Leaf => None
  | Node _ wl wk wr =>
      if is_black wl && is_black wr then
        Some (MovedUp (Node pc (Node Red wl wk wr) pk x))
      else if is_black wl then
        match wr with
        | Leaf => None
        | Node _ wrl wrk wrr =>
            Some (Finished (Node pc (Node Black wl wk wrl) wrk
                              (Node Black wrr pk x)))
        end
      else
        Some (Finished (Node pc (blacken wl) wk (Node Black wr pk x)))
  end.

(** Modelled from the spec: the delete-fixup of [RedBlackTree.c] (missing).
    [x] stands where a Black node was removed.  "While x is not root and x
    is Black": a Red sibling is first made Black, the parent Red and the
    parent rotated toward [x], after which the sibling is Black and the
    cases above apply (if they move [x] up, [x] is the parent just colored
    Red and the loop ends).  After the last case [x] is set to the root.
    "Force final x Black". *)
Fixpoint delete_fixup (x : node) (path : list frame) : option node :=
  match path with
  | [] => Some (blacken x)
  | LeftOf pc pk w :: above =>
      if is_red x then Some (plug (blacken x) path)
      else match w with
      | Node Red wl wk wr =>
          step ← sibling_cases_left x Red pk wl;
          match step with
          | Finished t => Some (blacken (plug t (LeftOf Black wk wr :: above)))
          | MovedUp x' => Some (plug (blacken x') (LeftOf Black wk wr :: above))
          end
      | _ =>
          step ← sibling_cases_left x pc pk w;
          match step with
          | Finished t => Some (blacken (plug t above))
          | MovedUp x' => delete_fixup x' above
          end
      end
  | RightOf pc w pk :: above =>
      if is_red x then Some (plug (blacken x) path)
      else match w with
      | Node Red wl wk wr =>
          step ← sibling_cases_right x Red pk wr;
          match step with
          | Finished t => Some (blacken (plug t (RightOf Black wl wk :: above)))
          | MovedUp x' => Some (plug (blacken x') (RightOf Black wl wk :: above))
          end
      | _ =>
          step ← sibling_cases_right x pc pk w;
          match step with
          | Finished t => Some (blacken (plug t above))
          | MovedUp x' => delete_fixup x' above
          end
      end
  end.

(** Modelled from the spec: the end of Delete.  [x] is spliced into the
    position of the removed node; "if removed_color is Red: structure is
    unaffected, no fixup needed", if it is Black the delete-fixup runs. *)
Definition splice (removed_color : color) (x : node) (path : list frame)
    : option node :=
  match removed_color with
  | Red => Some (plug x path)
  | Black => delete_fixup x path
  end.

(** Modelled from the spec: [rbt_remove] (missing).  It "fails if key
    absent"; a node with two non-null children takes the key of its in-order
    successor, which is removed in its stead; the removed node has at most
    one child, [x]. *)
Definition rbt_remove (tree : RedBlackTree_s) (key : ptr)
    : option (bool * RedBlackTree_s) :=
  match find (interface_compare (interface tree)) key (root tree) [] with
  | None => Some (false, tree)
  | Some (Leaf, _) => None
  | Some (Node zc zl zk zr, path) =>
      new_root ←
        match zl, zr with
        | Node _ _ _ _, Node _ _ _ _ =>
            match leftmost zr [] with
            | Some (Node yc _ yk yr, below) =>
                splice yc yr (below ++ RightOf zc zl yk :: path)
            | _ => None
            end
        | Leaf, _ => splice zc zr path
        | Node _ _ _ _, Leaf => splice zc zl path
        end;
      Some (true, mkRedBlackTree new_root (size tree - 1) (interface tree))
  end.

(** *** Sequences of operations *)

Inductive operation : Type :=
  | Insert (element : ptr)
  | Remove (key : ptr).

Definition perform (tree : RedBlackTree_s) (op : operation)
    : option RedBlackTree_s :=
  match op with
  | Insert element => snd <$> rbt_insert tree element
  | Remove key => snd <$> rbt_remove tree key
  end.

(** The tree after each operation of a sequence, in order. *)
Fixpoint history (tree : RedBlackTree_s) (ops : list operation)
    : option (list RedBlackTree_s) :=
  match ops with
  | [] => Some []
  | op :: ops' =>
      tree' ← perform tree op;
      later ← history tree' ops';
      Some (tree' :: later)
  end.

(** The keys of a tree from left to right. *)
Fixpoint in_order (t : node) : list ptr :=
  match t with
  | Leaf => []
  | Node _ l k r => in_order l ++ k :: in_order r
  end.

(** *** The invariants as relations, for the proofs *)

Definition root_color (t : node) : color :=
  if is_red t then Red else Black.

(** [rb t n]: no Red node of [t] has a Red child and every path from [t]
    down to a null child passes through [n] Black nodes. *)
Inductive rb : node → nat → Prop :=
  | rb_leaf : rb Leaf 0
  | rb_red l k r n :
      rb l n → rb r n → is_black l = true → is_black r = true →
      rb (Node Red l k r) n
  | rb_black l k r n :
      rb l n → rb r n → rb (Node Black l k r) (S n).

(** [path_rb path n hole]: the frames of [path] are such that hanging below
    them any subtree [t] with [rb t n] and root color [hole] gives a
    red-black tree with a Black root. *)
Fixpoint path_rb (path : list frame) (n : nat) (hole : color) : Prop :=
  match path with
  | [] => hole = Black
  | LeftOf Black _ r :: above | RightOf Black r _ :: above =>
      rb r n ∧ path_rb above (S n) Black
  | LeftOf Red _ r :: above | RightOf Red r _ :: above =>
      hole = Black ∧ rb r n ∧ is_black r = true ∧ path_rb above n Red
  end.

(** The height of a node of color [pc] whose children have height [n]. *)
Definition height_above (pc : color) (n : nat) : nat :=
  match pc with Red => n | Black => S n end.

(** What stands where a Black node of height [S n] was removed: a Red node
    that becomes a subtree of height [S n] once Black, or a Black subtree of
    height [n]. *)
Definition deficient (x : node) (n : nat) : Prop :=
  if is_red x then rb (blacken x) (S n) else rb x n.

End RedBlackTree.

(** * Proofs *)

(** ** Memory cells, remainders and loops *)

Module CoreFacts.
Import Core.

Lemma load_Some_iff (block : list ptr) (i : Z) :
  is_Some (load block i) ↔ 0 ≤ i < Z.of_nat (length block).
Proof.
  unfold load. case_decide.
  - rewrite lookup_lt_is_Some. lia.
  - split; [intros [? ?]; discriminate | lia].
Qed.

Lemma load_in_range (block : list ptr) (i : Z) :
  0 ≤ i < Z.of_nat (length block) → ∃ v, load block i = Some v.
Proof. intros H. by apply load_Some_iff. Qed.

Lemma store_in_range (block : list ptr) (i : Z) (v : ptr) :
  0 ≤ i < Z.of_nat (length block) →
  store block i v = Some (<[Z.to_nat i := v]> block).
Proof. intros H. unfold store. by rewrite decide_True. Qed.

Lemma store_Some (block block' : list ptr) (i : Z) (v : ptr) :
  store block i v = Some block' →
  0 ≤ i < Z.of_nat (length block) ∧ block' = <[Z.to_nat i := v]> block.
Proof.
  unfold store. destruct (decide _) as [Hi|Hi]; intros Heq;
    [by inversion Heq | discriminate].
Qed.

Lemma length_store (block block' : list ptr) (i : Z) (v : ptr) :
  store block i v = Some block' → length block' = length block.
Proof. intros [_ ->]%store_Some. apply length_insert. Qed.

Lemma load_store (block block' : list ptr) (i j : Z) (v : ptr) :
  store block i v = Some block' →
  load block' j = if decide (j = i) then Some v else load block j.
Proof.
  intros [Hi ->]%store_Some. unfold load.
  case_decide as Hj; [|by rewrite decide_False by lia].
  case_decide as Hji.
  - subst j. apply list_lookup_insert_eq. lia.
  - apply list_lookup_insert_ne. lia.
Qed.

Lemma integer_range (z z' : Z) :
  integer z = Some z' → z' = z ∧ - 2 ^ 63 ≤ z < 2 ^ 63.
Proof. unfold integer. case_decide; [|done]. by intros [= <-]. Qed.

(** Below [max_cells] the byte count is exact and the block has the cells
    that were asked for; in general it has fewer than [max_cells]. *)
Lemma byte_count_small (n : Z) :
  0 ≤ n < max_cells → byte_count n = sizeof_pointer * n.
Proof.
  unfold max_cells, byte_count, to_size_t, sizeof_pointer. intros Hn.
  rewrite (Z.mod_small n) by lia. apply Z.mod_small. lia.
Qed.

Lemma allocated_cells_small (n : Z) :
  0 ≤ n < max_cells → allocated_cells n = n.
Proof.
  intros Hn. unfold allocated_cells. rewrite byte_count_small by done.
  unfold sizeof_pointer. rewrite Z.mul_comm. by apply Z.div_mul.
Qed.

Lemma allocated_cells_bound (n : Z) : 0 ≤ allocated_cells n < max_cells.
Proof.
  unfold allocated_cells, byte_count, to_size_t, sizeof_pointer, max_cells.
  pose proof (Z.mod_pos_bound (8 * (n `mod` 2 ^ 64)) (2 ^ 64)) as Hb.
  split; [apply Z.div_pos; lia | apply Z.div_lt_upper_bound; lia].
Qed.

Lemma byte_count_nonzero (n : Z) : 0 < n < max_cells → byte_count n ≠ 0.
Proof.
  intros Hn. rewrite byte_count_small by lia. unfold sizeof_pointer. lia.
Qed.

Lemma load_realloc_old (fresh : nat → ptr) (block : list ptr) (n i : Z) :
  n < max_cells →
  Z.of_nat (length block) ≤ n → 0 ≤ i < Z.of_nat (length block) →
  load (realloc_cells fresh block n) i = load block i.
Proof.
  intros Hmax Hn Hi. unfold load, realloc_cells.
  rewrite allocated_cells_small by lia.
  rewrite !decide_True by lia.
  rewrite take_ge by lia. apply lookup_app_l. lia.
Qed.

Lemma length_realloc (fresh : nat → ptr) (block : list ptr) (n : Z) :
  n < max_cells →
  Z.of_nat (length block) ≤ n →
  Z.of_nat (length (realloc_cells fresh block n)) = n.
Proof.
  intros Hmax Hn. unfold realloc_cells.
  rewrite allocated_cells_small by lia.
  rewrite length_app, length_take, length_fmap, length_seq. lia.
Qed.

Lemma realloc_block_fits (fresh : nat → ptr) (block : list ptr) (n : Z) :
  0 < n < max_cells →
  realloc_block (AllocOk fresh) block n
  = ReallocBlock (realloc_cells fresh block n).
Proof.
  intros Hn. unfold realloc_block.
  by rewrite decide_False by (by apply byte_count_nonzero).
Qed.

Lemma realloc_block_fails (block : list ptr) (n : Z) :
  byte_count n ≠ 0 → realloc_block AllocFails block n = ReallocNull block.
Proof. intros Hn. unfold realloc_block. by rewrite decide_False. Qed.

Lemma length_malloc (fresh : nat → ptr) (n : Z) :
  0 ≤ n < max_cells → Z.of_nat (length (malloc_cells fresh n)) = n.
Proof.
  intros Hn. unfold malloc_cells. rewrite allocated_cells_small by done.
  rewrite length_fmap, length_seq. lia.
Qed.

Lemma length_malloc_bound (fresh : nat → ptr) (n : Z) :
  Z.of_nat (length (malloc_cells fresh n)) < max_cells.
Proof.
  unfold malloc_cells. rewrite length_fmap, length_seq.
  pose proof (allocated_cells_bound n). lia.
Qed.

Lemma c_rem_wrap (a b : Z) :
  0 < b → 0 ≤ a < 2 * b →
  c_rem a b = Some (if decide (a < b) then a else a - b).
Proof.
  intros Hb Ha. unfold c_rem. rewrite decide_False by lia. f_equal.
  rewrite Z.rem_mod_nonneg by lia.
  case_decide; [apply Z.mod_small; lia|].
  symmetry. apply (Z.mod_unique a b 1); lia.
Qed.

Lemma mod_wrap (a b : Z) :
  0 < b → 0 ≤ a < 2 * b →
  a `mod` b = if decide (a < b) then a else a - b.
Proof.
  intros Hb Ha. case_decide; [apply Z.mod_small; lia|].
  symmetry. apply (Z.mod_unique a b 1); lia.
Qed.

(** A loop whose body preserves [P] and decreases the measure [m] ends, if
    the fuel covers the measure, in a state that satisfies [P] and falsifies
    the condition. *)
Lemma for_loop_rule {St : Type} (P : St → Prop) (m : St → nat)
    (cond : St → bool) (body : St → option St) (fuel : nat) (s : St) :
  P s → (m s ≤ fuel)%nat →
  (∀ s, P s → cond s = true →
        ∃ s', body s = Some s' ∧ P s' ∧ (m s' < m s)%nat) →
  ∃ s', for_loop fuel cond body s = Some s' ∧ P s' ∧ cond s' = false.
Proof.
  intros HP Hm Hstep. revert s HP Hm.
  induction fuel as [|fuel IH]; intros s HP Hm; simpl.
  - destruct (cond s) eqn:Hc; [|eauto].
    destruct (Hstep s HP Hc) as (s' & _ & _ & Hlt). lia.
  - destruct (cond s) eqn:Hc; [|eauto].
    destruct (Hstep s HP Hc) as (s' & -> & HP' & Hlt). simpl.
    apply IH; [done | lia].
Qed.

(** Partial correctness: whatever the fuel, a result of the loop satisfies
    every invariant of the body and falsifies the condition. *)
Lemma for_loop_partial {St : Type} (P : St → Prop)
    (cond : St → bool) (body : St → option St) (fuel : nat) (s s' : St) :
  P s →
  (∀ s s', P s → cond s = true → body s = Some s' → P s') →
  for_loop fuel cond body s = Some s' → P s' ∧ cond s' = false.
Proof.
  intros HP Hstep. revert s HP.
  induction fuel as [|fuel IH]; intros s HP; simpl.
  - destruct (cond s) eqn:Hc; [done|]. by intros [= <-].
  - destruct (cond s) eqn:Hc; [|by intros [= <-]].
    destruct (body s) as [s1|] eqn:Hb; [|done]. simpl.
    apply IH. by apply (Hstep s).
Qed.

(** [loop_invariant P m pat] applies [for_loop_rule] to the loop of the
    goal, with invariant [P] and measure [m]. *)
Ltac loop_invariant P m pat :=
  match goal with
  | |- context [for_loop ?fuel ?cond ?body ?s] =>
      destruct (for_loop_rule P m cond body fuel s) as pat
  end.

End CoreFacts.

(** ** QueueArray *)

Module QueueArrayFacts.
Import Core CoreFacts QueueArray.

(** *** The shifting loops of [qua_grow] *)

(** The first loop moves the cells [front .. old_capacity - 1] to the end of
    the enlarged buffer and leaves every other cell alone. *)
Lemma shift_right_portion_spec (front old_capacity capacity : Z) (b0 : list ptr) :
  0 ≤ front < old_capacity → old_capacity < capacity →
  Z.of_nat (length b0) = capacity →
  ∃ b, shift_right_portion front old_capacity capacity b0 = Some b
     ∧ length b = length b0
     ∧ ∀ p, load b p =
            if decide (capacity - (old_capacity - front) ≤ p < capacity)
            then load b0 (p - (capacity - old_capacity))
            else load b0 p.
Proof.
  intros Hfront Hcap Hlen. unfold shift_right_portion.
  set (d := capacity - old_capacity).
  loop_invariant
    (λ '(i, j, b), front - 1 ≤ i ≤ old_capacity - 1 ∧ j = i + d
       ∧ length b = length b0
       ∧ ∀ p, load b p = if decide (i + d < p < capacity)
                         then load b0 (p - d) else load b0 p)
    (λ '((i, _, _) : Z * Z * list ptr), Z.to_nat (i - front + 1))
    ipattern:(([[i j] b] & -> & (Hi & Hj & Hb & Hload) & Hexit)).
  - repeat split; [lia | lia | unfold d; lia |].
    intros p. by rewrite decide_False by lia.
  - lia.
  - intros [[i j] b] (Hi & -> & Hb & Hload) Hc.
    apply bool_decide_eq_true in Hc.
    destruct (load_in_range b i) as [v Hv]; [lia|].
    rewrite Hv. simpl.
    rewrite store_in_range by (unfold d; lia). simpl.
    eexists. split; [done|]. split; [|lia].
    repeat split; [lia | lia | lia | by rewrite length_insert |].
    intros p.
    rewrite (load_store b _ (i + d) p v) by (apply store_in_range; unfold d; lia).
    rewrite Hload in Hv. rewrite decide_False in Hv by lia.
    case_decide as Hp.
    + subst p. rewrite decide_True by (unfold d; lia).
      rewrite <- Hv. f_equal. lia.
    + rewrite Hload. repeat case_decide; first [done | lia].
  - apply bool_decide_eq_false in Hexit. simpl.
    exists b. split; [done|]. split; [done|].
    intros p. rewrite Hload. unfold d.
    repeat case_decide; first [done | lia].
Qed.

(** The second loop copies the cells [0 .. rear - 1] behind the old end of
    the buffer, wrapping around the new end, and leaves every other cell
    alone. *)
Lemma append_left_portion_spec (rear old_capacity capacity : Z) (b0 : list ptr) :
  0 ≤ rear ≤ old_capacity → 0 < old_capacity < capacity →
  Z.of_nat (length b0) = capacity →
  ∃ b, append_left_portion rear old_capacity capacity b0 = Some b
     ∧ length b = length b0
     ∧ (∀ k, 0 ≤ k < rear →
             load b (appended old_capacity capacity k) = load b0 k)
     ∧ (∀ p, (∀ k, 0 ≤ k < rear → p ≠ appended old_capacity capacity k) →
             load b p = load b0 p).
Proof.
  intros Hrear Hcap Hlen. unfold append_left_portion.
  loop_invariant
    (λ '(i, j, b), 0 ≤ i ≤ rear ∧ j = appended old_capacity capacity i
       ∧ length b = length b0
       ∧ (∀ k, 0 ≤ k < i →
               load b (appended old_capacity capacity k) = load b0 k)
       ∧ (∀ p, (∀ k, 0 ≤ k < i → p ≠ appended old_capacity capacity k) →
               load b p = load b0 p))
    (λ '((i, _, _) : Z * Z * list ptr), Z.to_nat (rear - i))
    ipattern:(([[i j] b] & -> & (Hi & Hj & Hb & Hcopied & Hrest) & Hexit)).
  - split_and!; [lia | lia | | done | intros; lia | done].
    unfold appended. rewrite decide_True by lia. lia.
  - lia.
  - intros [[i j] b] (Hi & -> & Hb & Hcopied & Hrest) Hc.
    apply bool_decide_eq_true in Hc.
    destruct (load_in_range b i) as [v Hv]; [lia|].
    rewrite Hv. simpl.
    assert (0 ≤ appended old_capacity capacity i < capacity) as Hj
      by (unfold appended; case_decide; lia).
    rewrite store_in_range by lia. simpl.
    rewrite c_rem_wrap by lia. simpl.
    eexists. split; [done|]. split; [|lia].
    repeat split; [lia | lia | | by rewrite length_insert | |].
    + unfold appended. repeat case_decide; lia.
    + intros k Hk.
      rewrite (load_store b _ (appended old_capacity capacity i) _ v)
        by (apply store_in_range; lia).
      case_decide as Hki.
      * assert (k = i) as -> by (revert Hki; unfold appended;
                                  repeat case_decide; lia).
        rewrite <- Hv. apply Hrest.
        intros k' Hk'. unfold appended. case_decide; lia.
      * apply Hcopied.
        destruct (decide (k = i)) as [->|]; [done | lia].
    + intros p Hp.
      rewrite (load_store b _ (appended old_capacity capacity i) p v)
        by (apply store_in_range; lia).
      rewrite decide_False by (apply Hp; lia).
      apply Hrest. intros k Hk. apply Hp. lia.
  - apply bool_decide_eq_false in Hexit. simpl.
    assert (i = rear) as -> by lia.
    exists b. done.
Qed.


(** *** Growth is a re-layout *)

Lemma grown_capacity_min (c g N : Z) :
  grown_capacity c g = Some N → c + 4 ≤ N.
Proof.
  unfold grown_capacity. intros H.
  destruct (scaled_capacity c g) as [scaled|]; simplify_eq/=.
  destruct (integer (scaled - c)) as [increase|] eqn:Hinc; simplify_eq/=.
  apply integer_range in Hinc as [-> ?].
  case_bool_decide.
  - apply integer_range in H as [-> ?]. lia.
  - simplify_eq. lia.
Qed.

Lemma fits_grown (c g : Z) :
  fits c g = true → ∃ N, grown_capacity c g = Some N ∧ N < max_cells.
Proof.
  unfold fits. destruct (grown_capacity c g) as [N|]; [|done].
  intros HN%bool_decide_eq_true. by exists N.
Qed.

Lemma qua_grow_unfold (q : QueueArray_s) (fresh : nat → ptr) (N : Z) :
  locked q = false →
  grown_capacity (capacity q) (growth_rate q) = Some N → 0 < N < max_cells →
  qua_grow q (AllocOk fresh) =
    let old_capacity := capacity q in
    let q := set_capacity N q in
    let q := set_buffer (realloc_cells fresh (buffer q) (capacity q)) q in
    let real_rear :=
      if bool_decide (rear q = 0) then old_capacity - 1 else rear q - 1 in
    if bool_decide (real_rear < front q) then
      if bool_decide (old_capacity - front q < rear q) then
        b ← shift_right_portion (front q) old_capacity (capacity q) (buffer q);
        Some (true, set_front (capacity q - (old_capacity - front q))
                      (set_buffer b q))
      else
        b ← append_left_portion (rear q) old_capacity (capacity q) (buffer q);
        r ← c_rem (old_capacity + rear q) (capacity q);
        Some (true, set_rear r (set_buffer b q))
    else if bool_decide (rear q = 0) then Some (true, set_rear old_capacity q)
    else Some (false, q).
Proof.
  intros Hl HN Hfits. unfold qua_grow. rewrite Hl, HN. simpl.
  by rewrite realloc_block_fits by done.
Qed.

(** What every defined call of [qua_grow] leaves alone, and what it does to
    the capacity: whatever the layout, the allocator and the block. *)
Lemma qua_grow_frame (q q' : QueueArray_s) (realloc : alloc_result) (ok : bool) :
  qua_grow q realloc = Some (ok, q') →
  size q' = size q ∧ growth_rate q' = growth_rate q ∧ locked q' = locked q
  ∧ interface q' = interface q ∧ version_id q' = version_id q
  ∧ (capacity q' = capacity q
     ∨ grown_capacity (capacity q) (growth_rate q) = Some (capacity q'))
  ∧ (ok = true →
     locked q = false
     ∧ grown_capacity (capacity q) (growth_rate q) = Some (capacity q')).
Proof.
  unfold qua_grow. intros H.
  destruct q as [buf f r s c g l itf ver]; simpl in *.
  destruct l; [simplify_eq/=; by split_and!; auto|].
  destruct (grown_capacity c g) as [grown|]; [|done]. simpl in *.
  repeat (case_match; simplify_option_eq); split_and!; auto; done.
Qed.

Lemma qua_grow_fails (q : QueueArray_s) (N : Z) :
  locked q = false →
  grown_capacity (capacity q) (growth_rate q) = Some N → byte_count N ≠ 0 →
  qua_grow q AllocFails = Some (false, q).
Proof.
  intros Hl HN Hbytes. unfold qua_grow. rewrite Hl, HN. simpl.
  rewrite realloc_block_fails by done. by destruct q.
Qed.

Lemma slot_wrap (q : QueueArray_s) (j : Z) :
  0 ≤ front q < capacity q → 0 ≤ j < capacity q →
  slot q j = default NULL (load (buffer q)
               (if decide (front q + j < capacity q) then front q + j
                else front q + j - capacity q)).
Proof. intros Hf Hj. unfold slot. by rewrite mod_wrap by lia. Qed.

Lemma to_sequence_ext q q' :
  size q' = size q → (∀ j, 0 ≤ j < size q → slot q' j = slot q j) →
  to_sequence q' = to_sequence q.
Proof.
  intros Hs H. unfold to_sequence. rewrite Hs.
  apply list_fmap_ext. intros i j Hj. apply lookup_seqZ in Hj. apply H. lia.
Qed.

Lemma qua_grow_full (q : QueueArray_s) (fresh : nat → ptr) :
  well_formed q → size q = capacity q → locked q = false →
  growth_fits q = true →
  ∃ q', qua_grow q (AllocOk fresh) = Some (true, q')
      ∧ well_formed q'
      ∧ to_sequence q' = to_sequence q
      ∧ size q' = size q
      ∧ grown_capacity (capacity q) (growth_rate q) = Some (capacity q')
      ∧ growth_rate q' = growth_rate q
      ∧ locked q' = locked q
      ∧ interface q' = interface q
      ∧ version_id q' = version_id q.
Proof.
  intros Hwf Hfull Hl (N & Hgrown & Hmax)%fits_grown.
  pose proof (grown_capacity_min _ _ _ Hgrown) as HN.
  destruct Hwf as [Hcap Hbuf Hfront Hsize Hrear Hblock].
  rewrite (qua_grow_unfold q fresh N) by (done || lia).
  rewrite Hfull in Hrear. rewrite mod_wrap in Hrear by lia.
  rewrite decide_False in Hrear by lia.
  destruct q as [buf f r s c g l itf ver]; simpl in *.
  subst s. assert (r = f) as -> by lia. clear Hrear.
  destruct (decide (f = 0)) as [->|Hf0].
  { (* nothing wrapped: only the rear index moves *)
    rewrite (bool_decide_eq_true_2 (0 = 0)) by done.
    rewrite bool_decide_eq_false_2 by lia.
    eexists. split; [done|]. simpl.
    split_and!; try done.
    - constructor; simpl; try lia.
      + by apply length_realloc; lia.
      + rewrite Z.mod_small; lia.
    - apply to_sequence_ext; [done|]. simpl. intros j Hj.
      rewrite !slot_wrap by (simpl; lia). simpl.
      rewrite !decide_True by lia.
      by rewrite load_realloc_old by lia. }
  rewrite (bool_decide_eq_false_2 (f = 0)) by done.
  rewrite (bool_decide_eq_true_2 (f - 1 < f)) by lia.
  case_bool_decide as Hside.
  - (* the right portion moves to the end *)
    destruct (shift_right_portion_spec f c N (realloc_cells fresh buf N))
      as (b & -> & Hlen & Hload); [lia | lia | by apply length_realloc; lia |].
    simpl. eexists. split; [done|].
    split_and!; try done.
    + constructor; simpl; try lia.
      * rewrite Hlen. apply length_realloc; lia.
      * rewrite mod_wrap by lia. case_decide; lia.
    + apply to_sequence_ext; [done|]. simpl. intros j Hj.
      rewrite !slot_wrap by (simpl; lia). simpl. f_equal.
      rewrite Hload.
      repeat case_decide; try lia;
        rewrite load_realloc_old by lia; f_equal; lia.
  - (* the left portion is appended to the right one *)
    destruct (append_left_portion_spec f c N (realloc_cells fresh buf N))
      as (b & -> & Hlen & Hcopied & Hrest);
      [lia | lia | by apply length_realloc; lia |].
    simpl. rewrite c_rem_wrap by lia. simpl.
    eexists. split; [done|].
    split_and!; try done.
    + constructor; simpl; try lia.
      * rewrite Hlen. apply length_realloc; lia.
      * rewrite mod_wrap by lia. repeat case_decide; lia.
    + apply to_sequence_ext; [done|]. simpl. intros j Hj.
      rewrite !slot_wrap by (simpl; lia). simpl. f_equal.
      destruct (decide (f + j < c)) as [Hjc|Hjc].
      * rewrite decide_True by lia.
        rewrite Hrest; [by rewrite load_realloc_old by lia|].
        intros k Hk. unfold appended. case_decide; lia.
      * replace (if decide (f + j < N) then f + j else f + j - N)
          with (appended c N (f + j - c))
          by (unfold appended; repeat case_decide; lia).
        rewrite Hcopied by lia. by rewrite load_realloc_old by lia.
Qed.

(** *** Constructors, enqueue and dequeue *)

Lemma null_fill_length (n : Z) (block b : list ptr) :
  null_fill n block = Some b → length b = length block.
Proof.
  unfold null_fill. intros H. apply fmap_Some in H as ([i b'] & Hloop & ->).
  eapply (for_loop_partial (λ '(_, b), length b = length block)) in Hloop
    as [Hlen _]; [done | done |].
  intros [i1 b1] [i2 b2] Hlen _ Hbody. simpl in Hbody.
  destruct (store b1 i1 NULL) as [b3|] eqn:Hst; simplify_eq/=.
  by rewrite (length_store _ _ _ _ Hst).
Qed.

(** The initialisation loop writes [n] cells: it has a defined result only
    on a block that has them. *)
Lemma null_fill_within (n : Z) (block b : list ptr) :
  null_fill n block = Some b → 0 ≤ n → n ≤ Z.of_nat (length block).
Proof.
  unfold null_fill. intros H Hn.
  apply fmap_Some in H as ([i b'] & Hloop & ->).
  eapply (for_loop_partial
            (λ '(i, b), 0 ≤ i ≤ Z.of_nat (length b)
                        ∧ length b = length block)) in Hloop
    as [(Hi & Hlen) Hexit]; [| by (split; [lia|]) |].
  - apply bool_decide_eq_false in Hexit. lia.
  - intros [i1 b1] [i2 b2] (Hi & Hlen) _ Hbody. simpl in Hbody.
    destruct (store b1 i1 NULL) as [b3|] eqn:Hst; simplify_eq/=.
    apply store_Some in Hst as [Hin ->]. rewrite length_insert. split; [lia|done].
Qed.

Lemma constructed_well_formed (q : QueueArray_s) :
  constructed q → well_formed q ∧ size q = 0 ∧ locked q = false ∧ version_id q = 0.
Proof.
  intros [(c & g & itf & mq & mb & H)|(itf & mq & mb & H)].
  - unfold qua_create in H. case_bool_decide as Hargs; [done|].
    destruct mq; [|done]. destruct mb as [|fresh]; [done|]. simpl in H.
    destruct (null_fill _ _) as [b|] eqn:Hfill; simplify_eq/=.
    pose proof (null_fill_within _ _ _ Hfill) as Hin.
    pose proof (length_malloc_bound fresh c) as Hmax.
    apply null_fill_length in Hfill.
    split_and!; try done.
    constructor; simpl; try lia.
    + rewrite Hfill. apply length_malloc. lia.
    + rewrite Z.mod_small; lia.
  - unfold qua_new in H.
    destruct mq; [|done]. destruct mb as [|fresh]; [done|].
    simpl in H. simplify_eq.
    split_and!; [constructor; first [done | simpl; lia] | done..].
Qed.

Lemma qua_enqueue_unfold (q : QueueArray_s) (element : ptr) (realloc : alloc_result) :
  qua_enqueue q element realloc =
    '(grown, q') ← (if qua_full q then qua_grow q realloc else Some (true, q));
    if negb grown then Some (false, q') else enqueue_at_rear q' element.
Proof. reflexivity. Qed.

Lemma to_sequence_snoc (q q' : QueueArray_s) :
  0 ≤ size q → size q' = size q + 1 →
  (∀ j, 0 ≤ j < size q → slot q' j = slot q j) →
  to_sequence q' = to_sequence q ++ [slot q' (size q)].
Proof.
  intros Hs Hs' Hslots. unfold to_sequence. rewrite Hs'.
  rewrite seqZ_app by lia. rewrite fmap_app. f_equal.
  apply list_fmap_ext. intros i j Hj. apply lookup_seqZ in Hj.
  apply Hslots. lia.
Qed.

Lemma enqueue_at_rear_spec (q : QueueArray_s) (element : ptr) :
  well_formed q → size q < capacity q →
  ∃ q', enqueue_at_rear q element = Some (true, q')
      ∧ well_formed q'
      ∧ to_sequence q' = to_sequence q ++ [element]
      ∧ size q' = size q + 1
      ∧ capacity q' = capacity q
      ∧ growth_rate q' = growth_rate q
      ∧ locked q' = locked q
      ∧ interface q' = interface q
      ∧ version_id q' = version_id q + 1.
Proof.
  intros [Hcap Hbuf Hfront Hsize Hrear] Hroom.
  rewrite mod_wrap in Hrear by lia.
  unfold enqueue_at_rear.
  destruct q as [buf f r s c g l itf ver]; simpl in *.
  assert (0 ≤ r < c) as Hr by (case_decide; lia).
  rewrite store_in_range by lia. simpl.
  eexists. split; [done|].
  split_and!; try done.
  - constructor; simpl; try lia.
    + by rewrite length_insert.
    + rewrite mod_wrap by lia. repeat case_decide; case_bool_decide; lia.
  - rewrite (to_sequence_snoc (mkQueueArray buf f r s c g l itf ver));
      [|simpl; lia|done|].
    + f_equal. f_equal. rewrite slot_wrap by (simpl; lia). simpl.
      erewrite load_store by (apply store_in_range; lia).
      rewrite decide_True by (repeat case_decide; lia). done.
    + simpl. intros j Hj. rewrite !slot_wrap by (simpl; lia). simpl.
      erewrite load_store by (apply store_in_range; lia).
      rewrite decide_False by (repeat case_decide; lia). done.
Qed.

Lemma qua_enqueue_room (q : QueueArray_s) (element : ptr) (realloc : alloc_result) :
  well_formed q → size q < capacity q →
  qua_enqueue q element realloc = enqueue_at_rear q element.
Proof.
  intros _ Hroom. rewrite qua_enqueue_unfold. unfold qua_full.
  by rewrite bool_decide_eq_false_2 by lia.
Qed.

(** An enqueue succeeds whenever there is room or the buffer can grow; it
    appends the element to the logical sequence. *)
Lemma qua_enqueue_spec (q : QueueArray_s) (element : ptr) (realloc : alloc_result) :
  well_formed q →
  size q < capacity q
  ∨ (locked q = false ∧ realloc ≠ AllocFails ∧ growth_fits q = true) →
  ∃ q', qua_enqueue q element realloc = Some (true, q')
      ∧ well_formed q'
      ∧ to_sequence q' = to_sequence q ++ [element]
      ∧ size q' = size q + 1
      ∧ growth_rate q' = growth_rate q
      ∧ locked q' = locked q
      ∧ interface q' = interface q
      ∧ version_id q' = version_id q + 1
      ∧ capacity q ≤ capacity q'.
Proof.
  intros Hwf Hcan.
  destruct (decide (size q < capacity q)) as [Hroom|Hfull].
  - rewrite qua_enqueue_room by done.
    destruct (enqueue_at_rear_spec q element Hwf Hroom)
      as (q' & -> & ? & ? & ? & ? & ? & ? & ? & ?).
    exists q'. split_and!; try done. lia.
  - destruct Hcan as [?|(Hl & Hre & Hfits)]; [done|].
    destruct realloc as [|fresh]; [done|].
    assert (size q = capacity q) as Hfull' by (destruct Hwf; lia).
    rewrite qua_enqueue_unfold. unfold qua_full.
    rewrite bool_decide_eq_true_2 by done.
    destruct (qua_grow_full q fresh Hwf Hfull' Hl Hfits)
      as (q1 & -> & Hwf1 & Hseq1 & Hs1 & Hc1 & Hg1 & Hl1 & Hi1 & Hv1).
    simpl.
    pose proof (grown_capacity_min _ _ _ Hc1).
    destruct (enqueue_at_rear_spec q1 element Hwf1)
      as (q' & -> & ? & ? & ? & ? & ? & ? & ? & ?); [lia|].
    exists q'. split_and!; first [congruence | lia].
Qed.

(** A full queue that is locked, or whose reallocation fails, rejects the
    element and stays as it is. *)
Lemma qua_enqueue_rejected (q : QueueArray_s) (element : ptr) (realloc : alloc_result) :
  size q = capacity q →
  locked q = true
  ∨ (realloc = AllocFails ∧ 0 < capacity q ∧ growth_fits q = true) →
  qua_enqueue q element realloc = Some (false, q).
Proof.
  intros Hfull Hno. rewrite qua_enqueue_unfold. unfold qua_full.
  rewrite bool_decide_eq_true_2 by done.
  destruct (locked q) eqn:Hl.
  { unfold qua_grow. by rewrite Hl. }
  destruct Hno as [?|(-> & Hc & (N & HN & Hmax)%fits_grown)]; [done|].
  pose proof (grown_capacity_min _ _ _ HN).
  rewrite (qua_grow_fails q N) by (done || apply byte_count_nonzero; lia).
  done.
Qed.

Lemma to_sequence_cons (q q' : QueueArray_s) :
  0 < size q → size q' = size q - 1 →
  (∀ j, 0 ≤ j < size q' → slot q' j = slot q (1 + j)) →
  to_sequence q = slot q 0 :: to_sequence q'.
Proof.
  intros Hs Hs' Hslots. unfold to_sequence. rewrite Hs'.
  rewrite seqZ_cons by lia. rewrite fmap_cons. f_equal.
  rewrite <- (fmap_add_seqZ 1 0). rewrite <- list_fmap_compose.
  apply list_fmap_ext. intros i j Hj. apply lookup_seqZ in Hj.
  simpl. symmetry. apply Hslots. lia.
Qed.

(** A dequeue on a non-empty queue delivers the first element of the logical
    sequence and removes it. *)
Lemma qua_dequeue_spec (q : QueueArray_s) :
  well_formed q → 0 < size q →
  ∃ result q', qua_dequeue q = Some (true, result, q')
      ∧ well_formed q'
      ∧ to_sequence q = result :: to_sequence q'
      ∧ size q' = size q - 1
      ∧ capacity q' = capacity q
      ∧ growth_rate q' = growth_rate q
      ∧ locked q' = locked q
      ∧ interface q' = interface q
      ∧ version_id q' = version_id q + 1.
Proof.
  intros [Hcap Hbuf Hfront Hsize Hrear] Hne.
  rewrite mod_wrap in Hrear by lia.
  unfold qua_dequeue, qua_empty.
  rewrite bool_decide_eq_false_2 by lia.
  destruct q as [buf f r s c g l itf ver]; simpl in *.
  destruct (load_in_range buf f) as [v Hv]; [lia|].
  rewrite Hv. simpl. rewrite store_in_range by lia. simpl.
  eexists _, _. split; [done|].
  split_and!; try done.
  - constructor; simpl; try lia.
    + by rewrite length_insert.
    + case_bool_decide; lia.
    + rewrite mod_wrap by (try case_bool_decide; lia).
      repeat case_decide; case_bool_decide; lia.
  - match goal with
    | |- to_sequence ?q = _ :: to_sequence ?q' =>
        rewrite (to_sequence_cons q q'); [|simpl; lia|done|]
    end.
    + f_equal. rewrite slot_wrap by (simpl; lia). simpl.
      rewrite decide_True by lia. rewrite Z.add_0_r. by rewrite Hv.
    + simpl. intros j Hj.
      rewrite !slot_wrap by (simpl; try case_bool_decide; lia). simpl.
      erewrite load_store by (apply store_in_range; lia).
      rewrite decide_False by (repeat case_decide; case_bool_decide; lia).
      f_equal. f_equal. repeat case_decide; case_bool_decide; lia.
Qed.

Lemma qua_dequeue_empty (q : QueueArray_s) :
  size q = 0 → qua_dequeue q = Some (false, NULL, q).
Proof.
  intros Hs. unfold qua_dequeue, qua_empty.
  by rewrite bool_decide_eq_true_2.
Qed.

(** *** FIFO order *)

Lemma to_sequence_empty (q : QueueArray_s) : size q = 0 → to_sequence q = [].
Proof. intros Hs. unfold to_sequence. by rewrite Hs. Qed.

Lemma growths_fit_spec (first last : Z) (rates : list integer_t) (c r : Z) :
  growths_fit first last rates = true → first ≤ c ≤ last → r ∈ rates →
  fits c r = true.
Proof.
  unfold growths_fit. intros Hall Hc Hr. rewrite forallb_forall in Hall.
  assert (c ∈ seqZ first (last - first + 1)) as Hcin
    by (apply elem_of_seqZ; lia).
  apply list_elem_of_In in Hcin. specialize (Hall c Hcin).
  rewrite forallb_forall in Hall. apply Hall. by apply list_elem_of_In.
Qed.

(** Any sequence of calls on a well-formed, unlocked queue runs to the end,
    and its outcomes are those of a plain FIFO list that starts as the
    logical sequence of the queue, as long as every capacity the calls can
    fill grows to one that fits. *)
Lemma run_fifo (calls : list call) (q : QueueArray_s) :
  well_formed q → locked q = false →
  (∀ c, capacity q ≤ c ≤ size q + Z.of_nat (length calls) →
        fits c (growth_rate q) = true) →
  ∃ q' outs, run q calls = Some (q', outs)
      ∧ well_formed q'
      ∧ locked q' = false
      ∧ fifo (to_sequence q) outs = Some (to_sequence q')
      ∧ size q' = size q + enqueues outs - dequeues outs
      ∧ 0 ≤ enqueues outs ∧ 0 ≤ dequeues outs.
Proof.
  revert q.
  induction calls as [|[element realloc|] calls IH]; intros q Hwf Hl Hfit.
  - exists q, []. simpl. split_and!; try done. lia.
  - simpl.
    assert (size q < capacity q → ∀ c, capacity q ≤ c → size q + 1 ≤ c) as _
      by lia.
    assert (size q = capacity q → growth_fits q = true) as Hgrow.
    { intros Hfull. apply Hfit. rewrite Hfull. simpl. lia. }
    assert ((size q < capacity q
             ∨ locked q = false ∧ realloc ≠ AllocFails ∧ growth_fits q = true)
            ∨ (size q = capacity q ∧ realloc = AllocFails))
      as [Hcan|[Hfull ->]].
    { destruct (decide (size q < capacity q)); [by left; left|].
      assert (size q = capacity q) by (destruct Hwf; lia).
      destruct realloc; [by right | left; right; auto]. }
    + destruct (qua_enqueue_spec q element realloc Hwf Hcan)
        as (q1 & -> & Hwf1 & Hseq1 & Hs1 & Hg1 & Hl1 & _ & _ & Hc1).
      simpl. rewrite Hl in Hl1.
      destruct (IH q1 Hwf1 Hl1) as (q' & outs & -> & ? & ? & Hfifo & ? & ? & ?).
      { intros c Hc. rewrite Hg1. apply Hfit. simpl. lia. }
      simpl. exists q', (Enqueued element :: outs).
      split_and!; try done; simpl; try lia.
      by rewrite <- Hseq1.
    + rewrite qua_enqueue_rejected;
        [| done
         | right; split_and!; [done | by destruct Hwf | by apply Hgrow]].
      simpl.
      destruct (IH q Hwf Hl) as (q' & outs & -> & ? & ? & Hfifo & ? & ? & ?).
      { intros c Hc. apply Hfit. simpl. lia. }
      simpl. exists q', (EnqueueFailed :: outs).
      split_and!; try done; simpl; lia.
  - simpl. destruct (decide (0 < size q)) as [Hne|Hempty].
    + destruct (qua_dequeue_spec q Hwf Hne)
        as (v & q1 & -> & Hwf1 & Hseq1 & Hs1 & Hc1 & Hg1 & Hl1 & _ & _).
      simpl. rewrite Hl in Hl1.
      destruct (IH q1 Hwf1 Hl1) as (q' & outs & -> & ? & ? & Hfifo & ? & ? & ?).
      { intros c Hc. rewrite Hg1. apply Hfit. simpl. lia. }
      simpl. exists q', (Dequeued v :: outs).
      split_and!; try done; simpl; try lia.
      rewrite Hseq1. by rewrite decide_True.
    + assert (size q = 0) as Hs0 by (destruct Hwf; lia).
      rewrite qua_dequeue_empty by done. simpl.
      destruct (IH q Hwf Hl) as (q' & outs & -> & ? & ? & Hfifo & ? & ? & ?).
      { intros c Hc. apply Hfit. simpl. lia. }
      simpl. exists q', (DequeueFailed :: outs).
      split_and!; try done; simpl; try lia.
      rewrite to_sequence_empty in * by done. done.
Qed.

(** C2, as amended.  On a queue made by [qua_new] or [qua_create], every
    sequence of [qua_enqueue] and [qua_dequeue] calls runs to the end, each
    successful dequeue returns the oldest element enqueued and not yet
    dequeued (the outcomes replay on a plain FIFO list), and after [k]
    successful enqueues and [j] successful dequeues, [j <= k] and
    [qua_size] is [k - j]; provided that every capacity the calls can fill,
    from the initial one to the number of calls, grows to fewer than [2^61]
    cells, so that the byte count handed to [realloc] fits [size_t]. *)
Theorem qua_fifo_order (q0 : QueueArray_s) (calls : list call) :
  constructed q0 →
  growths_fit (capacity q0) (Z.of_nat (length calls)) [growth_rate q0] = true →
  ∃ q outs, run q0 calls = Some (q, outs)
      ∧ fifo [] outs = Some (to_sequence q)
      ∧ dequeues outs ≤ enqueues outs
      ∧ qua_size q = enqueues outs - dequeues outs.
Proof.
  intros (Hwf & Hs & Hl & _)%constructed_well_formed Hfit.
  destruct (run_fifo calls q0 Hwf Hl)
    as (q & outs & Hrun & Hwf' & _ & Hfifo & Hsize & _ & _).
  { intros c Hc. eapply growths_fit_spec; [done | lia |].
    apply elem_of_cons. by left. }
  exists q, outs. rewrite to_sequence_empty in Hfifo by done.
  split_and!; try done.
  - destruct Hwf'. lia.
  - unfold qua_size. lia.
Qed.

Lemma qua_fifo_order_witness :
  ∃ q outs,
    run (mkQueueArray [NULL; NULL] 0 0 0 2 101 false sample_interface 0)
        [Enqueue 11 AllocFails; Enqueue 12 AllocFails; Dequeue;
         Enqueue 13 AllocFails; Enqueue 14 (AllocOk (λ _, 77)); Dequeue;
         Dequeue; Enqueue 15 AllocFails] = Some (q, outs)
    ∧ fifo [] outs = Some (to_sequence q)
    ∧ dequeues outs ≤ enqueues outs
    ∧ qua_size q = enqueues outs - dequeues outs.
Proof.
  apply qua_fifo_order.
  - left. exists 2, 101, sample_interface, true, (AllocOk (λ _, 5)).
    reflexivity.
  - vm_compute. reflexivity.
Defined.

(** C2 as stated fails.  [qua_create (128, 1801439850948198529)] is accepted;
    the first growth computes a capacity of [2^61 + 512] cells, whose byte
    count wraps to 4096: [realloc] hands back 512 cells.  The first 512
    enqueues succeed, the next one stores at [buffer[512]], outside the
    block: no order of delivery is defined from there on. *)
Lemma qua_fifo_order_overflow :
  let batch n := (λ e, Enqueue e (AllocOk (λ _, 7))) <$> seqZ 1 n in
  ∃ q0 q,
    qua_create 128 1801439850948198529 sample_interface true (AllocOk (λ _, 7))
    = Some (Some q0)
    ∧ run q0 (batch 512) = Some (q, Enqueued <$> seqZ 1 512)
    ∧ capacity q = 2 ^ 61 + 512
    ∧ length (buffer q) = 512%nat
    ∧ run q0 (batch 513) = None.
Proof.
  eexists _, _.
  split; [vm_compute; reflexivity|].
  split; [vm_compute; reflexivity|].
  repeat split; vm_compute; reflexivity.
Qed.


(** *** Growth: layout, rollback, lock *)




(** C6, as amended.  When the reallocation of at least one byte fails,
    [qua_grow] on an unlocked queue (full or not) reports failure and hands
    back the very same queue: the capacity is rolled back and nothing else
    was touched. *)
Theorem qua_grow_rollback (q : QueueArray_s) (N : Z) :
  size q = capacity q → locked q = false →
  grown_capacity (capacity q) (growth_rate q) = Some N → byte_count N ≠ 0 →
  qua_grow q AllocFails = Some (false, q).
Proof. intros _ Hl HN Hbytes. by apply (qua_grow_fails q N). Qed.

Lemma qua_grow_rollback_witness :
  qua_grow (mkQueueArray [13; 14; 15; 11; 12] 3 3 5 5 101 false
              sample_interface 9) AllocFails
  = Some (false, mkQueueArray [13; 14; 15; 11; 12] 3 3 5 5 101 false
                   sample_interface 9).
Proof.
  apply (qua_grow_rollback
           (mkQueueArray [13; 14; 15; 11; 12] 3 3 5 5 101 false
              sample_interface 9) 9).
  - reflexivity.
  - reflexivity.
  - vm_compute. reflexivity.
  - vm_compute. discriminate.
Defined.

(** C6 as stated fails.  [qua_create (128, 1801439850948198400)] and 128
    enqueues give a well-formed, full queue.  Its new capacity is [2^61]
    and the byte count of the request wraps to 0: [realloc (buffer, 0)]
    frees the block and returns a null pointer, whether or not memory is
    available.  [qua_grow] rolls the capacity back and returns false, but
    the buffer the queue points to is gone, and the next dequeue reads from
    it. *)
Lemma qua_grow_rollback_frees :
  let q := mkQueueArray (seqZ 1 128) 0 0 128 128 1801439850948198400 false
             sample_interface 128 in
  ∃ q0 q',
    qua_create 128 1801439850948198400 sample_interface true (AllocOk (λ _, 7))
    = Some (Some q0)
    ∧ run q0 ((λ e, Enqueue e AllocFails) <$> seqZ 1 128)
      = Some (q, Enqueued <$> seqZ 1 128)
    ∧ well_formed q
    ∧ grown_capacity 128 1801439850948198400 = Some (2 ^ 61)
    ∧ byte_count (2 ^ 61) = 0
    ∧ qua_grow q AllocFails = Some (false, q')
    ∧ qua_grow q (AllocOk (λ _, 7)) = Some (false, q')
    ∧ q' = set_buffer [] q
    ∧ q' ≠ q
    ∧ qua_dequeue q' = None.
Proof.
  eexists _, _.
  split; [vm_compute; reflexivity|].
  split; [vm_compute; reflexivity|].
  split; [constructor; simpl; first [lia | reflexivity]|].
  split; [vm_compute; reflexivity|].
  split; [vm_compute; reflexivity|].
  split; [vm_compute; reflexivity|].
  split_and!; try (vm_compute; reflexivity).
  intros Heq. apply (f_equal buffer) in Heq. vm_compute in Heq. discriminate.
Qed.

(** C7. A full queue whose capacity is locked rejects an enqueue: the call
    returns false and the queue (size, capacity, front, rear, buffer and
    all) is unchanged, whatever the allocator would have answered. *)
Theorem qua_enqueue_full_locked (q : QueueArray_s) (element : ptr)
    (realloc : alloc_result) :
  size q = capacity q → locked q = true →
  qua_enqueue q element realloc = Some (false, q).
Proof. intros Hfull Hl. apply qua_enqueue_rejected; auto. Qed.

Lemma qua_enqueue_full_locked_witness :
  qua_enqueue (mkQueueArray [13; 11; 12] 1 1 3 3 200 true sample_interface 4)
    99 (AllocOk (λ _, 77))
  = Some (false, mkQueueArray [13; 11; 12] 1 1 3 3 200 true sample_interface 4).
Proof. apply qua_enqueue_full_locked; reflexivity. Defined.

(** *** The capacity after growth *)

Lemma forallb_seqZ_seqZ (f : Z → Z → bool) (n' : Z → Z) (m n m' c r : Z) :
  forallb (λ c, forallb (f c) (seqZ m' (n' c))) (seqZ m n) = true →
  m ≤ c < m + n → m' ≤ r < m' + n' c → f c r = true.
Proof.
  intros Hall Hc Hr. rewrite forallb_forall in Hall.
  assert (c ∈ seqZ m n) as Hcin by (apply elem_of_seqZ; lia).
  apply list_elem_of_In in Hcin. specialize (Hall c Hcin).
  rewrite forallb_forall in Hall. apply Hall.
  apply list_elem_of_In, elem_of_seqZ. lia.
Qed.

(** The increase [c * (r - 100) / 100] is below 4 only if
    [c * (r - 100) < 400]: these are the pairs to check. *)
Lemma minimum_growth_checked :
  forallb (λ c, forallb (minimum_growth_ok c) (seqZ 101 (400 / c + 1)))
    (seqZ 1 399) = true.
Proof. vm_compute. reflexivity. Qed.

Lemma grown_capacity_small (c r : Z) :
  0 < c → 100 < r → c * r / 100 - c < 4 → grown_capacity c r = Some (c + 4).
Proof.
  intros Hc Hr Hsmall.
  assert (c * (r - 100) < 400) as Hprod.
  { destruct (decide (c * r < 100 * (c + 4))) as [|Hge]; [lia|].
    pose proof (Z.div_le_lower_bound (c * r) 100 (c + 4)). lia. }
  assert (c < 400) as Hc' by nia.
  assert (r - 100 ≤ 400 / c) as Hr'
    by (apply Z.div_le_lower_bound; lia).
  pose proof (forallb_seqZ_seqZ minimum_growth_ok (λ c, 400 / c + 1)
                1 399 101 c r minimum_growth_checked) as Hok.
  unfold minimum_growth_ok in Hok.
  rewrite bool_decide_eq_true_2 in Hok by done.
  apply bool_decide_eq_true in Hok; [done | lia | lia].
Qed.

Lemma integer_of_double_range (x : spec_float) (z : Z) :
  integer_of_double x = Some z → - 2 ^ 63 ≤ z < 2 ^ 63.
Proof.
  unfold integer_of_double. destruct x as [| | |s m e]; try done.
  - intros [= <-]. lia.
  - by intros [-> ?]%integer_range.
Qed.

(** What [qua_grow] does to the capacity, in terms of the quotient. *)
Lemma grown_capacity_cases (c r : Z) :
  0 < c → 100 < r →
  (c * r / 100 - c < 4 → grown_capacity c r = Some (c + 4))
  ∧ ∀ N, grown_capacity c r = Some N →
         ∃ scaled, scaled_capacity c r = Some scaled
                 ∧ - 2 ^ 63 ≤ scaled < 2 ^ 63
                 ∧ N = Z.max (c + 4) scaled
                 ∧ - 2 ^ 63 ≤ N < 2 ^ 63.
Proof.
  intros Hc Hr. split; [by apply grown_capacity_small|].
  unfold grown_capacity. intros N HN.
  destruct (scaled_capacity c r) as [scaled|] eqn:Hscaled; simplify_eq/=.
  apply integer_of_double_range in Hscaled.
  destruct (integer (scaled - c)) as [increase|] eqn:Hinc; simplify_eq/=.
  apply integer_range in Hinc as [-> ?].
  exists scaled. split; [done|]. split; [done|].
  case_bool_decide.
  - apply integer_range in HN as [-> ?]. lia.
  - simplify_eq. lia.
Qed.

(** C5, as amended.  For a full queue with capacity [C > 0] and growth rate
    [R > 100], [qua_grow] succeeds if the growth fits and memory is
    granted.  Whenever it succeeds, the binary64 product
    [(double) C * ((double) R / 100.0)] has a truncation [S] that is an
    [integer_t] and the new capacity is the larger of [C + 4] and [S]; it
    is [C + 4] whenever [floor(C*R/100) - C < 4].  With [C = 4] and
    [R = 101] the new capacity is 8. *)
Theorem qua_grow_capacity (q q' : QueueArray_s) (fresh : nat → ptr) :
  well_formed q → size q = capacity q → 100 < growth_rate q →
  qua_grow q (AllocOk fresh) = Some (true, q') →
  (capacity q * growth_rate q / 100 - capacity q < 4 →
     capacity q' = capacity q + 4)
  ∧ (∃ scaled,
       scaled_capacity (capacity q) (growth_rate q) = Some scaled
       ∧ - 2 ^ 63 ≤ scaled < 2 ^ 63
       ∧ capacity q' = Z.max (capacity q + 4) scaled
       ∧ - 2 ^ 63 ≤ capacity q' < 2 ^ 63)
  ∧ (capacity q = 4 → growth_rate q = 101 → capacity q' = 8)
  ∧ (∀ fresh', growth_fits q = true →
       ∃ q'', qua_grow q (AllocOk fresh') = Some (true, q'')
            ∧ capacity q'' = capacity q').
Proof.
  intros Hwf Hfull Hrate Hgrow.
  destruct (qua_grow_frame _ _ _ _ Hgrow) as (_ & _ & _ & _ & _ & _ & Hok).
  destruct Hok as [Hl Hcap]; [done|].
  destruct (grown_capacity_cases (capacity q) (growth_rate q))
    as [Hsmall Hmax]; [by destruct Hwf | done |].
  split_and!.
  - intros Hq. rewrite Hsmall in Hcap by done. by simplify_eq.
  - by apply Hmax.
  - intros Hc Hr. rewrite Hsmall in Hcap by (by rewrite Hc, Hr).
    simplify_eq. lia.
  - intros fresh' Hfits.
    destruct (qua_grow_full q fresh' Hwf Hfull Hl Hfits)
      as (q1 & Hgrow1 & _ & _ & _ & Hcap1 & _).
    exists q1. split; [done | congruence].
Qed.

Lemma qua_grow_capacity_witness :
  (4 * 101 / 100 - 4 < 4 → 8 = 4 + 4)
  ∧ (∃ scaled,
       scaled_capacity 4 101 = Some scaled
       ∧ - 2 ^ 63 ≤ scaled < 2 ^ 63
       ∧ 8 = Z.max (4 + 4) scaled
       ∧ - 2 ^ 63 ≤ 8 < 2 ^ 63)
  ∧ (4 = 4 → 101 = 101 → 8 = 8)
  ∧ (∀ fresh',
       growth_fits (mkQueueArray [13; 14; 11; 12] 2 2 4 4 101 false
                      sample_interface 0) = true →
       ∃ q'', qua_grow (mkQueueArray [13; 14; 11; 12] 2 2 4 4 101 false
                          sample_interface 0) (AllocOk fresh')
              = Some (true, q'')
            ∧ capacity q'' = 8).
Proof.
  apply (qua_grow_capacity
           (mkQueueArray [13; 14; 11; 12] 2 2 4 4 101 false sample_interface 0)
           (mkQueueArray [13; 14; 11; 12; 13; 14; 77; 77] 2 6 4 8 101 false
              sample_interface 0)
           (λ _, 77)).
  - constructor; simpl; first [lia | reflexivity].
  - reflexivity.
  - simpl. lia.
  - vm_compute. reflexivity.
Defined.

(** C5 as stated fails: with capacity 50 and growth rate 114 the exact
    quotient is 57 (7 above the capacity), but 1.14 is not a binary64 number
    and the truncated product is 56. *)
Lemma qua_grow_capacity_not_floor :
  ∃ q', qua_grow (mkQueueArray (replicate 50 7) 0 0 50 50 114 false
                    sample_interface 0) (AllocOk (λ _, 77)) = Some (true, q')
      ∧ ¬ (50 * 114 / 100 - 50 < 4)
      ∧ 50 * 114 / 100 = 57
      ∧ capacity q' = 56
      ∧ capacity q' ≠ 50 * 114 / 100.
Proof.
  eexists. split; [vm_compute; reflexivity|].
  vm_compute. intuition congruence.
Qed.


(** *** Erasing *)

Lemma slot_position (q : QueueArray_s) (j : Z) :
  0 ≤ front q < capacity q → 0 ≤ j < capacity q →
  slot q j = default NULL (load (buffer q) (position q j)).
Proof. apply slot_wrap. Qed.

(** The loop of [qua_erase] frees the logical sequence in order, stores
    [NULL] into every occupied cell and leaves the other cells alone. *)
Lemma erase_loop_spec (q : QueueArray_s) :
  well_formed q →
  ∃ b, erase_loop q = Some (b, to_sequence q)
     ∧ length b = length (buffer q)
     ∧ (∀ k, 0 ≤ k < size q → load b (position q k) = Some NULL)
     ∧ (∀ p, (∀ k, 0 ≤ k < size q → p ≠ position q k) →
             load b p = load (buffer q) p).
Proof.
  intros [Hcap Hbuf Hfront Hsize Hrear]. unfold erase_loop.
  loop_invariant
    (λ '(i, j, b, freed), 0 ≤ j ≤ size q ∧ i = position q j
       ∧ length b = length (buffer q)
       ∧ freed = slot q <$> seqZ 0 j
       ∧ (∀ k, 0 ≤ k < j → load b (position q k) = Some NULL)
       ∧ (∀ p, (∀ k, 0 ≤ k < j → p ≠ position q k) →
               load b p = load (buffer q) p))
    (λ '((_, j, _, _) : Z * Z * list ptr * list ptr), Z.to_nat (size q - j))
    ipattern:(([[[i j] b] freed] & -> & (Hj & Hi & Hb & Hfreed & Hnull & Hrest)
               & Hexit)).
  - split_and!; [lia | lia | | done | done | intros; lia | done].
    unfold position. rewrite decide_True by lia. lia.
  - lia.
  - intros [[[i j] b] freed] (Hj & -> & Hb & -> & Hnull & Hrest) Hc.
    apply bool_decide_eq_true in Hc.
    assert (0 ≤ position q j < capacity q) as Hpos
      by (unfold position; case_decide; lia).
    assert (load b (position q j) = Some (slot q j)) as Hv.
    { rewrite Hrest.
      - rewrite slot_position by lia.
        destruct (load_in_range (buffer q) (position q j)) as [v ->]; [lia|].
        done.
      - intros k Hk. unfold position. repeat case_decide; lia. }
    rewrite Hv. simpl. rewrite store_in_range by lia. simpl.
    rewrite c_rem_wrap by lia. simpl.
    eexists. split; [done|]. split; [|lia].
    split_and!; [lia | lia | | by rewrite length_insert | | |].
    + unfold position. repeat case_decide; lia.
    + replace (j + 1) with (0 + j + 1) at 1 by lia.
      rewrite seqZ_app by lia. rewrite fmap_app. simpl. f_equal.
    + intros k Hk.
      erewrite load_store by (apply store_in_range; lia).
      case_decide; [done|]. apply Hnull.
      destruct (decide (k = j)) as [->|]; [done | lia].
    + intros p Hp.
      erewrite load_store by (apply store_in_range; lia).
      rewrite decide_False by (apply Hp; lia).
      apply Hrest. intros k Hk. apply Hp. lia.
  - apply bool_decide_eq_false in Hexit. simpl.
    assert (j = size q) as -> by lia.
    exists b. split_and!; try done. by rewrite Hfreed.
Qed.

(** Dequeuing [n] times from a queue that holds at least [n] elements
    succeeds every time and delivers the first [n] logical elements. *)
Lemma run_dequeues (n : nat) (q : QueueArray_s) :
  well_formed q → Z.of_nat n ≤ size q →
  ∃ q', run q (replicate n Dequeue)
        = Some (q', Dequeued <$> take n (to_sequence q)).
Proof.
  revert q. induction n as [|n IH]; intros q Hwf Hn; simpl.
  - by exists q.
  - destruct (qua_dequeue_spec q Hwf) as (v & q1 & -> & Hwf1 & Hseq & Hs1 & _);
      [lia|].
    simpl. destruct (IH q1 Hwf1) as (q' & ->); [lia|].
    simpl. exists q'. by rewrite Hseq.
Qed.

(** C9. [qua_erase] hands every element of the logical sequence to the
    interface's [free], in order, and leaves [NULL] in each occupied slot;
    front, rear, size, capacity, growth rate, lock, interface and version
    are untouched.  So the queue reports the same size as before, and as
    many dequeues as there were elements succeed, each returning [NULL]. *)
Theorem qua_erase_frame (q : QueueArray_s) :
  well_formed q →
  ∃ q', qua_erase q = Some (true, q', to_sequence q)
      ∧ to_sequence q' = replicate (Z.to_nat (size q)) NULL
      ∧ (front q' = front q ∧ rear q' = rear q ∧ size q' = size q
         ∧ capacity q' = capacity q ∧ growth_rate q' = growth_rate q
         ∧ locked q' = locked q ∧ interface q' = interface q
         ∧ version_id q' = version_id q)
      ∧ qua_size q' = qua_size q
      ∧ qua_empty q' = qua_empty q
      ∧ ∃ q'', run q' (replicate (Z.to_nat (size q)) Dequeue)
               = Some (q'', replicate (Z.to_nat (size q)) (Dequeued NULL)).
Proof.
  intros Hwf. unfold qua_erase.
  destruct (erase_loop_spec q Hwf) as (b & -> & Hlen & Hnull & _). simpl.
  eexists. split; [done|].
  assert (well_formed (set_buffer b q)) as Hwf'.
  { destruct Hwf. constructor; simpl; try done. by rewrite Hlen. }
  assert (to_sequence (set_buffer b q) = replicate (Z.to_nat (size q)) NULL)
    as Hseq.
  { unfold to_sequence. simpl.
    rewrite <- (length_seqZ 0 (size q)). rewrite <- (const_fmap (λ _, NULL)) by done.
    apply list_fmap_ext. intros i j Hj. apply lookup_seqZ in Hj.
    destruct Hwf.
    rewrite slot_position by (simpl; lia). simpl.
    change (position (set_buffer b q) j) with (position q j).
    by rewrite Hnull by lia. }
  split_and!; try done.
  destruct (run_dequeues (Z.to_nat (size q)) (set_buffer b q) Hwf')
    as (q'' & Hrun).
  { simpl. destruct Hwf. lia. }
  exists q''. rewrite Hrun, Hseq. f_equal. f_equal.
  rewrite take_replicate, Nat.min_id. apply fmap_replicate.
Qed.

Lemma qua_erase_frame_witness :
  ∃ q', qua_erase (mkQueueArray [13; 0; 11; 12] 2 1 3 4 200 false
                     sample_interface 5) = Some (true, q', [11; 12; 13])
      ∧ to_sequence q' = [NULL; NULL; NULL]
      ∧ (front q' = 2 ∧ rear q' = 1 ∧ size q' = 3 ∧ capacity q' = 4
         ∧ growth_rate q' = 200 ∧ locked q' = false
         ∧ interface q' = sample_interface ∧ version_id q' = 5)
      ∧ qua_size q' = 3
      ∧ qua_empty q' = false
      ∧ ∃ q'', run q' [Dequeue; Dequeue; Dequeue]
               = Some (q'', [Dequeued NULL; Dequeued NULL; Dequeued NULL]).
Proof.
  apply (qua_erase_frame
           (mkQueueArray [13; 0; 11; 12] 2 1 3 4 200 false sample_interface 5)).
  constructor; simpl; first [lia | reflexivity].
Defined.

(** *** The version counter *)

(** [qua_grow] never touches the version counter. *)
Lemma qua_grow_version (q q' : QueueArray_s) (realloc : alloc_result) (ok : bool) :
  qua_grow q realloc = Some (ok, q') → version_id q' = version_id q.
Proof. by intros (_ & _ & _ & _ & ? & _)%qua_grow_frame. Qed.

Lemma qua_enqueue_version (q q' : QueueArray_s) (element : ptr)
    (realloc : alloc_result) (ok : bool) :
  qua_enqueue q element realloc = Some (ok, q') →
  version_id q' = version_id q + (if ok then 1 else 0).
Proof.
  rewrite qua_enqueue_unfold. intros H.
  assert (∃ grown q1, (if qua_full q then qua_grow q realloc
                       else Some (true, q)) = Some (grown, q1)
                      ∧ version_id q1 = version_id q) as (grown & q1 & Hg & Hv).
  { destruct (qua_full q).
    - destruct (qua_grow q realloc) as [[grown q1]|] eqn:Hgrow; [|done].
      exists grown, q1. split; [done|]. by eapply qua_grow_version.
    - by exists true, q. }
  rewrite Hg in H. simpl in H. destruct grown; simpl in H.
  - unfold enqueue_at_rear in H.
    destruct (store _ _ _); simplify_eq/=. lia.
  - simplify_eq. lia.
Qed.

Lemma qua_dequeue_version (q q' : QueueArray_s) (result : ptr) (ok : bool) :
  qua_dequeue q = Some (ok, result, q') →
  version_id q' = version_id q + (if ok then 1 else 0).
Proof.
  unfold qua_dequeue. intros H.
  destruct (qua_empty q); simplify_option_eq; lia.
Qed.

Lemma qua_erase_version (q q' : QueueArray_s) (ok : bool) (freed : list ptr) :
  qua_erase q = Some (ok, q', freed) → version_id q' = version_id q.
Proof.
  unfold qua_erase. intros H.
  destruct (erase_loop q) as [[b fr]|]; simplify_eq/=. done.
Qed.

Lemma qua_set_growth_version (q : QueueArray_s) (growth_rate : integer_t) :
  version_id (snd (qua_set_growth q growth_rate)) = version_id q.
Proof. unfold qua_set_growth. by case_bool_decide. Qed.

Lemma mutate_version (q q' : QueueArray_s) (m : mutation) :
  mutate q m = Some q' → version_id q ≤ version_id q'.
Proof.
  destruct m as [element realloc| |growth_rate| | | |new_interface]; simpl.
  - destruct (qua_enqueue q element realloc) as [[ok q1]|] eqn:H; [|done].
    intros [= <-]. apply qua_enqueue_version in H. simpl. destruct ok; lia.
  - destruct (qua_dequeue q) as [[[ok v] q1]|] eqn:H; [|done].
    intros [= <-]. apply qua_dequeue_version in H. simpl. destruct ok; lia.
  - intros [= <-]. by rewrite qua_set_growth_version.
  - destruct (qua_erase q) as [[[ok q1] freed]|] eqn:H; [|done].
    intros [= <-]. apply qua_erase_version in H. simpl. lia.
  - by intros [= <-].
  - by intros [= <-].
  - by intros [= <-].
Qed.

(** C8, as amended.  A successful [qua_enqueue] and a successful
    [qua_dequeue] each add exactly one to [version_id]; [qua_set_growth] and
    [qua_erase] leave it as it is; over any sequence of operations on the
    queue [version_id] never decreases. *)
Theorem version_id_monotone :
  (∀ q element realloc q',
     qua_enqueue q element realloc = Some (true, q') →
     version_id q' = version_id q + 1)
  ∧ (∀ q result q',
     qua_dequeue q = Some (true, result, q') →
     version_id q' = version_id q + 1)
  ∧ (∀ q growth_rate,
     version_id (snd (qua_set_growth q growth_rate)) = version_id q)
  ∧ (∀ q ok q' freed,
     qua_erase q = Some (ok, q', freed) → version_id q' = version_id q)
  ∧ (∀ ms q q',
     mutate_all q ms = Some q' → version_id q ≤ version_id q').
Proof.
  split_and!.
  - intros q element realloc q' H. by apply qua_enqueue_version in H.
  - intros q result q' H. by apply qua_dequeue_version in H.
  - apply qua_set_growth_version.
  - intros q ok q' freed. apply qua_erase_version.
  - induction ms as [|m ms IH]; intros q q'; simpl.
    + intros [= <-]. lia.
    + destruct (mutate q m) as [q1|] eqn:Hm; [|done]. simpl.
      intros Hrest. apply mutate_version in Hm. apply IH in Hrest. lia.
Qed.

Lemma version_id_monotone_witness :
  version_id (mkQueueArray [11; 12; 0] 0 2 2 3 200 false sample_interface 8)
  = 7 + 1
  ∧ 7 ≤ 9.
Proof.
  destruct version_id_monotone as (Henq & _ & _ & _ & Hall). split.
  - apply (Henq (mkQueueArray [11; 0; 0] 0 1 1 3 200 false sample_interface 7)
             12 AllocFails). reflexivity.
  - apply (Hall [DoEnqueue 12 AllocFails; DoSetGrowth 150; DoErase; DoDequeue]
             (mkQueueArray [11; 0; 0] 0 1 1 3 200 false sample_interface 7)
             (mkQueueArray [0; 0; 0] 1 2 1 3 150 false sample_interface 9)).
    reflexivity.
Defined.

(** C8 as stated fails: a successful [qua_set_growth] and a [qua_erase]
    that frees two elements both leave [version_id] at 7. *)
Lemma version_id_not_bumped :
  qua_set_growth (mkQueueArray [11; 12; 0] 0 2 2 3 200 false sample_interface 7)
    150
  = (true, mkQueueArray [11; 12; 0] 0 2 2 3 150 false sample_interface 7)
  ∧ qua_erase (mkQueueArray [11; 12; 0] 0 2 2 3 200 false sample_interface 7)
    = Some (true, mkQueueArray [0; 0; 0] 0 2 2 3 200 false sample_interface 7,
            [11; 12])
  ∧ ¬ (7 < version_id
             (mkQueueArray [11; 12; 0] 0 2 2 3 150 false sample_interface 7))
  ∧ ¬ (7 < version_id
             (mkQueueArray [0; 0; 0] 0 2 2 3 200 false sample_interface 7)).
Proof. split_and!; [reflexivity | reflexivity | simpl; lia | simpl; lia]. Qed.

(** *** Copying and linearizing *)

(** C3 fails on the code.  A queue built by [qua_create (4, 200)] and two
    enqueues holds [11; 12]; its copy has the same capacity, growth rate,
    front, rear, size and lock, but the loop of [qua_copy] stops at
    [size - 1]: the newest element is not copied and its slot stays [NULL]. *)
Theorem qua_copy_misses_newest :
  let q0 := mkQueueArray [NULL; NULL; NULL; NULL] 0 0 0 4 200 false
              sample_interface 0 in
  let q := mkQueueArray [11; 12; NULL; NULL] 0 2 2 4 200 false
             sample_interface 2 in
  let copied := mkQueueArray [1011; NULL; NULL; NULL] 0 2 2 4 200 false
                  sample_interface 0 in
  qua_create 4 200 sample_interface true (AllocOk (λ _, 77)) = Some (Some q0)
  ∧ run q0 [Enqueue 11 AllocFails; Enqueue 12 AllocFails]
    = Some (q, [Enqueued 11; Enqueued 12])
  ∧ to_sequence q = [11; 12]
  ∧ qua_copy q true (AllocOk (λ _, 77)) = Some (Some copied)
  ∧ to_sequence copied = [1011; NULL]
  ∧ interface_copy sample_interface <$> to_sequence q = [1011; 1012].
Proof. repeat split; vm_compute; reflexivity. Qed.

(** C4 fails on the code.  [qua_to_array] stores the copy of [buffer[i]] at
    [array[i]], the buffer index, not at the logical position [j].  On a
    full queue whose front is at index 1 the array comes out in buffer
    order, [13; 12] copied, where the logical sequence is [12; 13]; on a
    queue that is not full and whose front is not at index 0 the store
    leaves the [size] cells of the array.  Empty queues do return [NULL]. *)
Theorem qua_to_array_buffer_order :
  let q0 := mkQueueArray [NULL; NULL] 0 0 0 2 200 false sample_interface 0 in
  let q := mkQueueArray [13; 12] 1 1 2 2 200 false sample_interface 4 in
  let partly := mkQueueArray [NULL; 12; 13; NULL] 1 3 2 4 200 false
                  sample_interface 3 in
  qua_create 2 200 sample_interface true (AllocOk (λ _, 77)) = Some (Some q0)
  ∧ run q0 [Enqueue 11 AllocFails; Enqueue 12 AllocFails; Dequeue;
            Enqueue 13 AllocFails]
    = Some (q, [Enqueued 11; Enqueued 12; Dequeued 11; Enqueued 13])
  ∧ to_sequence q = [12; 13]
  ∧ qua_to_array q (AllocOk (λ _, 77)) = Some (Some ([1013; 1012], 2))
  ∧ interface_copy sample_interface <$> to_sequence q = [1012; 1013]
  ∧ qua_to_array partly (AllocOk (λ _, 77)) = None
  ∧ qua_to_array q0 (AllocOk (λ _, 77)) = Some None.
Proof. repeat split; vm_compute; reflexivity. Qed.

(** *** Reachable states *)

(** [well_formed] is the invariant of the reachable states: constructors
    establish it ([constructed_well_formed]) and every operation on a
    well-formed queue is defined and preserves it, a growth included if it
    fits. *)
Lemma mutate_well_formed (q : QueueArray_s) (m : mutation) :
  well_formed q →
  (size q = capacity q → locked q = false → growth_fits q = true) →
  ∃ q', mutate q m = Some q' ∧ well_formed q'.
Proof.
  intros Hwf Hfits.
  destruct m as [element realloc| |growth_rate| | | |new_interface]; simpl.
  - assert ((size q < capacity q
             ∨ locked q = false ∧ realloc ≠ AllocFails ∧ growth_fits q = true)
            ∨ (size q = capacity q
               ∧ (locked q = true
                  ∨ realloc = AllocFails ∧ 0 < capacity q
                    ∧ growth_fits q = true)))
      as [Hcan|[Hfull Hno]].
    { destruct (decide (size q < capacity q)); [by left; left|].
      assert (size q = capacity q) by (destruct Hwf; lia).
      destruct (locked q) eqn:Hl; [by right; split; [|left]|].
      destruct realloc.
      - right. split; [done|]. right. split_and!; [done | by destruct Hwf | auto].
      - left; right. auto. }
    + destruct (qua_enqueue_spec q element realloc Hwf Hcan)
        as (q' & -> & Hwf' & _).
      by exists q'.
    + rewrite qua_enqueue_rejected by done. by exists q.
  - destruct (decide (0 < size q)) as [Hne|Hempty].
    + destruct (qua_dequeue_spec q Hwf Hne) as (v & q' & -> & Hwf' & _).
      by exists q'.
    + rewrite qua_dequeue_empty by (destruct Hwf; lia). by exists q.
  - eexists. split; [done|]. unfold qua_set_growth.
    case_bool_decide; [done|]. by destruct Hwf.
  - unfold qua_erase.
    destruct (erase_loop_spec q Hwf) as (b & -> & Hlen & _). simpl.
    eexists. split; [done|].
    destruct Hwf. constructor; simpl; try done. by rewrite Hlen.
  - eexists. split; [done|]. by destruct Hwf.
  - eexists. split; [done|]. by destruct Hwf.
  - eexists. split; [done|]. by destruct Hwf.
Qed.

(** The growth condition on a queue from [qua_new]: doubling from capacity
    32 fits for every capacity that 4096 calls can fill. *)
Example qua_new_growths_fit : growths_fit 32 4096 [200] = true.
Proof. vm_compute. reflexivity. Qed.

(** The scenario of the design document: capacity 4, growth rate 101, five
    enqueues and no dequeue in between.  The fifth enqueue grows the buffer
    once, to capacity 8, and the five elements come back in insertion
    order. *)
Example minimum_growth_scenario :
  match run (mkQueueArray [NULL; NULL; NULL; NULL] 0 0 0 4 101 false
               sample_interface 0)
          (map (λ e, Enqueue e (AllocOk (λ _, 77))) [1; 2; 3; 4; 5]
           ++ [Dequeue; Dequeue; Dequeue; Dequeue; Dequeue]) with
  | Some (q, outs) =>
      outs = map Enqueued [1; 2; 3; 4; 5] ++ map Dequeued [1; 2; 3; 4; 5]
      ∧ capacity q = 8 ∧ size q = 0
  | None => False
  end.
Proof. vm_compute. repeat split; reflexivity. Qed.

End QueueArrayFacts.

(** ** RedBlackTree: the invariants are preserved *)

Module RedBlackTreeFacts.
Import Core RedBlackTree.
Import QueueArray (sample_interface).

Lemma is_black_root_color (t : node) : is_black t = true ↔ root_color t = Black.
Proof. unfold is_black, root_color. by destruct (is_red t). Qed.

(** The boolean invariants and the relational ones agree. *)
Lemma rb_sound (t : node) (n : nat) :
  rb t n → no_red_red t = true ∧ black_height t = Some n.
Proof.
  induction 1 as [|l k r n _ [IHl1 IHl2] _ [IHr1 IHr2] Hl Hr
                  |l k r n _ [IHl1 IHl2] _ [IHr1 IHr2]]; simpl.
  - done.
  - rewrite Hl, Hr, IHl1, IHr1, IHl2, IHr2. simpl. by rewrite decide_True.
  - rewrite IHl1, IHr1, IHl2, IHr2. simpl. by rewrite decide_True.
Qed.

Lemma rb_complete (t : node) (n : nat) :
  no_red_red t = true → black_height t = Some n → rb t n.
Proof.
  revert n. induction t as [|c l IHl k r IHr]; intros n; simpl.
  - intros _ [= <-]. constructor.
  - intros Hrr Hbh.
    apply andb_true_iff in Hrr as [Hrr Hr]. apply andb_true_iff in Hrr as [Hc Hl].
    destruct (black_height l) as [hl|]; [|done].
    destruct (black_height r) as [hr|]; [|done]. simpl in Hbh.
    destruct (decide (hl = hr)) as [->|]; [|done].
    destruct c; simplify_eq.
    + apply andb_true_iff in Hc as [? ?]. constructor; auto.
    + constructor; auto.
Qed.

Lemma red_black_iff (t : node) :
  red_black t = true ↔ is_black t = true ∧ ∃ n, rb t n.
Proof.
  unfold red_black. rewrite !andb_true_iff, bool_decide_eq_true. split.
  - intros [[Hb Hrr] [n Hn]]. split; [done|]. exists n. by apply rb_complete.
  - intros [Hb [n [Hrr Hn]%rb_sound]]. split_and!; [done | done |].
    by exists n.
Qed.

Lemma blacken_black (t : node) : is_black t = true → blacken t = t.
Proof. by destruct t as [|[] ? ? ?]. Qed.

Lemma is_black_blacken (t : node) : is_black (blacken t) = true.
Proof. by destruct t. Qed.

Lemma path_rb_weaken (path : list frame) (n : nat) :
  path_rb path n Red → path_rb path n Black.
Proof.
  destruct path as [|[[] ? ?|[] ? ?] ?]; simpl; intros H;
    first [done | by destruct H as [? _]].
Qed.

(** Hanging a fitting subtree below a path yields a red-black tree. *)
Lemma plug_rb (path : list frame) (t : node) (n : nat) :
  path_rb path n (root_color t) → rb t n →
  is_black (plug t path) = true ∧ ∃ m, rb (plug t path) m.
Proof.
  revert t n. induction path as [|[[] k r|[] l k] above IH]; intros t n; simpl.
  - intros Hc%is_black_root_color Ht. eauto.
  - intros (Hc%is_black_root_color & Hr & Hrb & Habove) Ht.
    apply (IH _ n); [done|]. by constructor.
  - intros (Hr & Habove) Ht. apply (IH _ (S n)); [done|]. by constructor.
  - intros (Hc%is_black_root_color & Hl & Hlb & Habove) Ht.
    apply (IH _ n); [done|]. by constructor.
  - intros (Hl & Habove) Ht. apply (IH _ (S n)); [done|]. by constructor.
Qed.

Lemma plug_rb_black (path : list frame) (t : node) (n : nat) :
  path_rb path n Black → rb t n → is_black t = true →
  is_black (plug t path) = true ∧ ∃ m, rb (plug t path) m.
Proof.
  intros Hp Ht Hb. apply (plug_rb path t n); [|done].
  apply is_black_root_color in Hb. by rewrite Hb.
Qed.

(** *** Insertion *)

(** The descent of Insert ends at a null position of height 0. *)
Lemma insert_descent_path (compare : ptr → ptr → Z) (new : ptr)
    (cur : node) (path path' : list frame) (n : nat) :
  rb cur n → path_rb path n (root_color cur) →
  insert_descent compare new cur path = Some path' →
  path_rb path' 0 Black.
Proof.
  intros Hcur. revert path.
  induction Hcur as [|l k r n Hl IHl Hr IHr Hlb Hrb|l k r n Hl IHl Hr IHr];
    intros path Hpath; simpl.
  - by intros [= <-].
  - apply is_black_root_color in Hlb as Hlc, Hrb as Hrc.
    destruct (decide (compare new k = 0)); [done|].
    destruct (decide (compare new k < 0)).
    + apply IHl. rewrite Hlc. simpl. auto.
    + apply IHr. rewrite Hrc. simpl. auto.
  - destruct (decide (compare new k = 0)); [done|].
    destruct (decide (compare new k < 0)).
    + apply IHl. simpl. auto.
    + apply IHr. simpl. auto.
Qed.

(** A Black subtree that fits its path closes the fixup. *)
Lemma fixup_finished (path : list frame) (t : node) (n : nat) :
  path_rb path n Black → rb t n → is_black t = true →
  ∃ t' m, Some (plug t path) = Some t' ∧ rb (blacken t') m.
Proof.
  intros Hpath Ht Hb.
  destruct (plug_rb_black path t n Hpath Ht Hb) as [Hb' [m Hm]].
  exists (plug t path), m. split; [done|]. by rewrite blacken_black.
Qed.

(** Solves [rb] goals on explicitly built nodes from the hypotheses. *)
Ltac rb_nodes :=
  repeat first [assumption | reflexivity | apply rb_leaf
               | apply rb_black | apply rb_red].

(** The insert-fixup, started at a Red node with Black children below a
    path that fits a Black subtree of the same height, yields a tree that is
    red-black once its root is Black. *)
Lemma insert_fixup_rb (k : nat) :
  ∀ (path : list frame) (zl zr : node) (zk : ptr) (n : nat),
    (length path ≤ k)%nat →
    rb zl n → rb zr n → is_black zl = true → is_black zr = true →
    path_rb path n Black →
    ∃ t m, insert_fixup (Node Red zl zk zr) path = Some t
         ∧ rb (blacken t) m.
Proof.
  induction k as [|k IH]; intros path zl zr zk n Hlen Hzl Hzr Hzlb Hzrb Hpath.
  { destruct path; [|simpl in Hlen; lia]. simpl.
    eexists _, _. split; [done|]. simpl. by constructor. }
  assert (∀ pc pk pr above,
            path_rb (LeftOf Black pk pr :: above) n pc →
            ∃ t m, Some (plug (Node Red zl zk zr) (LeftOf Black pk pr :: above))
                   = Some t ∧ rb (blacken t) m) as Hleft.
  { intros pc pk pr above Hp.
    destruct (plug_rb (LeftOf Black pk pr :: above) (Node Red zl zk zr) n)
      as [Hb [m Hm]]; [done | by constructor |].
    eexists _, m. split; [done|]. by rewrite blacken_black. }
  assert (∀ pc pl pk above,
            path_rb (RightOf Black pl pk :: above) n pc →
            ∃ t m, Some (plug (Node Red zl zk zr) (RightOf Black pl pk :: above))
                   = Some t ∧ rb (blacken t) m) as Hright.
  { intros pc pl pk above Hp.
    destruct (plug_rb (RightOf Black pl pk :: above) (Node Red zl zk zr) n)
      as [Hb [m Hm]]; [done | by constructor |].
    eexists _, m. split; [done|]. by rewrite blacken_black. }
  destruct path as [|[[] pk pr|[] pl pk] above]; simpl.
  - eexists _, _. split; [done|]. simpl. by constructor.
  - (* Red parent, the cursor is its left child *)
    simpl in Hpath. destruct Hpath as (_ & Hpr & Hprb & Habove).
    destruct above as [|[[] gk uncle|[] uncle gk] rest];
      simpl in Habove; try done; try (by destruct Habove);
      destruct Habove as [Hu Hrest];
      inversion Hu as [|ul uk ur ? Hul Hur Hulb Hurb|ul uk ur n' Hul Hur];
      subst;
      first [ apply (IH rest _ _ _ (S n)); simpl in *;
                [lia | solve [rb_nodes] ..]
            | apply (fixup_finished rest _ 1); solve [rb_nodes]
            | apply (fixup_finished rest _ (S (S n'))); solve [rb_nodes] ].
  - (* Black parent: the loop ends at once *)
    by eapply Hleft.
  - (* Red parent, the cursor is its right child *)
    simpl in Hpath. destruct Hpath as (_ & Hpl & Hplb & Habove).
    destruct above as [|[[] gk uncle|[] uncle gk] rest];
      simpl in Habove; try done; try (by destruct Habove);
      destruct Habove as [Hu Hrest];
      inversion Hu as [|ul uk ur ? Hul Hur Hulb Hurb|ul uk ur n' Hul Hur];
      subst;
      first [ apply (IH rest _ _ _ (S n)); simpl in *;
                [lia | solve [rb_nodes] ..]
            | apply (fixup_finished rest _ 1); solve [rb_nodes]
            | apply (fixup_finished rest _ (S (S n'))); solve [rb_nodes] ].
  - by eapply Hright.
Qed.

(** [rbt_insert] keeps the invariants, whether it adds the element or
    rejects it. *)
Lemma rbt_insert_red_black (tree : RedBlackTree_s) (element : ptr) :
  red_black (root tree) = true →
  ∃ ok tree', rbt_insert tree element = Some (ok, tree')
            ∧ red_black (root tree') = true.
Proof.
  intros Hrb. unfold rbt_insert.
  destruct (root tree) as [|c l k r] eqn:Hroot.
  { eexists _, _. split; [done|]. reflexivity. }
  rewrite <- Hroot in *.
  apply red_black_iff in Hrb as [Hb [n Hn]].
  destruct (insert_descent _ _ _ _) as [path|] eqn:Hpath.
  - eapply insert_descent_path in Hpath;
      [|done|by apply is_black_root_color in Hb; rewrite Hb].
    destruct (insert_fixup_rb (length path) path Leaf Leaf element 0)
      as (t & m & -> & Ht); [done | constructor.. | done | done | done |].
    simpl. eexists _, _. split; [done|]. simpl.
    apply red_black_iff. split; [apply is_black_blacken | by exists m].
  - eexists _, _. split; [done|]. apply red_black_iff. eauto.
Qed.

(** *** Deletion *)

(** The search of Delete ends at a node that fits the path found. *)
Lemma find_path (compare : ptr → ptr → Z) (key : ptr)
    (cur z : node) (path path' : list frame) (n : nat) :
  rb cur n → path_rb path n (root_color cur) →
  find compare key cur path = Some (z, path') →
  ∃ m, rb z m ∧ path_rb path' m (root_color z) ∧ z ≠ Leaf.
Proof.
  intros Hcur. revert path.
  induction Hcur as [|l k r n Hl IHl Hr IHr Hlb Hrb|l k r n Hl IHl Hr IHr];
    intros path Hpath; simpl.
  - done.
  - apply is_black_root_color in Hlb as Hlc, Hrb as Hrc.
    destruct (decide (compare key k = 0)).
    { intros [= <- <-]. exists n. split_and!; [by constructor | done | done]. }
    destruct (decide (compare key k < 0)).
    + apply IHl. rewrite Hlc. simpl. auto.
    + apply IHr. rewrite Hrc. simpl. auto.
  - destruct (decide (compare key k = 0)).
    { intros [= <- <-]. exists (S n). split_and!; [by constructor | done | done]. }
    destruct (decide (compare key k < 0)).
    + apply IHl. simpl. auto.
    + apply IHr. simpl. auto.
Qed.

(** The leftmost node of a non-empty subtree exists, has no left child and
    fits the path to it. *)
Lemma leftmost_path (t : node) (n : nat) (acc : list frame) :
  rb t n → t ≠ Leaf →
  ∃ yc yk yr below m,
    leftmost t acc = Some (Node yc Leaf yk yr, below)
    ∧ rb (Node yc Leaf yk yr) m
    ∧ ∀ base, path_rb (acc ++ base) n (root_color t) →
              path_rb (below ++ base) m yc.
Proof.
  intros Ht. revert acc.
  induction Ht as [|l k r n Hl IHl Hr IHr Hlb Hrb|l k r n Hl IHl Hr IHr];
    intros acc Hne; [done|..]; simpl.
  - destruct l as [|lc ll lk lr].
    + exists Red, k, r, acc, n. split_and!; [done | by constructor | done].
    + destruct (IHl (LeftOf Red k r :: acc))
        as (yc & yk & yr & below & m & Hy & Hrb' & Hbase); [done|].
      exists yc, yk, yr, below, m. split_and!; [done | done |].
      intros base Hpath. apply Hbase. simpl.
      apply is_black_root_color in Hlb. rewrite Hlb. auto.
  - destruct l as [|lc ll lk lr].
    + exists Black, k, r, acc, (S n). split_and!; [done | by constructor | done].
    + destruct (IHl (LeftOf Black k r :: acc))
        as (yc & yk & yr & below & m & Hy & Hrb' & Hbase); [done|].
      exists yc, yk, yr, below, m. split_and!; [done | done |].
      intros base Hpath. apply Hbase. simpl. auto.
Qed.

Lemma plug_red_black (path : list frame) (t : node) (n : nat) :
  path_rb path n (root_color t) → rb t n → red_black (plug t path) = true.
Proof. intros Hp Ht. apply red_black_iff. by apply (plug_rb path t n). Qed.

Lemma red_black_blacken (t : node) :
  red_black t = true → red_black (blacken t) = true.
Proof.
  intros Ht. apply red_black_iff in Ht as Ht'. destruct Ht' as [Hb _].
  by rewrite blacken_black.
Qed.

Lemma rb_black_node_inv (w : node) (n : nat) :
  rb w (S n) → is_black w = true →
  ∃ wl wk wr, w = Node Black wl wk wr ∧ rb wl n ∧ rb wr n.
Proof.
  intros Hw Hb. inversion Hw; subst; [done|]. eauto 10.
Qed.

Lemma rb_red_node_inv (w : node) (n : nat) :
  rb w n → is_black w = false →
  ∃ wl wk wr, w = Node Red wl wk wr ∧ rb wl n ∧ rb wr n
            ∧ is_black wl = true ∧ is_black wr = true.
Proof.
  intros Hw Hb. inversion Hw; subst; try done. eauto 10.
Qed.

(** One round of the delete-fixup with a Black sibling. *)
Lemma sibling_cases_left_rb (x : node) (pc : color) (pk : ptr) (w : node)
    (n : nat) :
  rb x n → is_black x = true → rb w (S n) → is_black w = true →
  ∃ step, sibling_cases_left x pc pk w = Some step
    ∧ match step with
      | Finished t => rb t (height_above pc (S n)) ∧ root_color t = pc
      | MovedUp x' => deficient x' (height_above pc n) ∧ root_color x' = pc
      end.
Proof.
  intros Hx Hxb Hw Hwb.
  destruct (rb_black_node_inv w n Hw Hwb) as (wl & wk & wr & -> & Hwl & Hwr).
  simpl. destruct (is_black wl) eqn:Hwlb, (is_black wr) eqn:Hwrb; simpl.
  - eexists. split; [done|]. split; [|by destruct pc].
    destruct pc; unfold deficient; simpl; rb_nodes.
  - destruct (rb_red_node_inv wr n Hwr Hwrb)
      as (a & k & b & -> & Ha & Hb & Hab & Hbb).
    eexists. split; [done|]. split; [|by destruct pc].
    destruct pc; simpl; rb_nodes.
  - destruct (rb_red_node_inv wl n Hwl Hwlb)
      as (a & k & b & -> & Ha & Hb & Hab & Hbb).
    eexists. split; [done|]. split; [|by destruct pc].
    destruct pc; simpl; rb_nodes.
  - destruct (rb_red_node_inv wr n Hwr Hwrb)
      as (a & k & b & -> & Ha & Hb & Hab & Hbb).
    eexists. split; [done|]. split; [|by destruct pc].
    destruct pc; simpl; rb_nodes.
Qed.

Lemma sibling_cases_right_rb (x : node) (pc : color) (pk : ptr) (w : node)
    (n : nat) :
  rb x n → is_black x = true → rb w (S n) → is_black w = true →
  ∃ step, sibling_cases_right x pc pk w = Some step
    ∧ match step with
      | Finished t => rb t (height_above pc (S n)) ∧ root_color t = pc
      | MovedUp x' => deficient x' (height_above pc n) ∧ root_color x' = pc
      end.
Proof.
  intros Hx Hxb Hw Hwb.
  destruct (rb_black_node_inv w n Hw Hwb) as (wl & wk & wr & -> & Hwl & Hwr).
  simpl. destruct (is_black wl) eqn:Hwlb, (is_black wr) eqn:Hwrb; simpl.
  - eexists. split; [done|]. split; [|by destruct pc].
    destruct pc; unfold deficient; simpl; rb_nodes.
  - destruct (rb_red_node_inv wr n Hwr Hwrb)
      as (a & k & b & -> & Ha & Hb & Hab & Hbb).
    eexists. split; [done|]. split; [|by destruct pc].
    destruct pc; simpl; rb_nodes.
  - destruct (rb_red_node_inv wl n Hwl Hwlb)
      as (a & k & b & -> & Ha & Hb & Hab & Hbb).
    eexists. split; [done|]. split; [|by destruct pc].
    destruct pc; simpl; rb_nodes.
  - destruct (rb_red_node_inv wl n Hwl Hwlb)
      as (a & k & b & -> & Ha & Hb & Hab & Hbb).
    eexists. split; [done|]. split; [|by destruct pc].
    destruct pc; simpl; rb_nodes.
Qed.

(** The delete-fixup, started where a Black node of height [S n] is
    missing, yields a red-black tree. *)
Lemma delete_fixup_rb (path : list frame) (x : node) (n : nat) :
  deficient x n → path_rb path (S n) Black →
  ∃ t, delete_fixup x path = Some t ∧ red_black t = true.
Proof.
  revert x n.
  induction path as [|[pc pk w|pc w pk] above IH]; intros x n Hx Hpath.
  - (* the cursor is the root *)
    simpl. eexists. split; [done|]. apply red_black_iff.
    split; [apply is_black_blacken|].
    unfold deficient in Hx. destruct (is_red x) eqn:Hred; [eauto|].
    rewrite blacken_black by (unfold is_black; by rewrite Hred). eauto.
  - unfold deficient in Hx. destruct (is_red x) eqn:Hred.
    { simpl. rewrite Hred. eexists. split; [done|].
      apply (plug_red_black (LeftOf pc pk w :: above) _ (S n)); [|done].
      by destruct x. }
    assert (is_black x = true) as Hxb by (unfold is_black; by rewrite Hred).
    assert (rb w (S n)) as Hw by (destruct pc; simpl in Hpath; tauto).
    destruct (is_black w) eqn:Hwb.
    + (* Black sibling *)
      destruct (sibling_cases_left_rb x pc pk w n Hx Hxb Hw Hwb)
        as ([t|x'] & Hstep & Hres).
      * destruct Hres as [Ht Htc].
        assert (delete_fixup x (LeftOf pc pk w :: above)
                = Some (blacken (plug t above))) as ->.
        { simpl. rewrite Hred. destruct w as [|[] ? ? ?]; try done;
            by rewrite Hstep. }
        eexists. split; [done|]. apply red_black_blacken.
        apply (plug_red_black above t (height_above pc (S n))); [|done].
        rewrite Htc. destruct pc; simpl in *; tauto.
      * destruct Hres as [Hx' Hx'c].
        assert (delete_fixup x (LeftOf pc pk w :: above)
                = delete_fixup x' above) as ->.
        { simpl. rewrite Hred. destruct w as [|[] ? ? ?]; try done;
            by rewrite Hstep. }
        apply (IH x' (height_above pc n)); [done|].
        destruct pc; simpl in *; [apply path_rb_weaken|]; tauto.
    + (* Red sibling: the parent is Black *)
      destruct (rb_red_node_inv w (S n) Hw Hwb)
        as (wl & wk & wr & -> & Hwl & Hwr & Hwlb & Hwrb).
      destruct pc; simpl in Hpath; [destruct Hpath as (_ & _ & ? & _); done|].
      destruct Hpath as [_ Habove].
      destruct (sibling_cases_left_rb x Red pk wl n Hx Hxb Hwl Hwlb)
        as ([t|x'] & Hstep & Hres); simpl; rewrite Hred, Hstep; simpl.
      * destruct Hres as [Ht Htc]. simpl in Ht.
        eexists. split; [done|]. apply red_black_blacken.
        apply (plug_red_black (LeftOf Black wk wr :: above) t (S n)); done.
      * destruct Hres as [Hx' Hx'c]. simpl in Hx'.
        unfold deficient in Hx'.
        assert (is_red x' = true) as Hx'r
          by (unfold root_color in Hx'c; by destruct (is_red x')).
        rewrite Hx'r in Hx'.
        eexists. split; [done|].
        apply (plug_red_black (LeftOf Black wk wr :: above) _ (S n)); done.
  - unfold deficient in Hx. destruct (is_red x) eqn:Hred.
    { simpl. rewrite Hred. eexists. split; [done|].
      apply (plug_red_black (RightOf pc w pk :: above) _ (S n)); [|done].
      by destruct x. }
    assert (is_black x = true) as Hxb by (unfold is_black; by rewrite Hred).
    assert (rb w (S n)) as Hw by (destruct pc; simpl in Hpath; tauto).
    destruct (is_black w) eqn:Hwb.
    + destruct (sibling_cases_right_rb x pc pk w n Hx Hxb Hw Hwb)
        as ([t|x'] & Hstep & Hres).
      * destruct Hres as [Ht Htc].
        assert (delete_fixup x (RightOf pc w pk :: above)
                = Some (blacken (plug t above))) as ->.
        { simpl. rewrite Hred. destruct w as [|[] ? ? ?]; try done;
            by rewrite Hstep. }
        eexists. split; [done|]. apply red_black_blacken.
        apply (plug_red_black above t (height_above pc (S n))); [|done].
        rewrite Htc. destruct pc; simpl in *; tauto.
      * destruct Hres as [Hx' Hx'c].
        assert (delete_fixup x (RightOf pc w pk :: above)
                = delete_fixup x' above) as ->.
        { simpl. rewrite Hred. destruct w as [|[] ? ? ?]; try done;
            by rewrite Hstep. }
        apply (IH x' (height_above pc n)); [done|].
        destruct pc; simpl in *; [apply path_rb_weaken|]; tauto.
    + destruct (rb_red_node_inv w (S n) Hw Hwb)
        as (wl & wk & wr & -> & Hwl & Hwr & Hwlb & Hwrb).
      destruct pc; simpl in Hpath; [destruct Hpath as (_ & _ & ? & _); done|].
      destruct Hpath as [_ Habove].
      destruct (sibling_cases_right_rb x Red pk wr n Hx Hxb Hwr Hwrb)
        as ([t|x'] & Hstep & Hres); simpl; rewrite Hred, Hstep; simpl.
      * destruct Hres as [Ht Htc]. simpl in Ht.
        eexists. split; [done|]. apply red_black_blacken.
        apply (plug_red_black (RightOf Black wl wk :: above) t (S n)); done.
      * destruct Hres as [Hx' Hx'c]. simpl in Hx'.
        unfold deficient in Hx'.
        assert (is_red x' = true) as Hx'r
          by (unfold root_color in Hx'c; by destruct (is_red x')).
        rewrite Hx'r in Hx'.
        eexists. split; [done|].
        apply (plug_red_black (RightOf Black wl wk :: above) _ (S n)); done.
Qed.

(** Unlinking a node with at most one child keeps the invariants. *)
Lemma splice_rb (c : color) (x : node) (k : ptr) (path : list frame) (m : nat) :
  rb (Node c Leaf k x) m ∨ rb (Node c x k Leaf) m →
  path_rb path m c →
  ∃ t, splice c x path = Some t ∧ red_black t = true.
Proof.
  intros Hnode Hpath.
  assert (rb x 0 ∧ m = match c with Red => O | Black => 1%nat end
          ∧ (c = Red → is_black x = true)) as (Hx & -> & Hxb).
  { destruct Hnode as [H|H]; inversion H as [|? ? ? ? Hl Hr ? ?|? ? ? ? Hl Hr];
      subst; inversion Hl; inversion Hr; subst; try done;
      split_and!; try done; by constructor. }
  destruct c; simpl.
  - eexists. split; [done|].
    apply (plug_red_black path x 0); [|done].
    apply path_rb_weaken in Hpath.
    specialize (Hxb eq_refl). apply is_black_root_color in Hxb.
    by rewrite Hxb.
  - apply (delete_fixup_rb path x 0); [|done].
    unfold deficient. destruct (is_red x) eqn:Hred; [|done].
    destruct x as [|[] a ka b]; try done.
    inversion Hx; subst. simpl. by constructor.
Qed.

(** [rbt_remove] keeps the invariants, whether it removes the key or does
    not find it. *)
Lemma rbt_remove_red_black (tree : RedBlackTree_s) (key : ptr) :
  red_black (root tree) = true →
  ∃ ok tree', rbt_remove tree key = Some (ok, tree')
            ∧ red_black (root tree') = true.
Proof.
  intros Hrb. unfold rbt_remove.
  apply red_black_iff in Hrb as Hrb'. destruct Hrb' as [Hb [n Hn]].
  destruct (find _ _ _ _) as [[z path]|] eqn:Hfind;
    [|by eexists _, _].
  eapply find_path in Hfind as (m & Hz & Hpath & Hne);
    [|done|by apply is_black_root_color in Hb; rewrite Hb].
  destruct z as [|zc zl zk zr]; [done|].
  assert (root_color (Node zc zl zk zr) = zc) as Hzc by by destruct zc.
  rewrite Hzc in Hpath.
  assert (∀ new_root, red_black new_root = true →
            ∃ ok tree',
              Some (true, mkRedBlackTree new_root (size tree - 1)
                            (interface tree)) = Some (ok, tree')
              ∧ red_black (root tree') = true) as Hdone
    by (intros; by eexists _, _).
  destruct zl as [|lc ll lk lr].
  - destruct (splice_rb zc zr zk path m) as (t & -> & Ht); [auto | done |].
    simpl. auto.
  - destruct zr as [|rc rl rk rr].
    + destruct (splice_rb zc (Node lc ll lk lr) zk path m) as (t & -> & Ht);
        [auto | done |].
      simpl. auto.
    + (* two children: the successor is removed instead *)
      set (zl := Node lc ll lk lr) in *. set (zr := Node rc rl rk rr) in *.
      assert (∃ h, rb zr h ∧ ∀ yk, path_rb (RightOf zc zl yk :: path) h
                                     (root_color zr)) as (h & Hzr & Hbase).
      { inversion Hz as [|? ? ? ? Hl Hr Hlb Hrb0|? ? ? ? Hl Hr]; subst.
        - exists m. split; [done|]. intros yk. simpl.
          apply is_black_root_color in Hrb0. by rewrite Hrb0.
        - eexists. split; [done|]. intros yk. simpl. auto. }
      destruct (leftmost_path zr h [] Hzr)
        as (yc & yk & yr & below & m' & -> & Hy & Hfits); [done|].
      destruct (splice_rb yc yr yk (below ++ RightOf zc zl yk :: path) m')
        as (t & -> & Ht); [auto | by apply Hfits, Hbase |].
      simpl. auto.
Qed.

(** Every operation keeps the invariants. *)
Lemma perform_red_black (tree : RedBlackTree_s) (op : operation) :
  red_black (root tree) = true →
  ∃ tree', perform tree op = Some tree' ∧ red_black (root tree') = true.
Proof.
  intros Hrb. destruct op as [element|key]; simpl.
  - destruct (rbt_insert_red_black tree element Hrb) as (ok & tree' & -> & ?).
    by exists tree'.
  - destruct (rbt_remove_red_black tree key Hrb) as (ok & tree' & -> & ?).
    by exists tree'.
Qed.

Lemma history_red_black (ops : list operation) (tree : RedBlackTree_s) :
  red_black (root tree) = true →
  ∃ trees, history tree ops = Some trees
         ∧ length trees = length ops
         ∧ Forall (λ t, red_black (root t) = true) trees.
Proof.
  revert tree. induction ops as [|op ops IH]; intros tree Hrb; simpl.
  - exists []. by split_and!.
  - destruct (perform_red_black tree op Hrb) as (tree' & -> & Hrb'). simpl.
    destruct (IH tree' Hrb') as (trees & -> & Hlen & Hall). simpl.
    exists (tree' :: trees). split_and!; [done | by rewrite <- Hlen |].
    by constructor.
Qed.

(** C10. Starting from the empty tree of [rbt_new], every sequence of
    [rbt_insert] and [rbt_remove] operations runs to the end, and the tree
    left by each operation of the sequence satisfies the red-black
    invariants: its root is Black or it is empty, no Red node has a Red
    child, and all paths from the root to a null child hold the same number
    of Black nodes. *)
Theorem rbt_balance_invariant (interface : Interface_s) (ops : list operation) :
  ∃ trees, history (rbt_new interface) ops = Some trees
         ∧ length trees = length ops
         ∧ Forall (λ t, red_black (root t) = true) trees.
Proof. by apply history_red_black. Qed.

(** The scenario of [rbt_test_IO0] with 60 elements: inserting the keys
    1 to 60 in ascending order and removing them in the same order, every
    call succeeds (the size goes up to 60 and back to 0 one by one), the
    keys stay sorted and the invariants hold throughout. *)
Example rbt_test_IO0_small :
  match history (rbt_new sample_interface)
          (map Insert (seqZ 1 60) ++ map Remove (seqZ 1 60)) with
  | Some trees =>
      map (λ t, (rbt_size t, red_black (root t))) trees
      = map (λ n, (n, true)) (seqZ 1 60)
        ++ map (λ n, (60 - n, true)) (seqZ 1 60)
  | None => False
  end
  ∧ match history (rbt_new sample_interface)
            [Insert 7; Insert 3; Insert 9; Insert 1] with
    | Some trees =>
        map root trees
        = [Node Black Leaf 7 Leaf;
           Node Black (Node Red Leaf 3 Leaf) 7 Leaf;
           Node Black (Node Red Leaf 3 Leaf) 7 (Node Red Leaf 9 Leaf);
           Node Black (Node Black (Node Red Leaf 1 Leaf) 3 Leaf) 7
             (Node Black Leaf 9 Leaf)]
    | None => False
    end.
Proof. split; vm_compute; reflexivity. Qed.

End RedBlackTreeFacts.

(** ** QueueArray: the other functions of the file *)

Module QueueArrayLaws.
Import Core CoreFacts QueueArray QueueArrayFacts.

(** *** Walking the occupied region *)

Lemma for_loop_skip {St : Type} (cond : St → bool) (body : St → option St)
    (fuel : nat) (s : St) :
  cond s = false → for_loop fuel cond body s = Some s.
Proof. intros Hc. destruct fuel; simpl; by rewrite Hc. Qed.

Lemma position_range (q : QueueArray_s) (j : Z) :
  well_formed q → 0 ≤ j < capacity q → 0 ≤ position q j < capacity q.
Proof. intros [] Hj. unfold position. case_decide; lia. Qed.

Lemma position_injective (q : QueueArray_s) (j k : Z) :
  well_formed q → 0 ≤ j < capacity q → 0 ≤ k < capacity q →
  position q j = position q k → j = k.
Proof. intros [] Hj Hk. unfold position. repeat case_decide; lia. Qed.

Lemma load_position (q : QueueArray_s) (j : Z) :
  well_formed q → 0 ≤ j < capacity q →
  load (buffer q) (position q j) = Some (slot q j).
Proof.
  intros Hwf Hj. pose proof (position_range q j Hwf Hj) as Hp.
  destruct Hwf. rewrite slot_position by lia.
  destruct (load_in_range (buffer q) (position q j)) as [v ->]; [lia | done].
Qed.

Lemma position_next (q : QueueArray_s) (j : Z) :
  well_formed q → 0 ≤ j < capacity q →
  c_rem (position q j + 1) (capacity q) = Some (position q (j + 1)).
Proof.
  intros Hwf Hj. pose proof (position_range q j Hwf Hj) as Hp.
  destruct Hwf. rewrite c_rem_wrap by lia. f_equal.
  unfold position in *. repeat case_decide; lia.
Qed.

Lemma lookup_to_sequence (q : QueueArray_s) (j : Z) :
  0 ≤ j < size q → to_sequence q !! Z.to_nat j = Some (slot q j).
Proof.
  intros Hj. unfold to_sequence. rewrite list_lookup_fmap.
  rewrite lookup_seqZ_lt by lia. simpl. f_equal. f_equal. lia.
Qed.

Lemma length_to_sequence (q : QueueArray_s) :
  length (to_sequence q) = Z.to_nat (size q).
Proof. unfold to_sequence. by rewrite length_fmap, length_seqZ. Qed.

Lemma to_sequence_take_snoc (q : QueueArray_s) (j : Z) :
  0 ≤ j < size q →
  take (Z.to_nat (j + 1)) (to_sequence q)
  = take (Z.to_nat j) (to_sequence q) ++ [slot q j].
Proof.
  intros Hj. replace (Z.to_nat (j + 1)) with (S (Z.to_nat j)) by lia.
  erewrite take_S_r; [done|]. by apply lookup_to_sequence.
Qed.

(** A loop that walks the first [n] logical positions of a well-formed
    queue: if every round keeps [P], the loop ends after [n] rounds at
    position [n] with [P n]. *)
Lemma walk_rule {A : Type} (q : QueueArray_s) (n : Z) (P : Z → A → Prop)
    (cond : Z * Z * A → bool) (body : Z * Z * A → option (Z * Z * A))
    (fuel : nat) (a0 : A) :
  well_formed q → 0 ≤ n ≤ capacity q → (Z.to_nat n ≤ fuel)%nat →
  (∀ i j a, cond (i, j, a) = bool_decide (j < n)) →
  P 0 a0 →
  (∀ j a, 0 ≤ j < n → P j a →
          ∃ a', body (position q j, j, a) = Some (position q (j + 1), j + 1, a')
              ∧ P (j + 1) a') →
  ∃ a, for_loop fuel cond body (front q, 0, a0) = Some (position q n, n, a)
     ∧ P n a.
Proof.
  intros Hwf Hn Hfuel Hcond H0 Hstep.
  destruct (for_loop_rule
    (λ '(i, j, a), 0 ≤ j ≤ n ∧ i = position q j ∧ P j a)
    (λ '(_, j, _), Z.to_nat (n - j)) cond body fuel (front q, 0, a0))
    as ([[i j] a] & Hloop & (Hj & -> & HP) & Hexit).
  - split_and!; [lia | lia | | done].
    destruct Hwf. unfold position. rewrite decide_True by lia. lia.
  - lia.
  - intros [[i j] a] (Hj & -> & HP) Hc. rewrite Hcond in Hc.
    apply bool_decide_eq_true in Hc.
    destruct (Hstep j a) as (a' & -> & HP'); [lia | done |].
    eexists. split; [done|]. split; [|lia]. split_and!; [lia | lia | done | done].
  - rewrite Hcond in Hexit. apply bool_decide_eq_false in Hexit.
    assert (j = n) as -> by lia. by exists a.
Qed.

(** [walk n P pat] applies [walk_rule] to the loop of the goal. *)
Ltac walk q n P pat :=
  match goal with
  | |- context [for_loop ?fuel ?cond ?body (_, _, ?a0)] =>
      destruct (walk_rule q n P cond body fuel a0) as pat
  end.

(** *** Releasing *)

Lemma qua_free_sequence (q : QueueArray_s) :
  well_formed q →
  qua_free q = Some ((FreeElement <$> to_sequence q) ++ [FreeBuffer; FreeQueue]).
Proof.
  intros Hwf. unfold qua_free.
  walk q (size q)
    (λ (j : Z) (freed : list released),
       freed = FreeElement <$> take (Z.to_nat j) (to_sequence q))
    ipattern:((freed & -> & ->)).
  - done.
  - by destruct Hwf.
  - lia.
  - by intros i j a.
  - done.
  - intros j a Hj ->. simpl.
    rewrite load_position by (destruct Hwf; done || lia). simpl.
    rewrite position_next by (destruct Hwf; done || lia). simpl.
    eexists. split; [done|].
    rewrite to_sequence_take_snoc by lia. by rewrite fmap_app.
  - simpl. rewrite take_ge by (rewrite length_to_sequence; lia). done.
Qed.

(** X1. On a well-formed queue [qua_free] hands exactly the elements of the
    logical sequence to the interface's [free], oldest first and each once,
    then frees the buffer and the struct; cells outside the occupied region
    are never passed to [free]. *)
Theorem qua_free_releases (q : QueueArray_s) :
  well_formed q →
  qua_free q = Some ((FreeElement <$> to_sequence q) ++ [FreeBuffer; FreeQueue]).
Proof. apply qua_free_sequence. Qed.

Lemma qua_free_releases_witness :
  qua_free (mkQueueArray [13; 0; 11; 12] 2 1 3 4 200 false sample_interface 5)
  = Some ((FreeElement <$>
             to_sequence (mkQueueArray [13; 0; 11; 12] 2 1 3 4 200 false
                            sample_interface 5))
          ++ [FreeBuffer; FreeQueue]).
Proof.
  apply qua_free_releases. constructor; simpl; first [lia | reflexivity].
Defined.

(** What [qua_erase] leaves behind: a well-formed queue of the same shape
    whose occupied slots all hold [NULL]. *)
Lemma qua_erase_sequence (q : QueueArray_s) :
  well_formed q →
  ∃ b, qua_erase q = Some (true, set_buffer b q, to_sequence q)
     ∧ well_formed (set_buffer b q)
     ∧ to_sequence (set_buffer b q) = replicate (Z.to_nat (size q)) NULL.
Proof.
  intros Hwf. unfold qua_erase.
  destruct (erase_loop_spec q Hwf) as (b & -> & Hlen & Hnull & _). simpl.
  exists b. split; [done|].
  assert (well_formed (set_buffer b q)) as Hwf'.
  { destruct Hwf. constructor; simpl; try done. by rewrite Hlen. }
  split; [done|].
  apply list_eq_same_length with (Z.to_nat (size q));
    [by rewrite length_replicate | by rewrite length_to_sequence |].
  intros i x y Hi Hx Hy. apply lookup_replicate in Hy as [-> _].
  rewrite <- (Nat2Z.id i) in Hx.
  rewrite lookup_to_sequence in Hx by (simpl; lia).
  destruct Hwf. rewrite slot_position in Hx by (simpl; lia). simpl in Hx.
  change (position (set_buffer b q) (Z.of_nat i))
    with (position q (Z.of_nat i)) in Hx.
  rewrite Hnull in Hx by lia. by simplify_eq/=.
Qed.

(** X2. [qua_erase] does not reset [size], so a [qua_free] that follows it
    walks the same slots again: the interface's [free] is called with [NULL]
    once for every element the queue held, after the elements themselves
    were freed by [qua_erase]. *)
Theorem qua_free_after_erase (q : QueueArray_s) :
  well_formed q →
  ∃ q', qua_erase q = Some (true, q', to_sequence q)
      ∧ qua_free q'
        = Some (replicate (Z.to_nat (size q)) (FreeElement NULL)
                ++ [FreeBuffer; FreeQueue]).
Proof.
  intros Hwf. destruct (qua_erase_sequence q Hwf) as (b & Herase & Hwf' & Hseq).
  eexists. split; [done|].
  rewrite qua_free_sequence by done. rewrite Hseq.
  by rewrite fmap_replicate.
Qed.

Lemma qua_free_after_erase_witness :
  ∃ q', qua_erase (mkQueueArray [13; 0; 11; 12] 2 1 3 4 200 false
                     sample_interface 5)
        = Some (true, q',
                to_sequence (mkQueueArray [13; 0; 11; 12] 2 1 3 4 200 false
                               sample_interface 5))
      ∧ qua_free q'
        = Some (replicate (Z.to_nat 3) (FreeElement NULL)
                ++ [FreeBuffer; FreeQueue]).
Proof.
  apply (qua_free_after_erase
           (mkQueueArray [13; 0; 11; 12] 2 1 3 4 200 false sample_interface 5)).
  constructor; simpl; first [lia | reflexivity].
Defined.

(** *** Constructors *)

(** The initialisation loop of the constructors overwrites whatever
    [malloc] left in the block. *)
Lemma null_fill_replicate (n : Z) (block : list ptr) :
  Z.of_nat (length block) = n →
  null_fill n block = Some (replicate (Z.to_nat n) NULL).
Proof.
  intros Hlen. unfold null_fill.
  loop_invariant
    (λ '((i, b) : Z * list ptr), 0 ≤ i ≤ n ∧ length b = length block
       ∧ ∀ p, 0 ≤ p < i → load b p = Some NULL)
    (λ '((i, _) : Z * list ptr), Z.to_nat (n - i))
    ipattern:(([i b] & -> & (Hi & Hb & Hnull) & Hexit)).
  - split_and!; [lia | lia | done | intros; lia].
  - lia.
  - intros [i b] (Hi & Hb & Hnull) Hc. apply bool_decide_eq_true in Hc.
    rewrite store_in_range by lia. simpl.
    eexists. split; [done|]. split; [|lia].
    split_and!; [lia | lia | by rewrite length_insert |].
    intros p Hp. erewrite load_store by (apply store_in_range; lia).
    case_decide; [done|]. apply Hnull. lia.
  - apply bool_decide_eq_false in Hexit. simpl. f_equal.
    apply list_eq_same_length with (Z.to_nat n);
      [by rewrite length_replicate | lia |].
    intros k x y Hk Hx Hy. apply lookup_replicate in Hy as [-> _].
    specialize (Hnull (Z.of_nat k)). unfold load in Hnull.
    rewrite decide_True, Nat2Z.id in Hnull by lia.
    rewrite Hnull in Hx by lia. by simplify_eq.
Qed.

(** X3. [qua_create] returns [NULL] when the growth rate is at most 100,
    when the initial capacity is not positive, or when one of its two
    allocations fails.  Otherwise, for an initial capacity below [2^61], it
    returns an empty, unlocked queue of the requested capacity and growth
    rate at version 0, all of whose slots hold [NULL] whatever [malloc] left
    in the block.  From [2^61] on the byte count of the request wraps, the
    block is shorter than the capacity and the initialisation loop leaves
    it: there is no defined result.  [qua_new] is [qua_create] with
    capacity 32 and growth rate 200. *)
Theorem qua_create_result (initial_capacity growth_rate : integer_t)
    (interface : Interface_s) :
  (∀ malloc_queue malloc_buffer,
     growth_rate ≤ 100 ∨ initial_capacity ≤ 0 ∨ malloc_queue = false
       ∨ malloc_buffer = AllocFails →
     qua_create initial_capacity growth_rate interface malloc_queue
       malloc_buffer = Some None)
  ∧ (∀ fresh,
     100 < growth_rate → 0 < initial_capacity < max_cells →
     qua_create initial_capacity growth_rate interface true (AllocOk fresh)
     = Some (Some (mkQueueArray
                     (replicate (Z.to_nat initial_capacity) NULL) 0 0 0
                     initial_capacity growth_rate false interface 0)))
  ∧ (∀ fresh,
     100 < growth_rate → max_cells ≤ initial_capacity →
     qua_create initial_capacity growth_rate interface true (AllocOk fresh)
     = None)
  ∧ (∀ malloc_queue malloc_buffer,
     qua_new interface malloc_queue malloc_buffer
     = qua_create 32 200 interface malloc_queue malloc_buffer).
Proof.
  split_and!.
  - intros mq mb Hbad. unfold qua_create.
    case_bool_decide as Hargs; [done|].
    destruct mq; [|done]. destruct mb; [done|].
    destruct Hbad as [?|[?|[?|?]]]; first [lia | done].
  - intros fresh Hg Hc. unfold qua_create.
    rewrite bool_decide_eq_false_2 by lia. simpl.
    rewrite null_fill_replicate by (apply length_malloc; lia). done.
  - intros fresh Hg Hc. unfold qua_create.
    assert (0 < max_cells) as Hmax by (unfold max_cells; lia).
    rewrite bool_decide_eq_false_2 by lia. simpl.
    destruct (null_fill _ _) as [b|] eqn:Hfill; [|done].
    apply null_fill_within in Hfill; [|lia].
    pose proof (length_malloc_bound fresh initial_capacity). lia.
  - intros mq mb. reflexivity.
Qed.

(** *** Enqueue, dequeue and the two ends *)

(** The two ways [qua_enqueue] can go on a well-formed queue. *)
Lemma qua_enqueue_cases (q : QueueArray_s) (element : ptr)
    (realloc : alloc_result) :
  well_formed q →
  (size q = capacity q → locked q = false → growth_fits q = true) →
  (∃ q', qua_enqueue q element realloc = Some (true, q')
       ∧ well_formed q'
       ∧ to_sequence q' = to_sequence q ++ [element]
       ∧ size q' = size q + 1
       ∧ growth_rate q' = growth_rate q
       ∧ locked q' = locked q
       ∧ capacity q ≤ capacity q'
       ∧ (size q < capacity q → capacity q' = capacity q))
  ∨ (qua_enqueue q element realloc = Some (false, q)
     ∧ size q = capacity q
     ∧ (locked q = true ∨ realloc = AllocFails)).
Proof.
  intros Hwf Hfit.
  destruct (decide (size q < capacity q)) as [Hroom|Hfull].
  - left. rewrite qua_enqueue_room by done.
    destruct (enqueue_at_rear_spec q element Hwf Hroom)
      as (q' & -> & ? & ? & ? & Hc & ? & ? & ? & ?).
    exists q'. split_and!; try done; lia.
  - assert (size q = capacity q) as Hfull' by (destruct Hwf; lia).
    destruct (locked q) eqn:Hl.
    { right. split_and!; [|done|by left]. apply qua_enqueue_rejected; auto. }
    specialize (Hfit Hfull' eq_refl).
    destruct realloc as [|fresh].
    { right. split_and!; [|done|by right].
      apply qua_enqueue_rejected; [done|].
      right. split_and!; [done | by destruct Hwf | done]. }
    left. rewrite qua_enqueue_unfold. unfold qua_full.
    rewrite bool_decide_eq_true_2 by done.
    destruct (qua_grow_full q fresh Hwf Hfull' Hl Hfit)
      as (q1 & -> & Hwf1 & Hseq1 & Hs1 & Hc1 & Hg1 & Hl1 & Hi1 & Hv1).
    simpl.
    pose proof (grown_capacity_min _ _ _ Hc1).
    destruct (enqueue_at_rear_spec q1 element Hwf1)
      as (q' & -> & ? & ? & ? & Hc & ? & ? & ? & ?); [lia|].
    exists q'. split_and!; try done; try congruence; lia.
Qed.

(** X4. On a well-formed queue [qua_peek_front] returns the oldest element
    of the logical sequence, [NULL] if there is none, and it is the element
    the next successful [qua_dequeue] returns. *)
Theorem qua_peek_front_oldest (q : QueueArray_s) :
  well_formed q →
  qua_peek_front q = Some (default NULL (head (to_sequence q)))
  ∧ ∀ result q', qua_dequeue q = Some (true, result, q') →
                 qua_peek_front q = Some result.
Proof.
  intros Hwf.
  assert (qua_peek_front q = Some (default NULL (head (to_sequence q)))) as Hpeek.
  { unfold qua_peek_front, qua_empty. case_bool_decide as Hs.
    - by rewrite to_sequence_empty.
    - assert (0 < size q) as Hne by (destruct Hwf; lia).
      destruct (qua_dequeue_spec q Hwf Hne) as (v & q' & Hdq & _ & -> & _).
      simpl. unfold qua_dequeue, qua_empty in Hdq.
      rewrite bool_decide_eq_false_2 in Hdq by done.
      destruct (load (buffer q) (front q)) as [w|]; [|done].
      simpl in Hdq. destruct (store _ _ _); [|done]. by simplify_eq/=. }
  split; [done|]. intros result q' Hdq. rewrite Hpeek.
  destruct (decide (0 < size q)) as [Hne|Hempty].
  - destruct (qua_dequeue_spec q Hwf Hne) as (v & q1 & Hdq1 & _ & -> & _).
    by simplify_eq.
  - rewrite qua_dequeue_empty in Hdq by (destruct Hwf; lia). done.
Qed.

Lemma qua_peek_front_oldest_witness :
  qua_peek_front (mkQueueArray [13; 0; 11; 12] 2 1 3 4 200 false
                    sample_interface 5)
  = Some (default NULL (head (to_sequence
            (mkQueueArray [13; 0; 11; 12] 2 1 3 4 200 false
               sample_interface 5))))
  ∧ ∀ result q',
      qua_dequeue (mkQueueArray [13; 0; 11; 12] 2 1 3 4 200 false
                     sample_interface 5) = Some (true, result, q') →
      qua_peek_front (mkQueueArray [13; 0; 11; 12] 2 1 3 4 200 false
                        sample_interface 5) = Some result.
Proof.
  apply qua_peek_front_oldest.
  constructor; simpl; first [lia | reflexivity].
Defined.

Lemma qua_peek_rear_last (q : QueueArray_s) :
  well_formed q →
  qua_peek_rear q = Some (default NULL (last (to_sequence q))).
Proof.
  intros Hwf. unfold qua_peek_rear, qua_empty. case_bool_decide as Hs.
  { by rewrite to_sequence_empty. }
  assert (0 < size q) as Hne by (destruct Hwf; lia).
  assert ((if bool_decide (rear q = 0) then capacity q - 1 else rear q - 1)
          = position q (size q - 1)) as ->.
  { destruct Hwf as [? ? ? ? Hrear]. rewrite mod_wrap in Hrear by lia.
    unfold position. repeat case_decide; case_bool_decide; lia. }
  rewrite load_position by (destruct Hwf; done || lia).
  f_equal. rewrite last_lookup, length_to_sequence.
  replace (Nat.pred (Z.to_nat (size q))) with (Z.to_nat (size q - 1)) by lia.
  by rewrite lookup_to_sequence by lia.
Qed.

(** The element stored by a successful [qua_enqueue] is the one
    [qua_peek_rear] reads, whatever the growth did to the buffer. *)
Lemma qua_enqueue_peek_rear (q q' : QueueArray_s) (element : ptr)
    (realloc : alloc_result) :
  0 ≤ size q → qua_enqueue q element realloc = Some (true, q') →
  qua_peek_rear q' = Some element.
Proof.
  rewrite qua_enqueue_unfold. intros Hsize H.
  assert (∃ grown q1, (if qua_full q then qua_grow q realloc
                       else Some (true, q)) = Some (grown, q1)
                      ∧ size q1 = size q) as (grown & q1 & Hg & Hs).
  { destruct (qua_full q).
    - destruct (qua_grow q realloc) as [[grown q1]|] eqn:Hgrow; [|done].
      exists grown, q1. split; [done|].
      by destruct (qua_grow_frame _ _ _ _ Hgrow) as (? & _).
    - by exists true, q. }
  rewrite Hg in H. simpl in H. destruct grown; simpl in H; [|done].
  unfold enqueue_at_rear in H.
  destruct (store (buffer q1) (rear q1) element) as [b|] eqn:Hst;
    simplify_eq/=.
  unfold qua_peek_rear, qua_empty. simpl.
  rewrite bool_decide_eq_false_2 by lia.
  pose proof (store_Some _ _ _ _ Hst) as [Hin _].
  rewrite (load_store _ _ _ _ _ Hst).
  rewrite decide_True; [done|]. repeat case_bool_decide; lia.
Qed.

(** X5. On a well-formed queue [qua_peek_rear] returns the newest element of
    the logical sequence, [NULL] if there is none; right after a successful
    [qua_enqueue] it returns the element just added, also when the enqueue
    had to grow the buffer. *)
Theorem qua_peek_rear_newest (q : QueueArray_s) :
  well_formed q →
  qua_peek_rear q = Some (default NULL (last (to_sequence q)))
  ∧ ∀ element realloc q',
      qua_enqueue q element realloc = Some (true, q') →
      qua_peek_rear q' = Some element.
Proof.
  intros Hwf. split; [by apply qua_peek_rear_last|].
  intros element realloc q' Henq.
  apply (qua_enqueue_peek_rear q q' element realloc); [|done].
  destruct Hwf; lia.
Qed.

Lemma qua_peek_rear_newest_witness :
  qua_peek_rear (mkQueueArray [13; 0; 11; 12] 2 1 3 4 200 false
                   sample_interface 5)
  = Some (default NULL (last (to_sequence
            (mkQueueArray [13; 0; 11; 12] 2 1 3 4 200 false
               sample_interface 5))))
  ∧ ∀ element realloc q',
      qua_enqueue (mkQueueArray [13; 0; 11; 12] 2 1 3 4 200 false
                     sample_interface 5) element realloc = Some (true, q') →
      qua_peek_rear q' = Some element.
Proof.
  apply qua_peek_rear_newest.
  constructor; simpl; first [lia | reflexivity].
Defined.

(** [qua_fits] adds in [unsigned_t]: on a well-formed queue it answers true
    when the elements fit, and also when the sum wraps. *)
Lemma qua_fits_wraps (q : QueueArray_s) (n : Z) :
  well_formed q → 0 ≤ n < 2 ^ 64 →
  qua_fits q n = true ↔ size q + n ≤ capacity q ∨ 2 ^ 64 ≤ size q + n.
Proof.
  intros Hwf Hn. unfold qua_fits, to_size_t.
  pose proof (wf_size q Hwf) as Hs. pose proof (wf_block q Hwf) as Hb.
  unfold max_cells in Hb.
  rewrite (Z.mod_small (size q)), (Z.mod_small n), (Z.mod_small (capacity q))
    by lia.
  rewrite bool_decide_eq_true.
  destruct (decide (size q + n < 2 ^ 64)) as [Hlt|Hge].
  - rewrite Z.mod_small by lia. lia.
  - assert ((size q + n) `mod` 2 ^ 64 = size q + n - 2 ^ 64) as ->
      by (symmetry; apply (Z.mod_unique _ _ 1); lia).
    lia.
Qed.

(** X6. On a well-formed queue [qua_fits (queue, n)] is true exactly when
    [size + n <= capacity] or the unsigned sum wraps ([size + n >= 2^64]).
    When it is true and the sum does not wrap, any [n] enqueues succeed one
    after the other without touching the allocator: the outcome does not
    depend on what [realloc] would answer nor on the lock, the capacity
    stays the same and the elements are appended in order. *)
Theorem qua_fits_enqueues (q : QueueArray_s) :
  well_formed q →
  (∀ n, 0 ≤ n < 2 ^ 64 →
        qua_fits q n = true ↔ size q + n ≤ capacity q ∨ 2 ^ 64 ≤ size q + n)
  ∧ ∀ elements reallocs,
      length reallocs = length elements →
      size q + Z.of_nat (length elements) < 2 ^ 64 →
      qua_fits q (Z.of_nat (length elements)) = true →
      ∃ q', run q (enqueue_all elements reallocs)
            = Some (q', Enqueued <$> elements)
          ∧ well_formed q'
          ∧ capacity q' = capacity q
          ∧ to_sequence q' = to_sequence q ++ elements.
Proof.
  intros Hwf. split; [intros n Hn; by apply qua_fits_wraps|].
  intros elements reallocs Hlen Hwrap Hfits.
  assert (size q + Z.of_nat (length elements) ≤ capacity q) as Hroom.
  { pose proof (wf_size q Hwf) as Hs.
    destruct (proj1 (qua_fits_wraps q (Z.of_nat (length elements)) Hwf
                       ltac:(lia)) Hfits); lia. }
  clear Hwrap Hfits. unfold enqueue_all. revert q reallocs Hwf Hlen Hroom.
  induction elements as [|e es IH]; intros q rs Hwf Hlen Hfits;
    destruct rs as [|r rs]; simplify_eq/=.
  - exists q. by rewrite app_nil_r.
  - destruct (qua_enqueue_cases q e r Hwf)
      as [(q1 & -> & Hwf1 & Hseq1 & Hs1 & _ & _ & _ & Hc1)|(_ & ? & _)];
      [lia | | lia].
    simpl. assert (capacity q1 = capacity q) as Hcq1 by (apply Hc1; lia).
    destruct (IH q1 rs Hwf1) as (q' & -> & Hwf' & Hc' & Hseq');
      [done | lia |].
    simpl. exists q'. split_and!; try done.
    + congruence.
    + rewrite Hseq', Hseq1. by rewrite <- app_assoc.
Qed.

Lemma qua_fits_enqueues_witness :
  (∀ n, 0 ≤ n < 2 ^ 64 →
        qua_fits (mkQueueArray [13; 0; 0; 12] 3 1 2 4 200 true
                    sample_interface 5) n = true
        ↔ 2 + n ≤ 4 ∨ 2 ^ 64 ≤ 2 + n)
  ∧ ∀ elements reallocs,
      length reallocs = length elements →
      2 + Z.of_nat (length elements) < 2 ^ 64 →
      qua_fits (mkQueueArray [13; 0; 0; 12] 3 1 2 4 200 true
                  sample_interface 5) (Z.of_nat (length elements)) = true →
      ∃ q', run (mkQueueArray [13; 0; 0; 12] 3 1 2 4 200 true
                   sample_interface 5) (enqueue_all elements reallocs)
            = Some (q', Enqueued <$> elements)
          ∧ well_formed q'
          ∧ capacity q' = 4
          ∧ to_sequence q'
            = to_sequence (mkQueueArray [13; 0; 0; 12] 3 1 2 4 200 true
                             sample_interface 5) ++ elements.
Proof.
  apply (qua_fits_enqueues
           (mkQueueArray [13; 0; 0; 12] 3 1 2 4 200 true sample_interface 5)).
  constructor; simpl; first [lia | reflexivity].
Defined.

(** X7. [qua_enqueue] on a well-formed queue whose growth, if it is full
    and unlocked, fits: the call fails only when the queue is full and
    either locked or out of memory, and a failed call leaves the queue
    exactly as it was; in every other case it succeeds. *)
Theorem qua_enqueue_failure (q : QueueArray_s) (element : ptr)
    (realloc : alloc_result) :
  well_formed q →
  (size q = capacity q → locked q = false → growth_fits q = true) →
  (∀ q', qua_enqueue q element realloc = Some (false, q') →
         q' = q ∧ size q = capacity q
         ∧ (locked q = true ∨ realloc = AllocFails))
  ∧ (size q < capacity q ∨ (locked q = false ∧ realloc ≠ AllocFails) →
     ∃ q', qua_enqueue q element realloc = Some (true, q')).
Proof.
  intros Hwf Hfit. split.
  - intros q' Hfail.
    destruct (qua_enqueue_cases q element realloc Hwf Hfit)
      as [(q1 & Henq & _)|(Hrej & Hfull & Hwhy)]; [congruence|].
    split_and!; [congruence | done | done].
  - intros Hcan.
    assert (size q < capacity q
            ∨ locked q = false ∧ realloc ≠ AllocFails ∧ growth_fits q = true)
      as Hcan'.
    { destruct (decide (size q < capacity q)); [by left|].
      destruct Hcan as [?|[Hl Hre]]; [done|]. right.
      split_and!; [done..|]. apply Hfit; [destruct Hwf; lia | done]. }
    destruct (qua_enqueue_spec q element realloc Hwf Hcan') as (q' & Henq & _).
    by exists q'.
Qed.

Lemma qua_enqueue_failure_witness :
  ((∀ q', qua_enqueue (mkQueueArray [13; 11; 12] 1 1 3 3 200 false
                         sample_interface 4) 99 AllocFails
          = Some (false, q') →
          q' = mkQueueArray [13; 11; 12] 1 1 3 3 200 false sample_interface 4
          ∧ 3 = 3 ∧ (false = true ∨ AllocFails = AllocFails))
   ∧ (3 < 3 ∨ (false = false ∧ AllocFails ≠ AllocFails) →
      ∃ q', qua_enqueue (mkQueueArray [13; 11; 12] 1 1 3 3 200 false
                           sample_interface 4) 99 AllocFails
            = Some (true, q')))
  ∧ ((∀ q', qua_enqueue (mkQueueArray [13; 11; 12] 1 1 3 3 200 false
                           sample_interface 4) 99 (AllocOk (λ _, 77))
            = Some (false, q') →
            q' = mkQueueArray [13; 11; 12] 1 1 3 3 200 false sample_interface 4
            ∧ 3 = 3 ∧ (false = true ∨ AllocOk (λ _, 77) = AllocFails))
     ∧ (3 < 3 ∨ (false = false ∧ AllocOk (λ _, 77) ≠ AllocFails) →
        ∃ q', qua_enqueue (mkQueueArray [13; 11; 12] 1 1 3 3 200 false
                             sample_interface 4) 99 (AllocOk (λ _, 77))
              = Some (true, q'))).
Proof.
  split.
  - apply (qua_enqueue_failure
             (mkQueueArray [13; 11; 12] 1 1 3 3 200 false sample_interface 4)
             99 AllocFails).
    + constructor; simpl; first [lia | reflexivity].
    + intros _ _. vm_compute. reflexivity.
  - apply (qua_enqueue_failure
             (mkQueueArray [13; 11; 12] 1 1 3 3 200 false sample_interface 4)
             99 (AllocOk (λ _, 77))).
    + constructor; simpl; first [lia | reflexivity].
    + intros _ _. vm_compute. reflexivity.
Defined.

(** Dequeuing [n] times from a queue that holds at least [n] elements. *)
Lemma run_dequeues_state (n : nat) (q : QueueArray_s) :
  well_formed q → Z.of_nat n ≤ size q →
  ∃ q', run q (replicate n Dequeue)
        = Some (q', Dequeued <$> take n (to_sequence q))
      ∧ well_formed q'
      ∧ size q' = size q - Z.of_nat n
      ∧ capacity q' = capacity q
      ∧ to_sequence q' = drop n (to_sequence q).
Proof.
  revert q. induction n as [|n IH]; intros q Hwf Hn; simpl.
  - exists q. split_and!; try done. lia.
  - destruct (qua_dequeue_spec q Hwf)
      as (v & q1 & -> & Hwf1 & Hseq & Hs1 & Hc1 & _); [lia|].
    simpl. destruct (IH q1 Hwf1) as (q' & -> & Hwf' & Hs' & Hc' & Hseq');
      [lia|].
    simpl. exists q'. rewrite Hseq. simpl.
    split_and!; [done | done | lia | congruence | done].
Qed.

(** Running two sequences of calls one after the other. *)
Lemma run_app (calls1 calls2 : list call) (q q1 : QueueArray_s)
    (outs1 : list outcome) :
  run q calls1 = Some (q1, outs1) →
  run q (calls1 ++ calls2)
  = run q1 calls2 ≫= λ '(q2, outs2), Some (q2, outs1 ++ outs2).
Proof.
  revert q q1 outs1.
  induction calls1 as [|[e r|] calls1 IH]; intros q q1 outs1; simpl.
  - intros [= -> <-]. simpl. by destruct (run q1 calls2) as [[? ?]|].
  - destruct (qua_enqueue q e r) as [[ok qa]|]; [|done]. simpl.
    destruct (run qa calls1) as [[qb o]|] eqn:Hr; [|done]. simpl.
    intros [= <- <-]. rewrite (IH qa qb o Hr).
    by destruct (run qb calls2) as [[? ?]|].
  - destruct (qua_dequeue q) as [[[ok v] qa]|]; [|done]. simpl.
    destruct (run qa calls1) as [[qb o]|] eqn:Hr; [|done]. simpl.
    intros [= <- <-]. rewrite (IH qa qb o Hr).
    by destruct (run qb calls2) as [[? ?]|].
Qed.

(** X8. Draining a well-formed queue: [size] dequeues succeed and deliver
    the logical sequence from front to rear, the queue is then empty with
    its capacity unchanged (the buffer never shrinks), and one more dequeue
    fails with a [NULL] result. *)
Theorem qua_drain (q : QueueArray_s) :
  well_formed q →
  ∃ q', run q (replicate (Z.to_nat (size q)) Dequeue ++ [Dequeue])
        = Some (q', (Dequeued <$> to_sequence q) ++ [DequeueFailed])
      ∧ qua_empty q' = true
      ∧ capacity q' = capacity q
      ∧ qua_dequeue q' = Some (false, NULL, q').
Proof.
  intros Hwf.
  destruct (run_dequeues_state (Z.to_nat (size q)) q Hwf)
    as (q' & Hrun & Hwf' & Hs' & Hc' & Hseq'); [destruct Hwf; lia|].
  assert (size q' = 0) as Hempty by (destruct Hwf; lia).
  exists q'. split_and!.
  - rewrite (run_app _ _ _ _ _ Hrun). simpl.
    rewrite qua_dequeue_empty by done. simpl.
    rewrite take_ge by (rewrite length_to_sequence; lia). done.
  - unfold qua_empty. by apply bool_decide_eq_true.
  - done.
  - by apply qua_dequeue_empty.
Qed.

Lemma qua_drain_witness :
  ∃ q', run (mkQueueArray [13; 0; 11; 12] 2 1 3 4 200 false sample_interface 5)
          (replicate (Z.to_nat 3) Dequeue ++ [Dequeue])
        = Some (q', (Dequeued <$> to_sequence
                       (mkQueueArray [13; 0; 11; 12] 2 1 3 4 200 false
                          sample_interface 5)) ++ [DequeueFailed])
      ∧ qua_empty q' = true
      ∧ capacity q' = 4
      ∧ qua_dequeue q' = Some (false, NULL, q').
Proof.
  apply (qua_drain
           (mkQueueArray [13; 0; 11; 12] 2 1 3 4 200 false sample_interface 5)).
  constructor; simpl; first [lia | reflexivity].
Defined.

(** *** Comparison *)

Lemma position_rem (q : QueueArray_s) (i : Z) :
  well_formed q → 0 ≤ i < capacity q →
  c_rem (i + front q) (capacity q) = Some (position q i).
Proof.
  intros [] Hi. rewrite c_rem_wrap by lia. f_equal.
  unfold position. repeat case_decide; lia.
Qed.

Lemma drop_to_sequence (q : QueueArray_s) (i : Z) :
  0 ≤ i < size q →
  drop (Z.to_nat i) (to_sequence q)
  = slot q i :: drop (Z.to_nat (i + 1)) (to_sequence q).
Proof.
  intros Hi. replace (Z.to_nat (i + 1)) with (S (Z.to_nat i)) by lia.
  apply drop_S. by apply lookup_to_sequence.
Qed.

(** [qua_compare] computes the lexicographic order of the two logical
    sequences. *)
Lemma qua_compare_sequences (queue1 queue2 : QueueArray_s) :
  well_formed queue1 → well_formed queue2 →
  qua_compare queue1 queue2
  = Some (lexicographic (interface_compare (interface queue1))
            (to_sequence queue1) (to_sequence queue2)).
Proof.
  intros Hwf1 Hwf2. unfold qua_compare.
  set (m := if bool_decide (size queue1 < size queue2)
            then size queue1 else size queue2).
  set (cmp := interface_compare (interface queue1)).
  set (s1 := to_sequence queue1). set (s2 := to_sequence queue2).
  assert (0 ≤ m ∧ m ≤ size queue1 ∧ m ≤ size queue2) as Hm.
  { unfold m. destruct Hwf1, Hwf2. case_bool_decide; lia. }
  loop_invariant
    (λ '((i, returned) : Z * option Z),
       match returned with
       | None => 0 ≤ i ≤ m
                 ∧ lexicographic cmp s1 s2
                   = lexicographic cmp (drop (Z.to_nat i) s1)
                       (drop (Z.to_nat i) s2)
       | Some r => 0 ≤ i < m ∧ r = lexicographic cmp s1 s2
       end)
    (λ '((i, returned) : Z * option Z),
       Z.to_nat (m - i - match returned with Some _ => 1 | None => 0 end))
    ipattern:(([i returned] & -> & HP & Hexit)).
  - split; [lia | done].
  - lia.
  - intros [i [r|]] HP Hc; [done|]. destruct HP as [Hi Hlex].
    apply bool_decide_eq_true in Hc.
    rewrite (position_rem queue1) by first [done | destruct Hwf1; lia].
    simpl.
    rewrite (load_position queue1) by first [done | destruct Hwf1; lia].
    simpl.
    rewrite (position_rem queue2) by first [done | destruct Hwf2; lia].
    simpl.
    rewrite (load_position queue2) by first [done | destruct Hwf2; lia].
    simpl.
    unfold s1, s2 in Hlex.
    rewrite (drop_to_sequence queue1 i), (drop_to_sequence queue2 i) in Hlex
      by lia.
    simpl in Hlex. fold cmp in Hlex |- *.
    fold s1 s2 in Hlex. rewrite Hlex.
    destruct (decide (0 < cmp (slot queue1 i) (slot queue2 i))).
    { rewrite bool_decide_eq_true_2 by done.
      eexists. split; [done|]. split; [split; [lia | done] | lia]. }
    rewrite bool_decide_eq_false_2 by done.
    destruct (decide (cmp (slot queue1 i) (slot queue2 i) < 0)).
    { rewrite bool_decide_eq_true_2 by done.
      eexists. split; [done|]. split; [split; [lia | done] | lia]. }
    rewrite bool_decide_eq_false_2 by done.
    eexists. split; [done|]. split; [split; [lia | done] | lia].
  - destruct returned as [r|]; simpl.
    { destruct HP as [_ ->]. done. }
    clear Hm.
    destruct HP as [Hi Hlex]. apply bool_decide_eq_false in Hexit.
    assert (i = m) as -> by lia. rewrite Hlex. unfold s1, s2.
    destruct (decide (size queue1 < size queue2)) as [Hlt|Hge].
    + (* the first queue is a proper prefix of the second *)
      assert (m = size queue1) as ->
        by (unfold m; by rewrite bool_decide_eq_true_2).
      rewrite (bool_decide_eq_false_2 (size queue2 < size queue1)) by lia.
      rewrite (bool_decide_eq_true_2 (size queue1 < size queue2)) by done.
      rewrite (drop_to_sequence queue2) by (destruct Hwf1; lia).
      rewrite (drop_ge (to_sequence queue1))
        by (rewrite length_to_sequence; lia).
      done.
    + assert (m = size queue2) as ->
        by (unfold m; by rewrite bool_decide_eq_false_2).
      rewrite (bool_decide_eq_false_2 (size queue1 < size queue2)) by done.
      rewrite (drop_ge (to_sequence queue2))
        by (rewrite length_to_sequence; lia).
      case_bool_decide.
      * rewrite (drop_to_sequence queue1) by (destruct Hwf2; lia). done.
      * rewrite drop_ge by (rewrite length_to_sequence; lia). done.
Qed.

Lemma lexicographic_range (compare : ptr → ptr → Z) (l1 l2 : list ptr) :
  lexicographic compare l1 l2 = -1 ∨ lexicographic compare l1 l2 = 0
  ∨ lexicographic compare l1 l2 = 1.
Proof.
  revert l2. induction l1 as [|a l1 IH]; intros [|b l2]; simpl;
    repeat case_decide; auto.
Qed.

Lemma lexicographic_refl (compare : ptr → ptr → Z) (l : list ptr) :
  (∀ a, a ∈ l → compare a a = 0) → lexicographic compare l l = 0.
Proof.
  induction l as [|a l IH]; intros Hrefl; simpl; [done|].
  rewrite (Hrefl a) by (apply elem_of_cons; auto).
  rewrite !decide_False by lia. apply IH. intros b Hb. apply Hrefl.
  apply elem_of_cons; auto.
Qed.

Lemma lexicographic_swap (compare : ptr → ptr → Z) (l1 l2 : list ptr) :
  (∀ a b, 0 < compare a b ↔ compare b a < 0) →
  lexicographic compare l2 l1 = - lexicographic compare l1 l2.
Proof.
  intros Hanti. revert l2.
  induction l1 as [|a l1 IH]; intros [|b l2]; simpl; try done.
  pose proof (Hanti a b) as Hab. pose proof (Hanti b a) as Hba.
  repeat case_decide; first [lia | done | apply IH].
Qed.

(** X9. On well-formed queues [qua_compare] is the lexicographic order of
    the two logical sequences under the comparator of the first queue, a
    proper prefix being the smaller: the result is -1, 0 or 1 and depends
    on the elements from front to rear only, not on capacities, on where
    the fronts lie in the buffers, or on the second queue's interface. *)
Theorem qua_compare_lexicographic (queue1 queue2 : QueueArray_s) :
  well_formed queue1 → well_formed queue2 →
  qua_compare queue1 queue2
  = Some (lexicographic (interface_compare (interface queue1))
            (to_sequence queue1) (to_sequence queue2))
  ∧ ∃ result, qua_compare queue1 queue2 = Some result ∧ (result = -1 ∨ result = 0 ∨ result = 1).
Proof.
  intros Hwf1 Hwf2. rewrite qua_compare_sequences by done.
  split; [done|]. eexists. split; [done|]. apply lexicographic_range.
Qed.

Lemma qua_compare_lexicographic_witness :
  qua_compare
    (mkQueueArray [13; 0; 11; 12] 2 1 3 4 200 false sample_interface 5)
    (mkQueueArray [11; 12; 14] 0 0 3 3 150 true sample_interface 0)
  = Some (lexicographic (interface_compare sample_interface)
            (to_sequence (mkQueueArray [13; 0; 11; 12] 2 1 3 4 200 false
                            sample_interface 5))
            (to_sequence (mkQueueArray [11; 12; 14] 0 0 3 3 150 true
                            sample_interface 0)))
  ∧ ∃ result,
      qua_compare
        (mkQueueArray [13; 0; 11; 12] 2 1 3 4 200 false sample_interface 5)
        (mkQueueArray [11; 12; 14] 0 0 3 3 150 true sample_interface 0)
      = Some result ∧ (result = -1 ∨ result = 0 ∨ result = 1).
Proof.
  apply qua_compare_lexicographic;
    constructor; simpl; first [lia | reflexivity].
Defined.

(** X10. With a comparator that finds every element equal to itself, two
    well-formed queues with the same logical sequence compare as equal,
    however differently they are laid out; in particular a queue compares
    as equal to itself and, if its growth fits, to what [qua_grow] makes of
    it. *)
Theorem qua_compare_same_sequence (queue1 queue2 : QueueArray_s) :
  well_formed queue1 → well_formed queue2 →
  (∀ a, interface_compare (interface queue1) a a = 0) →
  (to_sequence queue1 = to_sequence queue2 →
   qua_compare queue1 queue2 = Some 0)
  ∧ qua_compare queue1 queue1 = Some 0
  ∧ ∀ fresh grown,
      size queue1 = capacity queue1 → growth_fits queue1 = true →
      qua_grow queue1 (AllocOk fresh) = Some (true, grown) →
      qua_compare queue1 grown = Some 0.
Proof.
  intros Hwf1 Hwf2 Hrefl.
  assert (∀ q, well_formed q → to_sequence queue1 = to_sequence q →
               qua_compare queue1 q = Some 0) as Hsame.
  { intros q Hwf Hseq. rewrite qua_compare_sequences by done.
    rewrite <- Hseq. f_equal. apply lexicographic_refl. auto. }
  split_and!; [by apply Hsame | by apply Hsame |].
  intros fresh grown Hfull Hfits Hgrow.
  assert (locked queue1 = false) as Hl.
  { unfold qua_grow in Hgrow. by destruct (locked queue1). }
  destruct (qua_grow_full queue1 fresh Hwf1 Hfull Hl Hfits)
    as (q' & Hgrow' & Hwf' & Hseq' & _).
  assert (q' = grown) as -> by congruence.
  by apply Hsame.
Qed.

Lemma qua_compare_same_sequence_witness :
  (to_sequence (mkQueueArray [13; 14; 11; 12] 2 2 4 4 200 false
                  sample_interface 5)
   = to_sequence (mkQueueArray [11; 12; 13; 14; 0] 0 4 4 5 150 true
                    sample_interface 0) →
   qua_compare
     (mkQueueArray [13; 14; 11; 12] 2 2 4 4 200 false sample_interface 5)
     (mkQueueArray [11; 12; 13; 14; 0] 0 4 4 5 150 true sample_interface 0)
   = Some 0)
  ∧ qua_compare
      (mkQueueArray [13; 14; 11; 12] 2 2 4 4 200 false sample_interface 5)
      (mkQueueArray [13; 14; 11; 12] 2 2 4 4 200 false sample_interface 5)
    = Some 0
  ∧ ∀ fresh grown,
      4 = 4 →
      growth_fits
        (mkQueueArray [13; 14; 11; 12] 2 2 4 4 200 false sample_interface 5)
      = true →
      qua_grow
        (mkQueueArray [13; 14; 11; 12] 2 2 4 4 200 false sample_interface 5)
        (AllocOk fresh) = Some (true, grown) →
      qua_compare
        (mkQueueArray [13; 14; 11; 12] 2 2 4 4 200 false sample_interface 5)
        grown = Some 0.
Proof.
  apply (qua_compare_same_sequence
           (mkQueueArray [13; 14; 11; 12] 2 2 4 4 200 false sample_interface 5)
           (mkQueueArray [11; 12; 13; 14; 0] 0 4 4 5 150 true
              sample_interface 0)).
  - constructor; simpl; first [lia | reflexivity].
  - constructor; simpl; first [lia | reflexivity].
  - intros a. simpl. lia.
Defined.

(** X11. If the comparator is sign-antisymmetric and both queues use it,
    swapping the arguments of [qua_compare] flips the sign of the result. *)
Theorem qua_compare_swap (queue1 queue2 : QueueArray_s) :
  well_formed queue1 → well_formed queue2 →
  interface queue2 = interface queue1 →
  (∀ a b, 0 < interface_compare (interface queue1) a b
          ↔ interface_compare (interface queue1) b a < 0) →
  ∃ result, qua_compare queue1 queue2 = Some result
          ∧ qua_compare queue2 queue1 = Some (- result).
Proof.
  intros Hwf1 Hwf2 Hitf Hanti.
  rewrite !qua_compare_sequences by done. rewrite Hitf.
  eexists. split; [done|]. f_equal. by apply lexicographic_swap.
Qed.

Lemma qua_compare_swap_witness :
  ∃ result,
    qua_compare
      (mkQueueArray [13; 0; 11; 12] 2 1 3 4 200 false sample_interface 5)
      (mkQueueArray [11; 12; 14] 0 0 3 3 150 true sample_interface 0)
    = Some result
    ∧ qua_compare
        (mkQueueArray [11; 12; 14] 0 0 3 3 150 true sample_interface 0)
        (mkQueueArray [13; 0; 11; 12] 2 1 3 4 200 false sample_interface 5)
      = Some (- result).
Proof.
  apply qua_compare_swap.
  - constructor; simpl; first [lia | reflexivity].
  - constructor; simpl; first [lia | reflexivity].
  - reflexivity.
  - intros a b. simpl. lia.
Defined.


(** *** Display *)

Lemma rear_index_position (q : QueueArray_s) :
  well_formed q → 0 < size q →
  (if bool_decide (rear q = 0) then capacity q - 1 else rear q - 1)
  = position q (size q - 1).
Proof.
  intros Hwf Hne.
  destruct Hwf as [? ? ? ? Hrear]. rewrite mod_wrap in Hrear by lia.
  unfold position. repeat case_decide; case_bool_decide; lia.
Qed.

Lemma to_sequence_split_last (q : QueueArray_s) :
  0 < size q →
  to_sequence q
  = take (Z.to_nat (size q - 1)) (to_sequence q) ++ [slot q (size q - 1)].
Proof.
  intros Hne. rewrite <- to_sequence_take_snoc by lia.
  rewrite take_ge; [done|]. rewrite length_to_sequence. lia.
Qed.

Lemma display_loop_spec (q : QueueArray_s) (separator : string) :
  well_formed q → 0 < size q →
  display_loop q separator
  = Some (take (Z.to_nat (size q - 1)) (to_sequence q)
          ≫= λ e, [Display e; Printf separator]).
Proof.
  intros Hwf Hne. unfold display_loop.
  walk q (size q - 1)
    (λ (j : Z) (out : list console),
       out = take (Z.to_nat j) (to_sequence q)
             ≫= λ e, [Display e; Printf separator])
    ipattern:((out & -> & ->)).
  - done.
  - destruct Hwf; lia.
  - lia.
  - by intros i j a.
  - done.
  - intros j a Hj ->. simpl.
    rewrite load_position by (destruct Hwf; done || lia). simpl.
    rewrite position_next by (destruct Hwf; done || lia). simpl.
    eexists. split; [done|].
    rewrite to_sequence_take_snoc by lia. rewrite bind_app. done.
  - done.
Qed.

Lemma displayed_app (out1 out2 : list console) :
  displayed (out1 ++ out2) = displayed out1 ++ displayed out2.
Proof. apply omap_app. Qed.

Lemma displayed_separated (l : list ptr) (separator : string) :
  displayed (l ≫= λ e, [Display e; Printf separator]) = l.
Proof.
  induction l as [|e l IH]; [done|].
  rewrite bind_cons, displayed_app, IH. done.
Qed.

(** X12. What [qua_display] shows of a well-formed queue.  An empty queue
    prints the one literal.  Otherwise modes 0 and the default hand the
    whole logical sequence to the interface's [display], front to rear,
    whereas modes -1 and 1 stop one short: their loops run while
    [j < size - 1] and nothing displays the rear element afterwards. *)
Theorem qua_display_elements (q : QueueArray_s) (display_mode : Z) :
  well_formed q →
  (size q = 0 →
   qua_display q display_mode = Some [Printf "\nQueueArray\n[ empty ]\n"])
  ∧ (0 < size q →
     ∃ out, qua_display q display_mode = Some out
          ∧ displayed out
            = if decide (display_mode = -1 ∨ display_mode = 1)
              then take (Z.to_nat (size q - 1)) (to_sequence q)
              else to_sequence q).
Proof.
  intros Hwf. unfold qua_display, qua_empty. split.
  - intros Hs. by rewrite bool_decide_eq_true_2.
  - intros Hne. rewrite bool_decide_eq_false_2 by lia.
    rewrite rear_index_position by done.
    rewrite !display_loop_spec by done. simpl.
    rewrite load_position by (destruct Hwf; done || lia). simpl.
    repeat case_decide; try lia; eexists; (split; [done|]);
      change (displayed (Printf ?s :: ?l)) with (displayed l);
      rewrite ?displayed_app, displayed_separated; try done.
    + symmetry. by apply to_sequence_split_last.
    + apply app_nil_r.
    + symmetry. by apply to_sequence_split_last.
Qed.

Lemma qua_display_elements_witness :
  (3 = 0 →
   qua_display
     (mkQueueArray [13; 0; 11; 12] 2 1 3 4 200 false sample_interface 5) 1
   = Some [Printf "\nQueueArray\n[ empty ]\n"])
  ∧ (0 < 3 →
     ∃ out,
       qua_display
         (mkQueueArray [13; 0; 11; 12] 2 1 3 4 200 false sample_interface 5) 1
       = Some out
       ∧ displayed out = [11; 12]).
Proof.
  apply (qua_display_elements
           (mkQueueArray [13; 0; 11; 12] 2 1 3 4 200 false sample_interface 5)
           1).
  constructor; simpl; first [lia | reflexivity].
Defined.


(** *** Reachable states *)

Lemma constructed_growth_rate (q : QueueArray_s) :
  constructed q → 100 < growth_rate q.
Proof.
  intros [(c & g & itf & mq & mb & Hq)|(itf & mq & mb & Hq)].
  - unfold qua_create in Hq. repeat case_bool_decide; simplify_eq/=.
    destruct mq; simplify_eq/=.
    destruct mb as [|fresh]; simplify_eq/=.
    destruct (null_fill c (malloc_cells fresh c)); simplify_eq/=; lia.
  - unfold qua_new, qua_create in Hq. repeat case_bool_decide; simplify_eq/=.
    destruct mq; simplify_eq/=.
    destruct mb as [|fresh]; simplify_eq/=.
    destruct (null_fill 32 (malloc_cells fresh 32)); simplify_eq/=; lia.
Qed.

Lemma mutate_invariants (q : QueueArray_s) (m : mutation) :
  well_formed q → 100 < growth_rate q →
  (size q = capacity q → locked q = false → growth_fits q = true) →
  ∃ q', mutate q m = Some q' ∧ well_formed q' ∧ 100 < growth_rate q'
      ∧ capacity q ≤ capacity q'
      ∧ size q' ≤ size q + 1
      ∧ growth_rate q' ∈ growth_rate q :: rates [m].
Proof.
  intros Hwf Hg Hfit.
  assert (∀ (r : Z) (l : list Z), r ∈ r :: l) as Hhere
    by (intros; apply elem_of_cons; auto).
  destruct m as [element realloc| |growth_rate| | | |new_interface]; simpl.
  - destruct (qua_enqueue_cases q element realloc Hwf Hfit)
      as [(q' & -> & Hwf' & _ & Hs & Hg' & Hl' & Hc & Hroom)|(-> & _)];
      simpl.
    + exists q'. rewrite Hg'. split_and!; try done; lia.
    + exists q. split_and!; try done; lia.
  - destruct (decide (0 < size q)) as [Hne|Hempty].
    + destruct (qua_dequeue_spec q Hwf Hne)
        as (v & q' & -> & Hwf' & _ & Hs & Hc & Hg' & Hl' & _).
      exists q'. simpl. rewrite Hg'. split_and!; try done; lia.
    + rewrite qua_dequeue_empty by (destruct Hwf; lia). exists q. simpl.
      split_and!; try done; lia.
  - eexists. split; [done|]. unfold qua_set_growth.
    case_bool_decide; simpl; split_and!; try done; try lia.
    + by destruct Hwf.
    + apply elem_of_cons. right. apply Hhere.
  - destruct (qua_erase_sequence q Hwf) as (b & -> & Hwf' & _). simpl.
    eexists. split; [done|]. simpl. split_and!; try done; lia.
  - eexists. split; [done|]. simpl. split_and!; try done; try lia.
    by destruct Hwf.
  - eexists. split; [done|]. simpl. split_and!; try done; try lia.
    by destruct Hwf.
  - eexists. split; [done|]. simpl. split_and!; try done; try lia.
    by destruct Hwf.
Qed.

Lemma rates_step (m : mutation) (ms : list mutation) (g g' r : Z) :
  g' ∈ g :: rates [m] → r ∈ g' :: rates ms → r ∈ g :: rates (m :: ms).
Proof.
  intros Hg' Hr.
  assert (rates (m :: ms) = rates [m] ++ rates ms) as ->
    by (destruct m; reflexivity).
  rewrite app_comm_cons. apply elem_of_app.
  apply elem_of_cons in Hr as [->|Hr]; auto.
Qed.

Lemma mutate_all_invariants (ms : list mutation) (q : QueueArray_s) :
  well_formed q → 100 < growth_rate q →
  (∀ c r, capacity q ≤ c ≤ size q + Z.of_nat (length ms) →
          r ∈ growth_rate q :: rates ms → fits c r = true) →
  ∃ q', mutate_all q ms = Some q'
      ∧ well_formed q'
      ∧ 100 < growth_rate q'
      ∧ capacity q ≤ capacity q'.
Proof.
  revert q. induction ms as [|m ms IH]; intros q Hwf Hg Hfit; simpl.
  - exists q. split_and!; try done; lia.
  - destruct (mutate_invariants q m Hwf Hg)
      as (q1 & -> & Hwf1 & Hg1 & Hc1 & Hs1 & Hr1).
    { intros Hfull _. apply Hfit; [simpl; lia | apply elem_of_cons; auto]. }
    simpl. destruct (IH q1 Hwf1 Hg1) as (q' & -> & ? & ? & ?).
    { intros c r Hc Hr. apply Hfit; [simpl; lia|].
      by apply (rates_step m ms _ (growth_rate q1)). }
    exists q'. split_and!; try done; lia.
Qed.

(** X13. Whatever sequence of mutating calls (enqueue with any allocator
    answer, dequeue, set-growth, erase, lock, unlock, config) follows a
    successful constructor, every call stays within the buffer (no access
    out of bounds, no remainder by zero, no conversion out of range) and
    the state reached is well formed, its growth rate is still above 100
    and its capacity is not below the constructed one; provided that every
    capacity the calls can fill, from the constructed one to the number of
    calls, grows at every growth rate in use to fewer than [2^61] cells. *)
Theorem qua_reachable_invariants (q : QueueArray_s) (ms : list mutation) :
  constructed q →
  growths_fit (capacity q) (Z.of_nat (length ms)) (growth_rate q :: rates ms)
  = true →
  ∃ q', mutate_all q ms = Some q'
      ∧ well_formed q'
      ∧ 100 < growth_rate q'
      ∧ capacity q ≤ capacity q'.
Proof.
  intros Hq Hfit. destruct (constructed_well_formed q Hq) as (Hwf & Hs & _).
  pose proof (constructed_growth_rate q Hq) as Hg.
  apply mutate_all_invariants; [done..|].
  intros c r Hc Hr. by eapply growths_fit_spec; [done | lia |].
Qed.

Lemma qua_reachable_invariants_witness :
  ∃ q', mutate_all
          (mkQueueArray (replicate 2 NULL) 0 0 0 2 101 false sample_interface 0)
          [DoEnqueue 11 AllocFails; DoSetGrowth 50; DoSetGrowth 150;
           DoEnqueue 12 AllocFails; DoEnqueue 13 (AllocOk (λ _, 7)); DoLock;
           DoErase; DoDequeue; DoUnlock]
        = Some q'
      ∧ well_formed q'
      ∧ 100 < growth_rate q'
      ∧ 2 ≤ capacity q'.
Proof.
  apply (qua_reachable_invariants
           (mkQueueArray (replicate 2 NULL) 0 0 0 2 101 false sample_interface 0)).
  - left. exists 2, 101, sample_interface, true, (AllocOk (λ _, 7)).
    reflexivity.
  - vm_compute. reflexivity.
Defined.


(** *** Locked queues *)

Lemma run_bounded_fifo (calls : list call) (q : QueueArray_s) :
  well_formed q → locked q = true →
  ∃ q', run q calls
        = Some (q', (bounded_fifo (capacity q) (to_sequence q) calls).1)
      ∧ to_sequence q' = (bounded_fifo (capacity q) (to_sequence q) calls).2
      ∧ well_formed q'
      ∧ locked q' = true
      ∧ capacity q' = capacity q.
Proof.
  revert q. induction calls as [|[element realloc|] calls IH]; intros q Hwf Hl.
  - by exists q.
  - simpl. rewrite length_to_sequence.
    assert (Z.of_nat (Z.to_nat (size q)) = size q) as -> by (destruct Hwf; lia).
    case_decide as Hroom.
    + rewrite qua_enqueue_room by done.
      destruct (enqueue_at_rear_spec q element Hwf Hroom)
        as (q1 & -> & Hwf1 & Hseq1 & _ & Hc1 & _ & Hl1 & _).
      simpl. rewrite Hl in Hl1.
      destruct (IH q1 Hwf1 Hl1) as (q' & -> & Hseq & ? & ? & Hc).
      rewrite Hc1, Hseq1 in *. simpl.
      destruct (bounded_fifo _ _ _) as [outs rest]. simpl in *.
      exists q'. split_and!; try done.
    + assert (size q = capacity q) as Hfull by (destruct Hwf; lia).
      rewrite qua_enqueue_rejected by auto. simpl.
      destruct (IH q Hwf Hl) as (q' & -> & Hseq & ? & ? & Hc). simpl.
      destruct (bounded_fifo _ _ _) as [outs rest]. simpl in *.
      exists q'. split_and!; try done.
  - simpl. destruct (decide (0 < size q)) as [Hne|Hempty].
    + destruct (qua_dequeue_spec q Hwf Hne)
        as (v & q1 & -> & Hwf1 & Hseq1 & _ & Hc1 & _ & Hl1 & _).
      simpl. rewrite Hl in Hl1.
      destruct (IH q1 Hwf1 Hl1) as (q' & -> & Hseq & ? & ? & Hc).
      rewrite Hseq1. rewrite Hc1 in *. simpl.
      destruct (bounded_fifo _ _ _) as [outs rest]. simpl in *.
      exists q'. split_and!; try done.
    + assert (size q = 0) as Hs by (destruct Hwf; lia).
      rewrite qua_dequeue_empty by done. simpl.
      pose proof (IH q Hwf Hl) as IHq.
      rewrite to_sequence_empty in IHq |- * by done.
      destruct IHq as (q' & -> & Hseq & ? & ? & Hc). simpl.
      destruct (bounded_fifo _ _ _) as [outs rest]. simpl in *.
      exists q'. split_and!; try done.
Qed.

(** X14. A well-formed queue whose capacity is locked is a bounded
    first-in-first-out list of bound [capacity]: over any sequence of
    enqueues and dequeues the calls are all defined, an enqueue succeeds
    exactly when fewer than [capacity] elements are pending and is refused
    otherwise whatever the allocator would answer, a dequeue delivers the
    oldest pending element, and at the end the queue is still locked, well
    formed and of the same capacity. *)
Theorem qua_locked_bounded_fifo (q : QueueArray_s) (calls : list call) :
  well_formed q → locked q = true →
  ∃ q', run q calls
        = Some (q', (bounded_fifo (capacity q) (to_sequence q) calls).1)
      ∧ to_sequence q' = (bounded_fifo (capacity q) (to_sequence q) calls).2
      ∧ well_formed q'
      ∧ locked q' = true
      ∧ capacity q' = capacity q.
Proof. apply run_bounded_fifo. Qed.

Lemma qua_locked_bounded_fifo_witness :
  ∃ q', run (mkQueueArray [13; 0; 11; 12] 2 1 3 4 200 true sample_interface 5)
          [Enqueue 14 AllocFails; Enqueue 15 (AllocOk (λ _, 7)); Dequeue;
           Enqueue 16 AllocFails]
        = Some (q', [Enqueued 14; EnqueueFailed; Dequeued 11; Enqueued 16])
      ∧ to_sequence q' = [12; 13; 14; 16]
      ∧ well_formed q'
      ∧ locked q' = true
      ∧ capacity q' = 4.
Proof.
  apply (qua_locked_bounded_fifo
           (mkQueueArray [13; 0; 11; 12] 2 1 3 4 200 true sample_interface 5)
           [Enqueue 14 AllocFails; Enqueue 15 (AllocOk (λ _, 7)); Dequeue;
            Enqueue 16 AllocFails]).
  - constructor; simpl; first [lia | reflexivity].
  - reflexivity.
Defined.


(** *** Copies *)

(** The loop shared by [qua_copy] and [qua_copy_shallow], [f] being what is
    stored for an element: it fills the cells of the first [size - 1]
    logical positions and touches no other cell. *)
Lemma copy_loop_spec (q : QueueArray_s) (f : ptr → ptr) (b0 : list ptr) :
  well_formed q → Z.of_nat (length b0) = capacity q →
  ∃ i j nb,
    for_loop (St := Z * Z * list ptr) (Z.to_nat (size q))
      (λ '(i, j, nb), bool_decide (j < size q - 1))
      (λ '(i, j, nb),
         v ← load (buffer q) i;
         nb' ← store nb i (f v);
         i' ← c_rem (i + 1) (capacity q);
         Some (i', j + 1, nb'))
      (front q, 0, b0) = Some (i, j, nb)
    ∧ length nb = length b0
    ∧ (∀ k, 0 ≤ k < size q - 1 → load nb (position q k) = Some (f (slot q k)))
    ∧ (∀ p, (∀ k, 0 ≤ k < size q - 1 → p ≠ position q k) →
            load nb p = load b0 p).
Proof.
  intros Hwf Hb0.
  destruct (decide (size q = 0)) as [Hs|Hs].
  { rewrite for_loop_skip by (apply bool_decide_eq_false_2; lia).
    exists (front q), 0, b0. split_and!; try done. intros; lia. }
  assert (0 < size q) as Hne by (destruct Hwf; lia).
  walk q (size q - 1)
    (λ (j : Z) (nb : list ptr),
       length nb = length b0
       ∧ (∀ k, 0 ≤ k < j → load nb (position q k) = Some (f (slot q k)))
       ∧ (∀ p, (∀ k, 0 ≤ k < j → p ≠ position q k) → load nb p = load b0 p))
    ipattern:((nb & Hloop & Hlen & Hcopied & Hrest)).
  - done.
  - destruct Hwf; lia.
  - lia.
  - by intros i j a.
  - split_and!; [done | intros; lia | done].
  - intros j nb Hj (Hlen & Hcopied & Hrest). simpl.
    assert (0 ≤ j < capacity q) as Hjc by (destruct Hwf; lia).
    pose proof (position_range q j Hwf Hjc) as Hp.
    rewrite load_position by done. simpl.
    rewrite store_in_range by lia. simpl.
    rewrite position_next by done. simpl.
    eexists. split; [done|].
    assert (store nb (position q j) (f (slot q j))
            = Some (<[Z.to_nat (position q j) := f (slot q j)]> nb)) as Hst
      by (apply store_in_range; lia).
    split_and!.
    + by rewrite length_insert.
    + intros k Hk. rewrite (load_store _ _ _ _ _ Hst).
      case_decide as Hkj.
      * apply position_injective in Hkj; [by subst | done | | done].
        destruct Hwf; lia.
      * apply Hcopied.
        destruct (decide (k = j)) as [->|]; [done | lia].
    + intros p Hp'. rewrite (load_store _ _ _ _ _ Hst).
      rewrite decide_False by (apply Hp'; lia).
      apply Hrest. intros k Hk. apply Hp'. lia.
  - by exists (position q (size q - 1)), (size q - 1), nb.
Qed.

Lemma load_replicate_NULL (n : nat) (p : Z) :
  0 ≤ p < Z.of_nat n → load (replicate n NULL) p = Some NULL.
Proof.
  intros Hp. unfold load. rewrite decide_True by lia.
  apply lookup_replicate. split; [done | lia].
Qed.

(** What a copy made by the shared loop looks like from the front. *)
Lemma copied_sequence (q : QueueArray_s) (f : ptr → ptr) (nb : list ptr)
    (g : integer_t) (itf : Interface_s) :
  well_formed q →
  length nb = Z.to_nat (capacity q) →
  (∀ k, 0 ≤ k < size q - 1 → load nb (position q k) = Some (f (slot q k))) →
  (∀ p, (∀ k, 0 ≤ k < size q - 1 → p ≠ position q k) →
        load nb p = load (replicate (Z.to_nat (capacity q)) NULL) p) →
  let copied := mkQueueArray nb (front q) (rear q) (size q) (capacity q) g
                  (locked q) itf 0 in
  well_formed copied
  ∧ to_sequence copied
    = (f <$> take (Z.to_nat (size q - 1)) (to_sequence q))
      ++ (if decide (size q = 0) then [] else [NULL]).
Proof.
  intros Hwf Hlen Hcopied Hrest copied.
  assert (well_formed copied) as Hwf'.
  { destruct Hwf. constructor; simpl; try done. lia. }
  split; [done|].
  assert (∀ k, position copied k = position q k) as Hpos by done.
  assert (∀ k, 0 ≤ k < size q - 1 → slot copied k = f (slot q k)) as Hslot.
  { intros k Hk. destruct Hwf.
    rewrite (slot_position copied) by (simpl; lia).
    rewrite Hpos. simpl. by rewrite Hcopied. }
  apply list_eq_same_length with (Z.to_nat (size q)).
  - rewrite length_app, length_fmap, length_take, length_to_sequence.
    destruct Hwf. case_decide; simpl; lia.
  - by rewrite length_to_sequence.
  - intros i x y Hi Hx Hy.
    rewrite <- (Nat2Z.id i) in Hx.
    rewrite lookup_to_sequence in Hx by (simpl; lia).
    destruct (decide (Z.of_nat i < size q - 1)) as [Hlt|Hlast].
    + rewrite Hslot in Hx by lia.
      rewrite lookup_app_l in Hy
        by (rewrite length_fmap, length_take, length_to_sequence; lia).
      rewrite list_lookup_fmap, lookup_take_lt in Hy by lia.
      rewrite <- (Nat2Z.id i) in Hy.
      rewrite lookup_to_sequence in Hy by lia. by simplify_eq/=.
    + assert (Z.of_nat i = size q - 1) as Hi' by lia.
      rewrite lookup_app_r in Hy
        by (rewrite length_fmap, length_take, length_to_sequence; lia).
      rewrite length_fmap, length_take, length_to_sequence in Hy.
      rewrite decide_False in Hy by lia.
      replace (i - Z.to_nat (size q - 1) `min` Z.to_nat (size q))%nat
        with 0%nat in Hy by lia.
      simpl in Hy.
      pose proof (wf_size q Hwf) as Hsize.
      pose proof (wf_front q Hwf) as Hfront.
      rewrite (slot_position copied) in Hx by (simpl; lia).
      rewrite Hpos in Hx. simpl in Hx.
      assert (0 ≤ size q - 1 < capacity q) as Hr by lia.
      pose proof (position_range q (size q - 1) Hwf Hr) as Hp.
      rewrite Hi' in Hx. rewrite Hrest, load_replicate_NULL in Hx.
      * by simplify_eq/=.
      * lia.
      * intros k Hk Heq. symmetry in Heq.
        apply position_injective in Heq; try done; lia.
Qed.

Lemma qua_create_cells (c g : integer_t) (itf : Interface_s) (fresh : nat → ptr) :
  0 < c < max_cells → 100 < g →
  qua_create c g itf true (AllocOk fresh)
  = Some (Some (mkQueueArray (replicate (Z.to_nat c) NULL) 0 0 0 c g false
                  itf 0)).
Proof.
  intros Hc Hg. unfold qua_create.
  rewrite bool_decide_eq_false_2 by lia. simpl.
  rewrite null_fill_replicate; [done|]. apply length_malloc. lia.
Qed.

Lemma qua_create_fails (c g : integer_t) (itf : Interface_s)
    (malloc_queue : bool) (malloc_buffer : alloc_result) :
  malloc_queue = false ∨ malloc_buffer = AllocFails →
  qua_create c g itf malloc_queue malloc_buffer = Some None.
Proof.
  intros Hfail. unfold qua_create. case_bool_decide; [done|].
  destruct malloc_queue; [|done]. by destruct Hfail as [?| ->].
Qed.

(** X15. [qua_copy] of a well-formed queue with a valid growth rate.  If
    either allocation fails it returns [NULL].  Otherwise the copy is well
    formed, has the same capacity, growth rate, front, rear, size, lock and
    interface, and a version counter of 0; from the front it holds the
    interface's copies of all elements but the newest, in order, and [NULL]
    in the place of the newest, since the loop stops at [size - 1]. *)
Theorem qua_copy_result (q : QueueArray_s) (malloc_queue : bool)
    (malloc_buffer : alloc_result) :
  well_formed q → 100 < growth_rate q →
  (malloc_queue = false ∨ malloc_buffer = AllocFails →
   qua_copy q malloc_queue malloc_buffer = Some None)
  ∧ ∀ fresh, ∃ copied,
      qua_copy q true (AllocOk fresh) = Some (Some copied)
      ∧ well_formed copied
      ∧ (front copied, rear copied, size copied, capacity copied)
        = (front q, rear q, size q, capacity q)
      ∧ (growth_rate copied, locked copied, interface copied,
         version_id copied)
        = (growth_rate q, locked q, interface q, 0)
      ∧ to_sequence copied
        = (interface_copy (interface q)
             <$> take (Z.to_nat (size q - 1)) (to_sequence q))
          ++ (if decide (size q = 0) then [] else [NULL]).
Proof.
  intros Hwf Hg. split.
  - intros Hfail. unfold qua_copy. by rewrite qua_create_fails.
  - intros fresh. unfold qua_copy.
    rewrite qua_create_cells by (destruct Hwf; lia). simpl.
    destruct (copy_loop_spec q (interface_copy (interface q))
                (replicate (Z.to_nat (capacity q)) NULL) Hwf)
      as (i & j & nb & -> & Hlen & Hcopied & Hrest).
    { rewrite length_replicate. destruct Hwf; lia. }
    simpl. eexists. split; [done|]. rewrite length_replicate in Hlen.
    destruct (copied_sequence q (interface_copy (interface q)) nb
                (growth_rate q) (interface q) Hwf Hlen Hcopied Hrest)
      as [Hwf' Hseq].
    by split_and!.
Qed.

Lemma qua_copy_result_witness :
  (true = false ∨ AllocOk (λ _, 7) = AllocFails →
   qua_copy (mkQueueArray [13; 0; 11; 12] 2 1 3 4 200 false sample_interface 5)
     true (AllocOk (λ _, 7)) = Some None)
  ∧ ∀ fresh, ∃ copied,
      qua_copy
        (mkQueueArray [13; 0; 11; 12] 2 1 3 4 200 false sample_interface 5)
        true (AllocOk fresh) = Some (Some copied)
      ∧ well_formed copied
      ∧ (front copied, rear copied, size copied, capacity copied)
        = (2, 1, 3, 4)
      ∧ (growth_rate copied, locked copied, interface copied,
         version_id copied)
        = (200, false, sample_interface, 0)
      ∧ to_sequence copied = [1011; 1012; NULL].
Proof.
  apply (qua_copy_result
           (mkQueueArray [13; 0; 11; 12] 2 1 3 4 200 false sample_interface 5)
           true (AllocOk (λ _, 7))).
  - constructor; simpl; first [lia | reflexivity].
  - simpl. lia.
Defined.

(** X16. [qua_copy_shallow] behaves as [qua_copy] with the element pointers
    themselves in place of their copies: [NULL] if an allocation fails,
    otherwise a well-formed queue of the same shape that holds, from the
    front, all elements but the newest and [NULL] in its place. *)
Theorem qua_copy_shallow_result (q : QueueArray_s) (malloc_queue : bool)
    (malloc_buffer : alloc_result) :
  well_formed q → 100 < growth_rate q →
  (malloc_queue = false ∨ malloc_buffer = AllocFails →
   qua_copy_shallow q malloc_queue malloc_buffer = Some None)
  ∧ ∀ fresh, ∃ copied,
      qua_copy_shallow q true (AllocOk fresh) = Some (Some copied)
      ∧ well_formed copied
      ∧ (front copied, rear copied, size copied, capacity copied)
        = (front q, rear q, size q, capacity q)
      ∧ (growth_rate copied, locked copied, interface copied,
         version_id copied)
        = (growth_rate q, locked q, interface q, 0)
      ∧ to_sequence copied
        = take (Z.to_nat (size q - 1)) (to_sequence q)
          ++ (if decide (size q = 0) then [] else [NULL]).
Proof.
  intros Hwf Hg. split.
  - intros Hfail. unfold qua_copy_shallow. by rewrite qua_create_fails.
  - intros fresh. unfold qua_copy_shallow.
    rewrite qua_create_cells by (destruct Hwf; lia). simpl.
    destruct (copy_loop_spec q (λ v, v)
                (replicate (Z.to_nat (capacity q)) NULL) Hwf)
      as (i & j & nb & Hloop & Hlen & Hcopied & Hrest).
    { rewrite length_replicate. destruct Hwf; lia. }
    simpl in Hloop. rewrite Hloop.
    simpl. eexists. split; [done|]. rewrite length_replicate in Hlen.
    destruct (copied_sequence q (λ v, v) nb
                (growth_rate q) (interface q) Hwf Hlen Hcopied Hrest)
      as [Hwf' Hseq].
    rewrite list_fmap_id in Hseq.
    by split_and!.
Qed.

Lemma qua_copy_shallow_result_witness :
  (true = false ∨ AllocOk (λ _, 7) = AllocFails →
   qua_copy_shallow
     (mkQueueArray [13; 0; 11; 12] 2 1 3 4 200 false sample_interface 5)
     true (AllocOk (λ _, 7)) = Some None)
  ∧ ∀ fresh, ∃ copied,
      qua_copy_shallow
        (mkQueueArray [13; 0; 11; 12] 2 1 3 4 200 false sample_interface 5)
        true (AllocOk fresh) = Some (Some copied)
      ∧ well_formed copied
      ∧ (front copied, rear copied, size copied, capacity copied)
        = (2, 1, 3, 4)
      ∧ (growth_rate copied, locked copied, interface copied,
         version_id copied)
        = (200, false, sample_interface, 0)
      ∧ to_sequence copied = [11; 12; NULL].
Proof.
  apply (qua_copy_shallow_result
           (mkQueueArray [13; 0; 11; 12] 2 1 3 4 200 false sample_interface 5)
           true (AllocOk (λ _, 7))).
  - constructor; simpl; first [lia | reflexivity].
  - simpl. lia.
Defined.


(** *** Linearizing *)

(** The loop of [qua_to_array] when every occupied buffer index is below
    [size]: the array cell at the buffer index of an element receives the
    copy of that element. *)
Lemma to_array_loop_spec (q : QueueArray_s) (array0 : list ptr) :
  well_formed q → Z.of_nat (length array0) = size q →
  (∀ k, 0 ≤ k < size q → position q k < size q) →
  ∃ i j array,
    for_loop (St := Z * Z * list ptr) (Z.to_nat (size q))
      (λ '(i, j, array), bool_decide (j < size q))
      (λ '(i, j, array),
         v ← load (buffer q) i;
         array' ← store array i (interface_copy (interface q) v);
         i' ← c_rem (i + 1) (capacity q);
         Some (i', j + 1, array'))
      (front q, 0, array0) = Some (i, j, array)
    ∧ length array = length array0
    ∧ ∀ k, 0 ≤ k < size q →
           load array (position q k)
           = Some (interface_copy (interface q) (slot q k)).
Proof.
  intros Hwf Hlen0 Hin.
  walk q (size q)
    (λ (j : Z) (array : list ptr),
       length array = length array0
       ∧ ∀ k, 0 ≤ k < j →
              load array (position q k)
              = Some (interface_copy (interface q) (slot q k)))
    ipattern:((array & Hloop & Hlen & Hcopied)).
  - done.
  - destruct Hwf; lia.
  - lia.
  - by intros i j a.
  - split; [done | intros; lia].
  - intros j array Hj (Hlen & Hcopied). simpl.
    assert (0 ≤ j < capacity q) as Hjc by (destruct Hwf; lia).
    pose proof (position_range q j Hwf Hjc) as Hp.
    pose proof (Hin j Hj) as Hpj.
    rewrite load_position by done. simpl.
    rewrite store_in_range by lia. simpl.
    rewrite position_next by done. simpl.
    eexists. split; [done|].
    assert (store array (position q j)
              (interface_copy (interface q) (slot q j))
            = Some (<[Z.to_nat (position q j)
                      := interface_copy (interface q) (slot q j)]> array))
      as Hst by (apply store_in_range; lia).
    split.
    + by rewrite length_insert.
    + intros k Hk. rewrite (load_store _ _ _ _ _ Hst).
      case_decide as Hkj.
      * apply position_injective in Hkj; [by subst | done | | done].
        destruct Hwf; lia.
      * apply Hcopied.
        destruct (decide (k = j)) as [->|]; [done | lia].
  - by exists (position q (size q)), (size q), array.
Qed.

Lemma qua_to_array_front_zero (q : QueueArray_s) (fresh : nat → ptr) :
  well_formed q → 0 < size q → front q = 0 →
  qua_to_array q (AllocOk fresh)
  = Some (Some (interface_copy (interface q) <$> to_sequence q, size q)).
Proof.
  intros Hwf Hne Hf. unfold qua_to_array, qua_empty.
  pose proof (wf_size q Hwf) as Hsz. pose proof (wf_block q Hwf) as Hblk.
  rewrite bool_decide_eq_false_2 by lia.
  assert (∀ k, 0 ≤ k < size q → position q k = k) as Hpos.
  { intros k Hk. unfold position. destruct Hwf. case_decide; lia. }
  destruct (to_array_loop_spec q (malloc_cells fresh (size q)) Hwf)
    as (i & j & array & -> & Hlen & Hcopied).
  { apply length_malloc. lia. }
  { intros k Hk. rewrite Hpos by done. lia. }
  simpl. do 3 f_equal.
  assert (Z.of_nat (length array) = size q) as Hlen'.
  { rewrite Hlen. apply length_malloc. lia. }
  apply list_eq_same_length with (Z.to_nat (size q)).
  - rewrite length_fmap, length_to_sequence. done.
  - lia.
  - intros n x y Hn Hx Hy.
    rewrite list_lookup_fmap in Hy. rewrite <- (Nat2Z.id n) in Hy.
    rewrite lookup_to_sequence in Hy by lia. simpl in Hy.
    specialize (Hcopied (Z.of_nat n)). rewrite Hpos in Hcopied by lia.
    unfold load in Hcopied. rewrite decide_True in Hcopied by lia.
    rewrite Nat2Z.id in Hcopied. rewrite Hcopied in Hx by lia. congruence.
Qed.

Lemma qua_to_array_full (q : QueueArray_s) (fresh : nat → ptr) :
  well_formed q → size q = capacity q →
  qua_to_array q (AllocOk fresh)
  = Some (Some (interface_copy (interface q) <$> buffer q, size q)).
Proof.
  intros Hwf Hfull. unfold qua_to_array, qua_empty.
  pose proof (wf_size q Hwf) as Hsz. pose proof (wf_block q Hwf) as Hblk.
  pose proof (wf_capacity q Hwf) as Hcap.
  pose proof (wf_front q Hwf) as Hfront.
  pose proof (wf_buffer q Hwf) as Hbuf.
  rewrite bool_decide_eq_false_2 by lia.
  destruct (to_array_loop_spec q (malloc_cells fresh (size q)) Hwf)
    as (i & j & array & -> & Hlen & Hcopied).
  { apply length_malloc. lia. }
  { intros k Hk. rewrite Hfull. apply position_range; [done | lia]. }
  simpl. do 3 f_equal.
  assert (Z.of_nat (length array) = size q) as Hlen'.
  { rewrite Hlen. apply length_malloc. lia. }
  apply list_eq_same_length with (Z.to_nat (size q)).
  - rewrite length_fmap. lia.
  - lia.
  - intros n x y Hn Hx Hy.
    rewrite list_lookup_fmap in Hy.
    set (p := Z.of_nat n).
    set (k := if decide (front q ≤ p) then p - front q
              else p - front q + capacity q).
    assert (0 ≤ k < size q) as Hk by (unfold k, p; case_decide; lia).
    assert (position q k = p) as Hpk.
    { unfold position, k, p. repeat case_decide; lia. }
    specialize (Hcopied k Hk). rewrite Hpk in Hcopied.
    rewrite slot_position, Hpk in Hcopied by lia.
    unfold load in Hcopied. rewrite !decide_True in Hcopied by lia.
    unfold p in Hcopied. rewrite Nat2Z.id in Hcopied.
    rewrite Hcopied in Hx.
    destruct (buffer q !! n) as [v|] eqn:Hv; simpl in *; [congruence|].
    apply lookup_ge_None in Hv. lia.
Qed.

Lemma qua_to_array_outside (q : QueueArray_s) (fresh : nat → ptr) :
  well_formed q → 0 < size q → 0 < front q → size q < capacity q →
  qua_to_array q (AllocOk fresh) = None.
Proof.
  intros Hwf Hne Hf Hroom. unfold qua_to_array, qua_empty.
  pose proof (wf_block q Hwf) as Hblk.
  rewrite bool_decide_eq_false_2 by lia.
  pose proof (wf_capacity q Hwf) as Hcap.
  pose proof (wf_front q Hwf) as Hfront.
  set (j0 := Z.max 0 (size q - front q)).
  assert (0 ≤ j0 < size q) as Hj0 by lia.
  assert (size q ≤ position q j0) as Hout.
  { unfold position, j0. case_decide; lia. }
  match goal with
  | |- context [for_loop ?fuel ?cond ?body ?s] =>
      destruct (for_loop fuel cond body s) as [[[i j] array]|] eqn:Hloop;
        [|done]
  end.
  exfalso.
  apply (for_loop_partial
           (λ '((i, j, array) : Z * Z * list ptr),
              0 ≤ j ≤ j0 ∧ i = position q j
              ∧ Z.of_nat (length array) = size q)) in Hloop.
  - destruct Hloop as [(Hj & _ & _) Hc].
    apply bool_decide_eq_false in Hc. lia.
  - split_and!; [lia | lia | |].
    + unfold position. rewrite decide_True by lia. lia.
    + apply length_malloc. lia.
  - intros [[i1 j1] array1] [[i2 j2] array2] (Hj & -> & Hlen) Hc Hbody.
    apply bool_decide_eq_true in Hc. simpl in Hbody.
    rewrite load_position in Hbody by (done || lia). simpl in Hbody.
    destruct (store array1 _ _) as [array'|] eqn:Hst; [|done].
    simpl in Hbody. rewrite position_next in Hbody by (done || lia).
    simplify_eq/=. apply store_Some in Hst as Hst'.
    destruct Hst' as [Hin ->].
    assert (j1 ≠ j0) by (intros ->; lia).
    split_and!; [lia | lia | done |]. by rewrite length_insert.
Qed.

(** X17. [qua_to_array] on a well-formed queue.  It returns [NULL] for an
    empty queue and when the allocation fails.  Since the loop writes
    [array[i]] with [i] the buffer index, the array is the sequence of
    copies from front to rear only when the front is at index 0; on a full
    queue it is the copies in buffer order; and on a queue that is neither
    full nor fronted at 0 some write falls outside the [size] cells of the
    array. *)
Theorem qua_to_array_cases (q : QueueArray_s) (fresh : nat → ptr) :
  well_formed q →
  (size q = 0 → qua_to_array q (AllocOk fresh) = Some None)
  ∧ qua_to_array q AllocFails = Some None
  ∧ (0 < size q → front q = 0 →
     qua_to_array q (AllocOk fresh)
     = Some (Some (interface_copy (interface q) <$> to_sequence q, size q)))
  ∧ (size q = capacity q →
     qua_to_array q (AllocOk fresh)
     = Some (Some (interface_copy (interface q) <$> buffer q, size q)))
  ∧ (0 < size q → 0 < front q → size q < capacity q →
     qua_to_array q (AllocOk fresh) = None).
Proof.
  intros Hwf. split_and!.
  - intros Hs. unfold qua_to_array, qua_empty.
    by rewrite bool_decide_eq_true_2.
  - unfold qua_to_array. by destruct (qua_empty q).
  - by apply qua_to_array_front_zero.
  - by apply qua_to_array_full.
  - by apply qua_to_array_outside.
Qed.

Lemma qua_to_array_cases_witness :
  (3 = 0 →
   qua_to_array
     (mkQueueArray [11; 12; 13; 0] 0 3 3 4 200 false sample_interface 3)
     (AllocOk (λ _, 7)) = Some None)
  ∧ qua_to_array
      (mkQueueArray [11; 12; 13; 0] 0 3 3 4 200 false sample_interface 3)
      AllocFails = Some None
  ∧ (0 < 3 → 0 = 0 →
     qua_to_array
       (mkQueueArray [11; 12; 13; 0] 0 3 3 4 200 false sample_interface 3)
       (AllocOk (λ _, 7))
     = Some (Some ([1011; 1012; 1013], 3)))
  ∧ (3 = 4 →
     qua_to_array
       (mkQueueArray [11; 12; 13; 0] 0 3 3 4 200 false sample_interface 3)
       (AllocOk (λ _, 7))
     = Some (Some ([1011; 1012; 1013; 1000], 3)))
  ∧ (0 < 3 → 0 < 0 → 3 < 4 →
     qua_to_array
       (mkQueueArray [11; 12; 13; 0] 0 3 3 4 200 false sample_interface 3)
       (AllocOk (λ _, 7)) = None).
Proof.
  apply (qua_to_array_cases
           (mkQueueArray [11; 12; 13; 0] 0 3 3 4 200 false sample_interface 3)
           (λ _, 7)).
  constructor; simpl; first [lia | reflexivity].
Defined.

End QueueArrayLaws.
